(** * grounded-rag-qa: chunking and confidence-scored retrieval

    A shallow embedding of [app/pipelines/chunking.py] and
    [app/services/retrieval_service.py], with the properties of the
    chunker (overlap, offsets, emptiness) and of the retriever (threshold
    fallback, confidence report, retry loop, citations).

    Conventions.
    - Python [int] is [Z]; [len] returns a [Z].
    - Python [str] is [list ascii] (one [ascii] per character; the code
      points 0..255).  Dictionary keys are [string] so that a [dict] is a
      [gmap string _].
    - Python [float] is [Q]: only comparisons, [max], [sum] and one division
      are used by the code, and they are taken exactly (no rounding, no NaN).
    - An exception is a value of [exn]; a call that can raise returns a
      [result].  Calls to [logger] have no effect on any value and are left
      out. *)

From Stdlib Require Import ZArith QArith Ascii String List Lia.
From stdpp Require Import base list gmap strings pretty.

Local Open Scope Z_scope.

(** ** Exceptions and fallible computations *)

Inductive exn : Type :=
  | AttributeError            (* attribute access on [None] *)
  | TypeError                 (* [len] or a slice of a value that is no [str] *)
  | Exception (msg : string)  (* [raise Exception(msg)] *)
  | ProviderError (code : Z). (* whatever a collaborator raises *)

Inductive result (A : Type) : Type :=
  | Return (a : A)
  | Raise (e : exn).

Arguments Return {A} a.
Arguments Raise {A} e.

(** Sequencing, [x ← c; k]: an exception of [c] skips [k]. *)
#[global] Instance result_bind : MBind result := fun A B k c =>
  match c with
  | Return a => k a
  | Raise e => Raise e
  end.

(** A [for] loop whose body can raise: the first exception leaves the loop. *)
Fixpoint for_each {A S : Type} (body : S -> A -> result S) (st : S) (l : list A)
  : result S :=
  match l with
  | [] => Return st
  | x :: l' => st' ← body st x; for_each body st' l'
  end.

(** ** The Python built-ins the code relies on *)

Module Py.

Definition str : Type := list ascii.

(** A string literal. *)
Definition lit (s : string) : str := list_ascii_of_string s.

Definition len {A : Type} (l : list A) : Z := Z.of_nat (length l).

(** Truthiness of a sequence: [if l:]. *)
Definition truthy {A : Type} (l : list A) : bool :=
  match l with [] => false | _ :: _ => true end.

(** [x or d] for an optional [int]: [None] and [0] are falsy. *)
Definition int_or (x : option Z) (d : Z) : Z :=
  match x with
  | Some v => if v =? 0 then d else v
  | None => d
  end.

(** [x or d] for an optional [float]: [None] and [0.0] are falsy. *)
Definition float_or (x : option Q) (d : Q) : Q :=
  match x with
  | Some v => if Qeq_bool v 0 then d else v
  | None => d
  end.

(** [c.isspace()], which is also what [\s] matches in a [str] pattern:
    TAB..CR, FS..US, space, NEL and NBSP among the code points 0..255. *)
Definition is_space (c : ascii) : bool :=
  let n := nat_of_ascii c in
  ((9 <=? n) && (n <=? 13) || (28 <=? n) && (n <=? 32)
   || (n =? 133) || (n =? 160))%nat.

(** [s.lstrip()] *)
Fixpoint lstrip (s : str) : str :=
  match s with
  | [] => []
  | c :: s' => if is_space c then lstrip s' else s
  end.

(** [s.rstrip()] *)
Definition rstrip (s : str) : str := rev (lstrip (rev s)).

(** [s.strip()] *)
Definition strip (s : str) : str := lstrip (rstrip s).

(** The start of a slice, [s[i:]], or its end, [s[:i]]: a negative index
    counts from the end, and the result is clamped to [0..len s]. *)
Definition slice_index (n i : Z) : Z :=
  if i <? 0 then Z.max 0 (n + i) else Z.min i n.

(** [s[i:]] *)
Definition slice_from {A : Type} (s : list A) (i : Z) : list A :=
  drop (Z.to_nat (slice_index (len s) i)) s.

(** [s[:j]] *)
Definition slice_to {A : Type} (s : list A) (j : Z) : list A :=
  take (Z.to_nat (slice_index (len s) j)) s.

(** [s.find(c)] for a one-character [c]: the least index, or [-1]. *)
Fixpoint find (c : ascii) (s : str) : Z :=
  match s with
  | [] => -1
  | a :: s' =>
      if Ascii.eqb a c then 0
      else let r := find c s' in if r <? 0 then -1 else r + 1
  end.

(** [sep.join(l)] *)
Fixpoint join (sep : str) (l : list str) : str :=
  match l with
  | [] => []
  | x :: l' =>
      match l' with
      | [] => x
      | _ :: _ => x ++ sep ++ join sep l'
      end
  end.

Definition is_end_punct (c : ascii) : bool :=
  Ascii.eqb c "." || Ascii.eqb c "!" || Ascii.eqb c "?".

(** [re.split(r'(?<=[.!?])\s+', s)].  A separator starts at a whitespace
    character that follows one of [.!?] and runs over all the whitespace
    after it.  [after_punct] tells whether the character before [s] is one
    of [.!?]; [in_sep] whether a separator is being read.  The head of the
    result is the piece that the characters of [s] continue. *)
Fixpoint re_split_go (after_punct in_sep : bool) (s : str) : list str :=
  match s with
  | [] => [[]]
  | c :: s' =>
      if is_space c && (in_sep || after_punct) then
        let pieces := re_split_go false true s' in
        if in_sep then pieces else [] :: pieces
      else
        match re_split_go (is_end_punct c) false s' with
        | p :: ps => (c :: p) :: ps
        | [] => [[c]]
        end
  end.

Definition re_split_sentences (s : str) : list str :=
  re_split_go false false s.

(** [str(n)] for an [int]. *)
Definition str_of_int (n : Z) : str := lit (pretty n).

End Py.

Import Py.

(** A value stored in a metadata dictionary: the ingestion pipeline stores
    strings (document id, file name, upload time, text) and integers (file
    size, chunk index). *)
Inductive value : Type :=
  | VStr (s : str)
  | VInt (n : Z).

(** [f"{v}"] *)
Definition format (v : value) : str :=
  match v with
  | VStr s => s
  | VInt n => str_of_int n
  end.

(** [d.get(k, default)] *)
Definition dict_get {V : Type} (d : gmap string V) (k : string) (default : V) : V :=
  match d !! k with
  | Some v => v
  | None => default
  end.

(** ** Configuration ([app/config.py]) *)

Module Config.

Record Settings : Type := {
  chunk_size : Z;
  chunk_overlap : Z;
  retrieval_top_k : Z;
  confidence_threshold : Q;
  max_retries : Z
}.

(** The defaults of the class [Settings]. *)
Definition settings : Settings := {|
  chunk_size := 1000;
  chunk_overlap := 200;
  retrieval_top_k := 5;
  confidence_threshold := 7 # 10;
  max_retries := 3
|}.

End Config.

(** ** The chunker ([app/pipelines/chunking.py]) *)

Module Chunking.

Record DocumentChunker : Type := {
  chunk_size : Z;
  chunk_overlap : Z
}.

(** [DocumentChunker.__init__] *)
Definition init (cfg : Config.Settings) (chunk_size chunk_overlap : option Z)
  : DocumentChunker := {|
  chunk_size := int_or chunk_size (Config.chunk_size cfg);
  chunk_overlap := int_or chunk_overlap (Config.chunk_overlap cfg)
|}.

Record Chunk : Type := {
  chunk_id : str;
  text : str;
  start_index : Z;
  end_index : Z;
  metadata : gmap string value
}.

(** [DocumentChunker._split_sentences] *)
Definition _split_sentences (text : str) : list str :=
  List.map strip
    (List.filter (fun s => truthy (strip s)) (re_split_sentences text)).

(** [DocumentChunker._get_overlap_text] *)
Definition _get_overlap_text (self : DocumentChunker) (text : str) : str :=
  if len text <=? chunk_overlap self then text
  else
    let overlap := slice_from text (- chunk_overlap self) in
    let first_space := find " " overlap in
    if first_space >? 0 then slice_from overlap (first_space + 1)
    else overlap.

(** The dictionary appended to [chunks], at both places of [chunk_text].
    The [chunk_id] entry is evaluated first and reads [metadata.get]. *)
Definition emit (metadata : option (gmap string value)) (chunk_id : Z)
    (chunk_text : str) (start : Z) : result Chunk :=
  match metadata with
  | None => Raise AttributeError
  | Some m =>
      Return {|
        chunk_id :=
          format (dict_get m "document_id" (VStr (lit "doc")))
            ++ lit "_" ++ str_of_int chunk_id;
        text := chunk_text;
        start_index := start;
        end_index := start + len chunk_text;
        metadata := <["chunk_index" := VInt chunk_id]> m
      |}
  end.

(** The local variables of [chunk_text] that the loop updates. *)
Record locals : Type := {
  chunks : list Chunk;
  start : Z;
  next_id : Z;               (* the variable [chunk_id] *)
  current_chunk : list str;
  current_length : Z
}.

Definition locals0 : locals := {|
  chunks := []; start := 0; next_id := 0;
  current_chunk := []; current_length := 0
|}.

(** One iteration of [for sentence in sentences]. *)
Definition step (self : DocumentChunker) (metadata : option (gmap string value))
    (st : locals) (sentence : str) : result locals :=
  let sentence_length := len sentence in
  st1 ←
    (if (current_length st + sentence_length >? chunk_size self)
          && truthy (current_chunk st)
     then
       let chunk_text := join (lit " ") (current_chunk st) in
       c ← emit metadata (next_id st) chunk_text (start st);
       let overlap_text := _get_overlap_text self chunk_text in
       Return {|
         chunks := chunks st ++ [c];
         next_id := next_id st + 1;
         current_chunk := if truthy overlap_text then [overlap_text] else [];
         current_length := if truthy overlap_text then len overlap_text else 0;
         start := start st + len chunk_text - len overlap_text
       |}
     else Return st);
  Return {|
    chunks := chunks st1;
    start := start st1;
    next_id := next_id st1;
    current_chunk := current_chunk st1 ++ [sentence];
    current_length := current_length st1 + sentence_length + 1
  |}.

(** [DocumentChunker.chunk_text]; [metadata = None] is the omitted
    argument. *)
Definition chunk_text (self : DocumentChunker) (text : str)
    (metadata : option (gmap string value)) : result (list Chunk) :=
  if negb (truthy text) || negb (truthy (strip text)) then Return []
  else
    st ← for_each (step self metadata) locals0 (_split_sentences text);
    if truthy (current_chunk st) then
      let chunk_text := join (lit " ") (current_chunk st) in
      c ← emit metadata (next_id st) chunk_text (start st);
      Return (chunks st ++ [c])
    else Return (chunks st).

(** What a caller sees of a chunk in the examples below. *)
Definition view (c : Chunk) : string * Z * Z :=
  (string_of_list_ascii (text c), start_index c, end_index c).

End Chunking.

Import Chunking.

(** ** The retriever ([app/services/retrieval_service.py]) *)

Module Retrieval.

(** A hit of the vector store: the dictionary with the keys ["id"],
    ["score"] and ["metadata"] that [query_vectors] builds. *)
Record Hit : Type := {
  hit_id : str;
  hit_score : Q;
  hit_metadata : gmap string value
}.

(** An element of [context_chunks].  The dictionary is built with all five
    keys, so the [.get(key, default)] of [_build_citations] never returns
    its default and reads a field. *)
Record ContextChunk : Type := {
  cc_text : value;
  cc_chunk_id : str;
  cc_document_id : value;
  cc_score : Q;
  cc_metadata : gmap string value
}.

Record Citation : Type := {
  cit_document_id : value;
  cit_chunk_id : str;
  cit_text : value;
  cit_confidence_score : Q;
  cit_metadata : gmap string value
}.

(** A number of [retrieval_metadata]. *)
Inductive number : Type :=
  | NInt (n : Z)
  | NFloat (q : Q).

(** The dictionary that [retrieve_and_answer] returns. *)
Record Outcome : Type := {
  answer : str;
  citations : list Citation;
  confidence_score : Q;
  retrieval_metadata : gmap string number
}.

(** The three collaborators.  Each is called at most once per attempt, and
    what it answers may change from one attempt to the next: the first
    argument is the index of the attempt that makes the call. *)
Record Services : Type := {
  generate_embedding : Z -> str -> result (list Q);
  query_vectors : Z -> list Q -> Z -> result (list Hit);
  generate_response : Z -> str -> list ContextChunk -> bool -> result str
}.

Record RetrievalService : Type := {
  confidence_threshold : Q;
  max_retries : Z
}.

(** [RetrievalService.__init__] *)
Definition init (cfg : Config.Settings) : RetrievalService := {|
  confidence_threshold := Config.confidence_threshold cfg;
  max_retries := Config.max_retries cfg
|}.

(** [max(l) if l else 0.0]; [max] returns the first of the greatest
    elements. *)
Definition max_or_zero (l : list Q) : Q :=
  match l with
  | [] => 0%Q
  | x :: xs => fold_left (fun best y => if Qle_bool y best then best else y) xs x
  end.

(** [sum(l) / len(l) if l else 0.0] *)
Definition avg_or_zero (l : list Q) : Q :=
  match l with
  | [] => 0%Q
  | _ :: _ => (fold_left Qplus l 0 / inject_Z (len l))%Q
  end.

(** The text of a citation: [t[:200] + "..." if len(t) > 200 else t]. *)
Definition citation_text (t : value) : result value :=
  match t with
  | VStr s =>
      Return (VStr (if len s >? 200 then slice_to s 200 ++ lit "..." else s))
  | VInt _ => Raise TypeError
  end.

(** [RetrievalService._build_citations] *)
Definition _build_citations (chunks : list ContextChunk) : result (list Citation) :=
  for_each
    (fun citations chunk =>
       t ← citation_text (cc_text chunk);
       Return (citations ++ [{|
         cit_document_id := cc_document_id chunk;
         cit_chunk_id := cc_chunk_id chunk;
         cit_text := t;
         cit_confidence_score := cc_score chunk;
         cit_metadata := cc_metadata chunk
       |}]))
    [] chunks.

(** An element of the comprehension that prepares [context_chunks]. *)
Definition context_chunk (r : Hit) : ContextChunk := {|
  cc_text := dict_get (hit_metadata r) "text" (VStr []);
  cc_chunk_id := hit_id r;
  cc_document_id := dict_get (hit_metadata r) "document_id" (VStr []);
  cc_score := hit_score r;
  cc_metadata := hit_metadata r
|}.

(** The hits with [score >= threshold]. *)
Definition meets (threshold : Q) (r : Hit) : bool :=
  Qle_bool threshold (hit_score r).

(** Lines 71 to 85: the hits that are kept and the confidence that is
    reported, for the non-empty list of hits [r0 :: rest]. *)
Definition select (threshold : Q) (r0 : Hit) (rest : list Hit)
  : list Hit * Q :=
  let results := r0 :: rest in
  let confidence_scores := List.map hit_score results in
  let max_confidence := max_or_zero confidence_scores in
  let filtered_results := List.filter (meets threshold) results in
  if negb (truthy filtered_results)
  then (slice_to results 1, hit_score r0)
  else (filtered_results, max_confidence).

Definition no_results_answer : str :=
  lit "I couldn't find any relevant information to answer your question.".

(** The dictionary returned when the store has no hit (lines 61 to 69). *)
Definition no_results (attempt : Z) : Outcome := {|
  answer := no_results_answer;
  citations := [];
  confidence_score := 0;
  retrieval_metadata :=
    <["retrieval_count" := NInt 0]> (<["attempt" := NInt (attempt + 1)]> ∅)
|}.

(** The body of the [try] block, for one value of [attempt]. *)
Definition attempt_body (w : Services) (query : str) (top_k : Z)
    (threshold : Q) (include_citations : bool) (attempt : Z) : result Outcome :=
  query_embedding ← generate_embedding w attempt query;
  results ← query_vectors w attempt query_embedding top_k;
  match results with
  | [] => Return (no_results attempt)
  | r0 :: rest =>
      let confidence_scores := List.map hit_score results in
      let avg_confidence := avg_or_zero confidence_scores in
      let '(filtered_results, max_confidence) := select threshold r0 rest in
      let context_chunks := List.map context_chunk filtered_results in
      llm_answer ← generate_response w attempt query context_chunks include_citations;
      citations ←
        (if include_citations then _build_citations context_chunks else Return []);
      Return {|
        answer := llm_answer;
        citations := citations;
        confidence_score := max_confidence;
        retrieval_metadata :=
          <["retrieval_count" := NInt (len filtered_results)]>
          (<["total_retrieved" := NInt (len results)]>
          (<["avg_confidence" := NFloat avg_confidence]>
          (<["max_confidence" := NFloat max_confidence]>
          (<["threshold_used" := NFloat threshold]>
          (<["attempt" := NInt (attempt + 1)]> ∅)))))
      |}
  end.

(** What the loop does that a caller can observe besides its result: it
    enters an attempt, or it sleeps for a number of seconds. *)
Inductive event : Type :=
  | Attempt (attempt : Z)
  | Sleep (seconds : Z).

(** [for attempt in attempts: try: body except: ...], then the [raise]
    after the loop.  [log] is what happened before. *)
Fixpoint retry_loop (body : Z -> result Outcome) (max_retries : Z)
    (attempts : list Z) (log : list event) : list event * result Outcome :=
  match attempts with
  | [] => (log, Raise (Exception "Max retries exceeded"))
  | attempt :: attempts' =>
      let log := log ++ [Attempt attempt] in
      match body attempt with
      | Return outcome => (log, Return outcome)
      | Raise e =>
          if attempt =? max_retries - 1 then (log, Raise e)
          else retry_loop body max_retries attempts' (log ++ [Sleep (2 ^ attempt)])
      end
  end.

(** The effective threshold and [top_k] (lines 44 and 45). *)
Definition effective_threshold (self : RetrievalService)
    (confidence_threshold : option Q) : Q :=
  float_or confidence_threshold (Retrieval.confidence_threshold self).

Definition effective_top_k (cfg : Config.Settings) (top_k : option Z) : Z :=
  int_or top_k (Config.retrieval_top_k cfg).

(** [RetrievalService.retrieve_and_answer]; [cfg] is the module-level
    [settings], [None] an omitted argument. *)
Definition retrieve_and_answer (cfg : Config.Settings) (self : RetrievalService)
    (w : Services) (query : str) (top_k : option Z)
    (confidence_threshold : option Q) (include_citations : bool)
  : list event * result Outcome :=
  let threshold := effective_threshold self confidence_threshold in
  let top_k := effective_top_k cfg top_k in
  retry_loop (attempt_body w query top_k threshold include_citations)
    (max_retries self) (seqZ 0 (max_retries self)) [].

End Retrieval.

Import Retrieval.

(** ** Vocabulary of the properties *)

(** [m] is a greatest element of [l]. *)
Definition is_maximum (m : Q) (l : list Q) : Prop :=
  m ∈ l ∧ Forall (fun y => (y <= m)%Q) l.

(** The contract of the vector store: scores arrive in descending order. *)
Fixpoint descending (l : list Q) : bool :=
  match l with
  | [] => true
  | x :: l' =>
      match l' with
      | [] => true
      | y :: _ => Qle_bool y x && descending l'
      end
  end.

(** The text of a hit, as [context_chunks] reads it. *)
Definition hit_text (r : Hit) : value :=
  dict_get (hit_metadata r) "text" (VStr []).

(** The events of [k] failed attempts, each followed by its back-off. *)
Definition backoff_log (k : Z) : list event :=
  i ← seqZ 0 k; [Attempt i; Sleep (2 ^ i)].

Definition attempts_made (log : list event) : list Z :=
  e ← log; match e with Attempt i => [i] | Sleep _ => [] end.

Definition delays (log : list event) : list Z :=
  e ← log; match e with Attempt _ => [] | Sleep d => [d] end.

(** ** Vocabulary of the proofs, and the inputs of the examples *)

(** A store whose embedding call always fails, with the number of the
    attempt as the cause. *)
Definition embedding_down : Services := {|
  generate_embedding := fun attempt _ => Raise (ProviderError attempt);
  query_vectors := fun _ _ _ => Return [];
  generate_response := fun _ _ _ _ => Return (lit "unused")
|}.

(** A store that is down at the first attempt and empty at the second. *)
Definition empty_after_failure : Services := {|
  generate_embedding := fun attempt _ =>
    if attempt =? 0 then Raise (ProviderError 0) else Return [];
  query_vectors := fun _ _ _ => Return [];
  generate_response := fun _ _ _ _ => Return (lit "unused")
|}.

(** The citation built from a chunk whose text is the string [s]. *)
Definition cited (c : ContextChunk) (s : str) (cit : Citation) : Prop :=
  cit_document_id cit = cc_document_id c
  /\ cit_chunk_id cit = cc_chunk_id c
  /\ cit_confidence_score cit = cc_score c
  /\ cit_metadata cit = cc_metadata c
  /\ (len s <= 200 -> cit_text cit = VStr s)
  /\ (201 <= len s -> cit_text cit = VStr (take 200 s ++ lit "...")).

(** A text of exactly 200 characters and one of 201. *)
Definition text_of_length (n : nat) : str := replicate n "x"%char.

Definition hit_with_text (t : str) : Hit := {|
  hit_id := lit "doc_0";
  hit_score := 8 # 10;
  hit_metadata := <["text" := VStr t]> ∅
|}.

(** Collaborators that never fail: the store returns [hits] and the
    generator answers ["ok"]. *)
Definition always (hits : list Hit) : Services := {|
  generate_embedding := fun _ _ => Return [1%Q];
  query_vectors := fun _ _ _ => Return hits;
  generate_response := fun _ _ _ _ => Return (lit "ok")
|}.

(** The outcome of a run that returned. *)
Definition outcome_of (run : list event * result Outcome) : Outcome :=
  match snd run with
  | Return o => o
  | Raise _ => no_results 0
  end.

Definition scored (name : string) (sc : Q) : Hit := {|
  hit_id := lit name;
  hit_score := sc;
  hit_metadata := <["text" := VStr (lit "some text")]> ∅
|}.

(** The hits of the example of the specification, with scores 0.9, 0.4
    and 0.2, and the same store with its two best hits exchanged. *)
Definition hits_sorted : list Hit :=
  [scored "a" (9 # 10); scored "b" (4 # 10); scored "c" (2 # 10)].

Definition hits_unsorted : list Hit :=
  [scored "b" (4 # 10); scored "a" (9 # 10)].

(** [s] is empty or made of whitespace only. *)
Definition is_blank (s : str) : bool := forallb is_space s.

(** The buffer that a closed chunk leaves behind: its overlap text, unless
    that is empty. *)
Definition seed (overlap_text : str) : list str :=
  if truthy overlap_text then [overlap_text] else [].

(** [c'] is the chunk that follows [c]: it starts where [c] ends less the
    overlap, and its text is the overlap followed by at least one sentence. *)
Definition linked (self : DocumentChunker) (c c' : Chunk) : Prop :=
  let overlap_text := _get_overlap_text self (text c) in
  start_index c' = start_index c + len (text c) - len overlap_text
  /\ exists rest : list str,
       rest <> [] /\ text c' = join (lit " ") (seed overlap_text ++ rest).

(** The chunk emitted at position [i] for the caller's metadata [m]. *)
Definition chunk_wf (m : gmap string value) (i : nat) (c : Chunk) : Prop :=
  text c <> []
  /\ end_index c = start_index c + len (text c)
  /\ metadata c = <["chunk_index" := VInt (Z.of_nat i)]> m
  /\ chunk_id c
     = format (dict_get m "document_id" (VStr (lit "doc")))
         ++ lit "_" ++ str_of_int (Z.of_nat i).

(** What holds of the local variables between two iterations. *)
Record loop_inv (self : DocumentChunker) (m : gmap string value) (st : locals)
  : Prop := {
  inv_id : next_id st = len (chunks st);
  inv_wf : forall i c, chunks st !! i = Some c -> chunk_wf m i c;
  inv_link : forall i c c',
    chunks st !! i = Some c -> chunks st !! S i = Some c' -> linked self c c';
  inv_buffer : Forall (fun s => s <> []) (current_chunk st);
  inv_last : forall c, last (chunks st) = Some c ->
    start st
    = start_index c + len (text c) - len (_get_overlap_text self (text c))
    /\ exists rest : list str,
         rest <> []
         /\ current_chunk st = seed (_get_overlap_text self (text c)) ++ rest
}.

(** The next chunk starts inside a word: the character before the overlap
    and the first character of the overlap are both no whitespace. *)
Definition mid_word (pre tail : str) : bool :=
  match last pre, head tail with
  | Some a, Some b => negb (is_space a) && negb (is_space b)
  | _, _ => false
  end.

(** What is returned for a result, and its [i]-th chunk, in the examples. *)
Definition returned (r : result (list Chunk)) : list Chunk :=
  match r with
  | Return l => l
  | Raise _ => []
  end.

Definition nth_chunk (l : list Chunk) (i : nat) : Chunk :=
  List.nth i l
    {| chunk_id := []; text := []; start_index := 0; end_index := 0;
       metadata := ∅ |}.

(** A chunker with [chunk_size = 10] and [chunk_overlap = 3], on a text of
    two sentences: the first chunk is closed after ["Hello world."]. *)
Definition small_chunker : DocumentChunker :=
  {| chunk_size := 10; chunk_overlap := 3 |}.

Definition two_sentences : str := lit "Hello world. Bye.".

(** A chunker with [chunk_size = 20] and [chunk_overlap = 8], on a text of
    three sentences whose second chunk is shorter than the overlap. *)
Definition medium_chunker : DocumentChunker :=
  {| chunk_size := 20; chunk_overlap := 8 |}.

Definition three_sentences : str :=
  lit "Aaaaaaaaaaaaaaa b. Cc. Ddddddddddddddd.".

(** ** Further vocabulary: the retriever *)

(** The seconds that a run has slept. *)
Definition total_delay (log : list event) : Z := foldr Z.add 0 (delays log).

(** The score of a citation reaches the threshold. *)
Definition citation_meets (threshold : Q) (cit : Citation) : bool :=
  Qle_bool threshold (cit_confidence_score cit).

(** A hit whose text is stored as a number, and collaborators that fail at
    the attempts before [k] and answer from then on. *)
Definition numbered (name : string) (sc : Q) : Hit := {|
  hit_id := lit name;
  hit_score := sc;
  hit_metadata := <["text" := VInt 42]> ∅
|}.

Definition up_from (k : Z) (hits : list Hit) : Services := {|
  generate_embedding := fun attempt _ =>
    if attempt <? k then Raise (ProviderError attempt) else Return [1%Q];
  query_vectors := fun _ _ _ => Return hits;
  generate_response := fun _ _ _ _ => Return (lit "ok")
|}.

(** ** Further vocabulary: the chunker *)

(** The texts of the chunks that hold the groups of sentences [parts], one
    chunk per group, when the buffer holds [pre] before the first group:
    each chunk is the buffer and its group joined by spaces, and it leaves
    its overlap text in the buffer of the next chunk. *)
Fixpoint texts_from (self : DocumentChunker) (pre : list str)
    (parts : list (list str)) : list str :=
  match parts with
  | [] => []
  | part :: parts' =>
      let chunk_text := join (lit " ") (pre ++ part) in
      chunk_text
        :: texts_from self (seed (_get_overlap_text self chunk_text)) parts'
  end.

(** The buffer that the chunks of texts [texts] leave behind. *)
Definition next_seed (self : DocumentChunker) (pre : list str)
    (texts : list str) : list str :=
  match last texts with
  | None => pre
  | Some chunk_text => seed (_get_overlap_text self chunk_text)
  end.

(** What holds of the local variables after the sentences [done]: the
    closed chunks hold the groups [parts] and the buffer ends with the
    sentences [cur]. *)
Record cover_inv (self : DocumentChunker) (st : locals) (done : list str)
    (parts : list (list str)) (cur : list str) : Prop := {
  cov_done : done = concat parts ++ cur;
  cov_parts : Forall (fun p => p <> []) parts;
  cov_texts : List.map text (chunks st) = texts_from self [] parts;
  cov_buffer :
    current_chunk st = next_seed self [] (List.map text (chunks st)) ++ cur;
  cov_cur : cur = [] -> current_chunk st = [];
  cov_start : chunks st = [] -> start st = 0;
  cov_first : forall c, head (chunks st) = Some c -> start_index c = 0;
  cov_length : 0 <= current_length st;
  cov_joined :
    current_chunk st <> [] ->
    len (join (lit " ") (current_chunk st)) <= current_length st;
  cov_size :
    Forall2
      (fun c part =>
         len (text c) <= chunk_size self + 1 \/ length part = 1%nat)
      (chunks st) parts;
  cov_cur_size :
    cur <> [] ->
    len (join (lit " ") (current_chunk st)) <= chunk_size self + 1
    \/ length cur = 1%nat
}.

(** What holds of the local variables while no chunk has been closed. *)
Record open_inv (st : locals) (done : list str) : Prop := {
  open_chunks : chunks st = [];
  open_buffer : current_chunk st = done;
  open_start : start st = 0;
  open_id : next_id st = 0;
  open_length :
    current_length st
    = match done with
      | [] => 0
      | _ :: _ => len (join (lit " ") done) + 1
      end
}.

(** A sentence has no whitespace at either end. *)
Definition stripped (s : str) : Prop :=
  s <> []
  /\ (forall c, head s = Some c -> is_space c = false)
  /\ (forall c, last s = Some c -> is_space c = false).

(** A chunker with no overlap configured. *)
Definition no_overlap_chunker : DocumentChunker :=
  {| chunk_size := 10; chunk_overlap := 0 |}.

(** ** The services around the chunker and the retriever *)

(** What these services raise: the built-in exceptions that they raise by
    themselves, and whatever the chunker or a collaborator raises. *)
Inductive failure : Type :=
  | ValueError (msg : str)
  | IndexError
  | Raised (e : exn).

Inductive attempt (A : Type) : Type :=
  | Done (a : A)
  | Failed (f : failure).

Arguments Done {A} a.
Arguments Failed {A} f.

#[global] Instance attempt_bind : MBind attempt := fun A B k c =>
  match c with
  | Done a => k a
  | Failed f => Failed f
  end.

(** The result of the chunker, seen from a service. *)
Definition lift {A : Type} (r : result A) : attempt A :=
  match r with
  | Return a => Done a
  | Raise e => Failed (Raised e)
  end.

(** A [for] loop of a service. *)
Fixpoint for_all {A S : Type} (body : S -> A -> attempt S) (st : S)
    (l : list A) : attempt S :=
  match l with
  | [] => Done st
  | x :: l' => st' ← body st x; for_all body st' l'
  end.

(** [range(0, stop, step)] *)
Definition range_step (stop step : Z) : attempt (list Z) :=
  if step =? 0
  then Failed (ValueError (lit "range() arg 3 must not be zero"))
  else
    let count :=
      if 0 <? step then (stop + step - 1) / step
      else (- stop - step - 1) / (- step) in
    Done (List.map (fun k => Z.of_nat k * step) (seq 0 (Z.to_nat count))).

(** [s[i:j]] *)
Definition slice {A : Type} (s : list A) (i j : Z) : list A :=
  let start := slice_index (len s) i in
  let stop := slice_index (len s) j in
  take (Z.to_nat (stop - start)) (drop (Z.to_nat start) s).

(** [list(zip(a, b, c))] *)
Fixpoint zip3 {A B C : Type} (a : list A) (b : list B) (c : list C)
  : list (A * B * C) :=
  match a, b, c with
  | x :: a', y :: b', z :: c' => (x, y, z) :: zip3 a' b' c'
  | _, _, _ => []
  end.

(** [l[i]] for [0 <= i]. *)
Definition item {A : Type} (l : list A) (i : nat) : attempt A :=
  match l !! i with
  | Some x => Done x
  | None => Failed IndexError
  end.

(** *** [app/services/embedding_service.py] *)

Module Embedding.

Definition vector : Type := list Q.

(** The client of the service.  With the provider ["openai"] it is asked
    for the vectors of one batch at a time ([embeddings.create]); the
    first argument is the offset of the batch, as the answer to a batch may
    depend on when it is asked.  Any other provider encodes all the texts in
    one call ([encode(...).tolist()]). *)
Inductive client : Type :=
  | OpenAI (create : Z -> list str -> attempt (list vector))
  | SentenceTransformer (encode : list str -> Z -> attempt (list vector)).

Record EmbeddingService : Type := {
  _client : client
}.

(** [EmbeddingService.generate_embeddings] *)
Definition generate_embeddings (self : EmbeddingService) (texts : list str)
    (batch_size : Z) : attempt (list vector) :=
  if negb (truthy texts) then Done []
  else
    match _client self with
    | OpenAI create =>
        offsets ← range_step (len texts) batch_size;
        for_all
          (fun embeddings i =>
             let batch := slice texts i (i + batch_size) in
             batch_embeddings ← create i batch;
             Done (embeddings ++ batch_embeddings))
          [] offsets
    | SentenceTransformer encode => encode texts batch_size
    end.

(** [EmbeddingService.generate_embedding]; [batch_size] has its default. *)
Definition generate_embedding (self : EmbeddingService) (text : str)
  : attempt vector :=
  embeddings ← generate_embeddings self [text] 100;
  item embeddings 0.

(** The batches that [generate_embeddings] sends for the offsets
    [offsets]. *)
Definition batches (texts : list str) (batch_size : Z) (offsets : list Z)
  : list (list str) :=
  List.map (fun i => slice texts i (i + batch_size)) offsets.

End Embedding.

(** *** [app/services/vector_db_service.py] *)

Module VectorDB.

(** A match of a Pinecone query. *)
Record Match : Type := {
  match_id : str;
  match_score : Q;
  match_metadata : gmap string value
}.

(** The answer of a ChromaDB query for one query vector: the first (and
    only) rows of [results["ids"]], [results["distances"]] and
    [results["metadatas"]]. *)
Record ChromaResult : Type := {
  ids0 : list str;
  distances0 : list Q;
  metadatas0 : list (gmap string value)
}.

(** The client behind the service, for the two supported values of
    [db_type]. *)
Inductive client : Type :=
  | Pinecone
      (upsert : list (str * Embedding.vector * gmap string value) -> attempt unit)
      (query : Embedding.vector -> Z -> option (gmap string value)
               -> attempt (list Match))
  | ChromaDB
      (upsert : list Embedding.vector -> list str -> list (gmap string value)
                -> attempt unit)
      (query : Embedding.vector -> Z -> option (gmap string value)
               -> attempt ChromaResult).

Record VectorDBService : Type := {
  _client : client
}.

(** [VectorDBService.upsert_vectors] *)
Definition upsert_vectors (self : VectorDBService)
    (vectors : list Embedding.vector) (ids : list str)
    (metadata : list (gmap string value)) : attempt bool :=
  _ ←
    match _client self with
    | Pinecone upsert _ => upsert (zip3 ids vectors metadata)
    | ChromaDB upsert _ => upsert vectors ids metadata
    end;
  Done true.

(** The hits of a ChromaDB answer: a similarity is one minus a distance. *)
Definition chroma_hits (results : ChromaResult) : attempt (list Hit) :=
  for_all
    (fun hits i =>
       id ← item (ids0 results) i;
       distance ← item (distances0 results) i;
       md ← item (metadatas0 results) i;
       Done (hits ++ [{|
         hit_id := id;
         hit_score := (1 - distance)%Q;
         hit_metadata := md
       |}]))
    [] (seq 0 (length (ids0 results))).

(** [VectorDBService.query_vectors] *)
Definition query_vectors (self : VectorDBService)
    (query_vector : Embedding.vector) (top_k : Z)
    (filter_dict : option (gmap string value)) : attempt (list Hit) :=
  match _client self with
  | Pinecone _ query =>
      matches ← query query_vector top_k filter_dict;
      Done (List.map
              (fun mt => {|
                 hit_id := match_id mt;
                 hit_score := match_score mt;
                 hit_metadata := match_metadata mt
               |})
              matches)
  | ChromaDB _ query =>
      results ← query query_vector top_k filter_dict;
      chroma_hits results
  end.

End VectorDB.

(** *** [app/services/document_service.py] *)

Module Documents.

(** What [DocumentIngester.ingest_file] returns. *)
Record DocData : Type := {
  document_id : str;
  text : str;
  filename : str;
  file_type : str;
  metadata : gmap string value
}.

(** An entry of [_documents]. *)
Record DocumentRecord : Type := {
  rec_document_id : str;
  rec_filename : str;
  rec_chunks_count : Z;
  rec_status : str;
  rec_metadata : gmap string value
}.

(** What [ingest_document] returns. *)
Record IngestResult : Type := {
  res_document_id : str;
  res_status : str;
  res_chunks_created : Z;
  res_message : str
}.

(** The service, but for its dictionary [_documents], which is passed and
    returned.  [ingest_file] reads a file and draws a fresh identifier: it is
    a collaborator. *)
Record DocumentService : Type := {
  ingest_file :
    str -> str -> option (gmap string value) -> attempt DocData;
  chunker : DocumentChunker;
  embedding_service : Embedding.EmbeddingService;
  vector_db_service : VectorDB.VectorDBService
}.

(** The metadata given to the chunker (lines 54 to 58): the entries of the
    document's metadata come last and win. *)
Definition chunk_metadata (doc : DocData) (filename : str)
  : gmap string value :=
  metadata doc
    ∪ (<["document_id" := VStr (document_id doc)]>
       (<["filename" := VStr filename]> ∅)).

(** The metadata stored with the vector of a chunk (lines 71 to 77): the
    entries of the chunk's metadata come last and win. *)
Definition vector_metadata (document_id filename : str) (chunk : Chunk)
  : gmap string value :=
  Chunking.metadata chunk
    ∪ (<["text" := VStr (Chunking.text chunk)]>
       (<["document_id" := VStr document_id]>
       (<["chunk_id" := VStr (chunk_id chunk)]>
       (<["filename" := VStr filename]> ∅)))).

(** [DocumentService.ingest_document], together with the new
    [_documents]. *)
Definition ingest_document (self : DocumentService)
    (_documents : gmap str DocumentRecord) (file_path filename : str)
    (metadata : option (gmap string value))
  : gmap str DocumentRecord * attempt IngestResult :=
  let before_store :=
    doc_data ← ingest_file self file_path filename metadata;
    let document_id := Documents.document_id doc_data in
    chunks ←
      lift (chunk_text (chunker self) (text doc_data)
              (Some (chunk_metadata doc_data filename)));
    if negb (truthy chunks)
    then Failed (ValueError (lit "No chunks created from document"))
    else
      let chunk_texts := List.map Chunking.text chunks in
      embeddings ←
        Embedding.generate_embeddings (embedding_service self) chunk_texts 100;
      let vector_ids := List.map chunk_id chunks in
      let vector_metadata :=
        List.map (vector_metadata document_id filename) chunks in
      _ ←
        VectorDB.upsert_vectors (vector_db_service self) embeddings vector_ids
          vector_metadata;
      Done (doc_data, chunks) in
  match before_store with
  | Failed f => (_documents, Failed f)
  | Done (doc_data, chunks) =>
      let document_id := Documents.document_id doc_data in
      (<[document_id := {|
          rec_document_id := document_id;
          rec_filename := filename;
          rec_chunks_count := len chunks;
          rec_status := lit "processed";
          rec_metadata := Documents.metadata doc_data
        |}]> _documents,
       Done {|
         res_document_id := document_id;
         res_status := lit "success";
         res_chunks_created := len chunks;
         res_message :=
           lit "Document ingested successfully with "
             ++ str_of_int (len chunks) ++ lit " chunks"
       |})
  end.

(** [DocumentService.get_document_status] *)
Definition get_document_status (_documents : gmap str DocumentRecord)
    (document_id : str) : attempt DocumentRecord :=
  match _documents !! document_id with
  | None =>
      Failed (ValueError (lit "Document " ++ document_id ++ lit " not found"))
  | Some record => Done record
  end.

End Documents.

(** ** Further vocabulary: the services *)

(** Distances in ascending order, as a nearest-neighbour query returns
    them. *)
Fixpoint ascending (l : list Q) : bool :=
  match l with
  | [] => true
  | x :: l' =>
      match l' with
      | [] => true
      | y :: _ => Qle_bool x y && ascending l'
      end
  end.

(** The hit built from the entries at one index of a ChromaDB answer. *)
Definition chroma_hit (entry : str * Q * gmap string value) : Hit :=
  let '(id, distance, md) := entry in
  {| hit_id := id; hit_score := (1 - distance)%Q; hit_metadata := md |}.

(** A ChromaDB answer with two neighbours, and one that lacks a distance. *)
Definition two_neighbours : VectorDB.ChromaResult := {|
  VectorDB.ids0 := [lit "d_0"; lit "d_1"];
  VectorDB.distances0 := [1 # 10; 4 # 10];
  VectorDB.metadatas0 := [∅; ∅]
|}.

Definition short_distances : VectorDB.ChromaResult := {|
  VectorDB.ids0 := [lit "d_0"; lit "d_1"];
  VectorDB.distances0 := [1 # 10];
  VectorDB.metadatas0 := [∅; ∅]
|}.

(** A client that answers every batch with one vector per text, the vector
    of a text holding its length; and one that fails from the offset 2 on. *)
Definition length_vector (s : str) : Embedding.vector := [inject_Z (len s)].

Definition openai_lengths : Embedding.EmbeddingService := {|
  Embedding._client :=
    Embedding.OpenAI (fun _ batch => Done (List.map length_vector batch))
|}.

Definition openai_fails_late : Embedding.EmbeddingService := {|
  Embedding._client :=
    Embedding.OpenAI
      (fun i batch =>
         if i <? 2 then Done (List.map length_vector batch)
         else Failed (Raised (ProviderError i)))
|}.

Definition five_texts : list str :=
  [lit "a"; lit "bb"; lit "ccc"; lit "dddd"; lit "eeeee"].

(** A document service over collaborators that never fail: the file holds
    [text], the identifier drawn is ["id-1"], the embedding client answers
    with [vectors] whatever it is asked, and the Pinecone client accepts
    every upsert. *)
Definition pinecone_accepts : VectorDB.VectorDBService := {|
  VectorDB._client :=
    VectorDB.Pinecone (fun _ => Done tt) (fun _ _ _ => Done [])
|}.

Definition read_file (text : str) (md : option (gmap string value))
  : Documents.DocData := {|
  Documents.document_id := lit "id-1";
  Documents.text := text;
  Documents.filename := lit "notes.txt";
  Documents.file_type := lit ".txt";
  Documents.metadata :=
    <["file_size" := VInt (len text)]>
      (match md with Some m => m | None => ∅ end)
|}.

Definition service_reading (text : str)
    (embedding : Embedding.EmbeddingService) : Documents.DocumentService := {|
  Documents.ingest_file := fun _ _ md => Done (read_file text md);
  Documents.chunker := medium_chunker;
  Documents.embedding_service := embedding;
  Documents.vector_db_service := pinecone_accepts
|}.

Definition one_vector : Embedding.EmbeddingService := {|
  Embedding._client :=
    Embedding.SentenceTransformer (fun _ _ => Done [[1%Q]])
|}.

(** The hit that a query returns for the vector stored with metadata
    [md]. *)
Definition stored_hit (id : str) (sc : Q) (md : gmap string value) : Hit :=
  {| hit_id := id; hit_score := sc; hit_metadata := md |}.

(** ** The model on small inputs *)

Example split_two_spaces :
  List.map string_of_list_ascii
    (re_split_sentences (lit " Hello world.  Bye! No end.  "))
  = [" Hello world."; "Bye!"; "No end."; ""]%string.
Proof. reflexivity. Qed.

Example split_needs_punctuation :
  List.map string_of_list_ascii (_split_sentences (lit "a.b c  d? e"))
  = ["a.b c  d?"; "e"]%string.
Proof. reflexivity. Qed.

Example overlap_of_short_text :
  _get_overlap_text medium_chunker (lit "b. Cc.") = lit "b. Cc.".
Proof. reflexivity. Qed.

Example overlap_after_first_space :
  _get_overlap_text medium_chunker (lit "Aaaaaaaaaaaaaaa b.") = lit "b.".
Proof. reflexivity. Qed.

Example chunks_of_three_sentences :
  List.map view (returned (chunk_text medium_chunker three_sentences (Some ∅)))
  = [("Aaaaaaaaaaaaaaa b.", 0, 18); ("b. Cc.", 16, 22);
     ("b. Cc. Ddddddddddddddd.", 16, 39)]%string.
Proof. vm_compute. reflexivity. Qed.

Example chunk_ids_of_three_sentences :
  List.map (fun c => string_of_list_ascii (chunk_id c))
    (returned (chunk_text medium_chunker three_sentences
                 (Some (<["document_id" := VStr (lit "d7")]> ∅))))
  = ["d7_0"; "d7_1"; "d7_2"]%string.
Proof. vm_compute. reflexivity. Qed.

(** ** The retry loop *)

Section retry.

Variable body : Z -> result Outcome.
Variable n : Z.

Lemma retry_loop_failures (j : nat) : forall (a m : Z) (log : list event),
  0 <= a -> a + Z.of_nat j < n -> Z.of_nat j <= m ->
  (forall i, a <= i < a + Z.of_nat j -> exists e, body i = Raise e) ->
  retry_loop body n (seqZ a m) log
  = retry_loop body n (seqZ (a + Z.of_nat j) (m - Z.of_nat j))
      (log ++ (i ← seqZ a (Z.of_nat j); [Attempt i; Sleep (2 ^ i)])).
Proof.
  induction j as [|j IH]; intros a m log Ha Hn Hm Hfail.
  - simpl. rewrite Z.add_0_r, Z.sub_0_r, app_nil_r. reflexivity.
  - rewrite (seqZ_cons a m) by lia.
    rewrite (seqZ_cons a (Z.of_nat (S j))) by lia.
    destruct (Hfail a) as [e He]; [lia|].
    simpl. rewrite He.
    destruct (Z.eqb_spec a (n - 1)) as [Heq|_]; [lia|].
    rewrite (IH (Z.succ a) (Z.pred m)); try lia.
    + rewrite <- !app_assoc. simpl.
      replace (Z.pred (Z.of_nat (S j))) with (Z.of_nat j) by lia.
      replace (Z.succ a + Z.of_nat j) with (a + Z.of_nat (S j)) by lia.
      replace (Z.pred m - Z.of_nat j) with (m - Z.of_nat (S j)) by lia.
      reflexivity.
    + intros i Hi. apply Hfail. lia.
Qed.

Lemma retry_loop_success (k : Z) (o : Outcome) :
  0 <= k < n ->
  (forall i, 0 <= i < k -> exists e, body i = Raise e) ->
  body k = Return o ->
  retry_loop body n (seqZ 0 n) [] = (backoff_log k ++ [Attempt k], Return o).
Proof.
  intros Hk Hfail Hok.
  rewrite (retry_loop_failures (Z.to_nat k) 0 n []); try lia.
  - rewrite Z2Nat.id by lia. rewrite Z.add_0_l.
    rewrite (seqZ_cons k (n - k)) by lia.
    cbn [retry_loop app]. rewrite Hok. reflexivity.
  - intros i Hi. apply Hfail. lia.
Qed.

Lemma retry_loop_exhausted (cause : Z -> exn) :
  1 <= n ->
  (forall i, 0 <= i < n -> body i = Raise (cause i)) ->
  retry_loop body n (seqZ 0 n) []
  = (backoff_log (n - 1) ++ [Attempt (n - 1)], Raise (cause (n - 1))).
Proof.
  intros Hn Hfail.
  rewrite (retry_loop_failures (Z.to_nat (n - 1)) 0 n []); try lia.
  - rewrite Z2Nat.id by lia. rewrite Z.add_0_l.
    rewrite (seqZ_cons (n - 1) (n - (n - 1))) by lia.
    cbn [retry_loop app]. rewrite Hfail by lia.
    rewrite Z.eqb_refl. reflexivity.
  - intros i Hi. exists (cause i). apply Hfail. lia.
Qed.

End retry.

(** With no attempt to make, the loop falls through to the last [raise]. *)
Lemma retry_no_budget (cfg : Config.Settings) (self : RetrievalService)
    (w : Services) (query : str) (top_k : option Z) (threshold : option Q)
    (inc : bool) :
  max_retries self <= 0 ->
  retrieve_and_answer cfg self w query top_k threshold inc
  = ([], Raise (Exception "Max retries exceeded")).
Proof.
  intros Hn. unfold retrieve_and_answer, seqZ.
  replace (Z.to_nat (max_retries self)) with 0%nat by lia. reflexivity.
Qed.

Lemma attempts_made_app (l1 l2 : list event) :
  attempts_made (l1 ++ l2) = attempts_made l1 ++ attempts_made l2.
Proof. unfold attempts_made. apply bind_app. Qed.

Lemma delays_app (l1 l2 : list event) :
  delays (l1 ++ l2) = delays l1 ++ delays l2.
Proof. unfold delays. apply bind_app. Qed.

Lemma backoff_log_succ (k : Z) :
  0 <= k -> backoff_log (Z.succ k) = backoff_log k ++ [Attempt k; Sleep (2 ^ k)].
Proof.
  intros Hk. unfold backoff_log.
  replace (Z.succ k) with (k + 1) by lia.
  rewrite seqZ_app by lia. rewrite bind_app. f_equal.
Qed.

Lemma attempts_made_backoff (k : Z) :
  0 <= k -> attempts_made (backoff_log k) = seqZ 0 k.
Proof.
  revert k. apply natlike_ind; [reflexivity|].
  intros k Hk IH. rewrite backoff_log_succ, attempts_made_app, IH by lia.
  replace (Z.succ k) with (k + 1) by lia.
  rewrite seqZ_app by lia. reflexivity.
Qed.

Lemma delays_backoff (k : Z) :
  0 <= k -> delays (backoff_log k) = (fun i => 2 ^ i) <$> seqZ 0 k.
Proof.
  revert k. apply natlike_ind; [reflexivity|].
  intros k Hk IH. rewrite backoff_log_succ, delays_app, IH by lia.
  replace (Z.succ k) with (k + 1) by lia.
  rewrite seqZ_app, fmap_app by lia. reflexivity.
Qed.

(** C3.  With [max_retries = n >= 1]: when every attempt raises, the loop
    makes the attempts [0 .. n-1], sleeps [2^i] seconds after each attempt
    [i] but the last (the log ends with the last attempt), and raises what
    the last attempt raised; and an attempt that returns ends the loop with
    its outcome, no later attempt being made. *)
Theorem retry_exhaustion_and_short_circuit
    (cfg : Config.Settings) (self : RetrievalService) (w : Services)
    (query : str) (top_k : option Z) (threshold : option Q) (inc : bool) :
  let n := max_retries self in
  let body :=
    attempt_body w query (effective_top_k cfg top_k)
      (effective_threshold self threshold) inc in
  let run := retrieve_and_answer cfg self w query top_k threshold inc in
  1 <= n ->
  (forall cause : Z -> exn,
     (forall i, 0 <= i < n -> body i = Raise (cause i)) ->
     run = (backoff_log (n - 1) ++ [Attempt (n - 1)], Raise (cause (n - 1)))
     /\ attempts_made (fst run) = seqZ 0 n
     /\ delays (fst run) = (fun i => 2 ^ i) <$> seqZ 0 (n - 1)
     /\ last (fst run) = Some (Attempt (n - 1)))
  /\ (forall (k : Z) (o : Outcome),
       0 <= k < n ->
       (forall i, 0 <= i < k -> exists e, body i = Raise e) ->
       body k = Return o ->
       run = (backoff_log k ++ [Attempt k], Return o)
       /\ attempts_made (fst run) = seqZ 0 (k + 1)).
Proof.
  intros n body run Hn. split.
  - intros cause Hfail.
    assert (Hrun : run = (backoff_log (n - 1) ++ [Attempt (n - 1)],
                          Raise (cause (n - 1)))).
    { apply retry_loop_exhausted; assumption. }
    rewrite Hrun. cbn [fst]. split; [reflexivity|].
    rewrite attempts_made_app, delays_app, attempts_made_backoff,
      delays_backoff, last_snoc by lia.
    repeat split.
    + replace (seqZ 0 n) with (seqZ 0 ((n - 1) + 1)) by (f_equal; lia).
      rewrite seqZ_app by lia. reflexivity.
    + cbn. rewrite app_nil_r. reflexivity.
  - intros k o Hk Hfail Hok.
    assert (Hrun : run = (backoff_log k ++ [Attempt k], Return o)).
    { apply retry_loop_success; assumption. }
    rewrite Hrun. cbn [fst]. split; [reflexivity|].
    rewrite attempts_made_app, attempts_made_backoff by lia.
    rewrite seqZ_app by lia. reflexivity.
Qed.

Lemma retry_exhaustion_three_attempts :
  retrieve_and_answer Config.settings (init Config.settings) embedding_down
    (lit "q") None None true
  = ([Attempt 0; Sleep 1; Attempt 1; Sleep 2; Attempt 2], Raise (ProviderError 2)).
Proof.
  pose proof (retry_exhaustion_and_short_circuit Config.settings
    (init Config.settings) embedding_down (lit "q") None None true) as H.
  cbv zeta in H. destruct H as [H _]; [vm_compute; discriminate|].
  destruct (H ProviderError) as [H1 _]; [intros i _; reflexivity|].
  exact H1.
Defined.

(** C4.  When the store returns no hit at attempt [k] (the earlier attempts
    having raised), the call returns at once and without error: the answer is
    the sentence of line 62, letter for letter, with no citation, confidence
    [0.0], and a metadata dictionary that holds [retrieval_count = 0] and
    [attempt = k + 1] and nothing else; attempt [k] is the last event. *)
Theorem zero_hits_is_terminal
    (cfg : Config.Settings) (self : RetrievalService) (w : Services)
    (query : str) (top_k : option Z) (threshold : option Q) (inc : bool)
    (k : Z) (emb : list Q) :
  let body :=
    attempt_body w query (effective_top_k cfg top_k)
      (effective_threshold self threshold) inc in
  0 <= k < max_retries self ->
  (forall i, 0 <= i < k -> exists e, body i = Raise e) ->
  generate_embedding w k query = Return emb ->
  query_vectors w k emb (effective_top_k cfg top_k) = Return [] ->
  exists o : Outcome,
    retrieve_and_answer cfg self w query top_k threshold inc
    = (backoff_log k ++ [Attempt k], Return o)
    /\ answer o
       = lit "I couldn't find any relevant information to answer your question."
    /\ citations o = []
    /\ confidence_score o = 0%Q
    /\ retrieval_metadata o !! "retrieval_count" = Some (NInt 0)
    /\ retrieval_metadata o !! "attempt" = Some (NInt (k + 1))
    /\ dom (retrieval_metadata o) = {["retrieval_count"; "attempt"]}.
Proof.
  intros body Hk Hfail Hemb Hquery.
  exists (no_results k). split.
  - apply retry_loop_success; try assumption.
    unfold attempt_body. rewrite Hemb. cbn. rewrite Hquery. reflexivity.
  - repeat split.
Qed.

Lemma zero_hits_second_attempt :
  exists o : Outcome,
    retrieve_and_answer Config.settings (init Config.settings)
      empty_after_failure (lit "q") None None true
    = ([Attempt 0; Sleep 1; Attempt 1], Return o)
    /\ answer o
       = lit "I couldn't find any relevant information to answer your question."
    /\ citations o = [] /\ confidence_score o = 0%Q
    /\ retrieval_metadata o !! "retrieval_count" = Some (NInt 0)
    /\ retrieval_metadata o !! "attempt" = Some (NInt 2)
    /\ dom (retrieval_metadata o) = {["retrieval_count"; "attempt"]}.
Proof.
  destruct (zero_hits_is_terminal Config.settings (init Config.settings)
    empty_after_failure (lit "q") None None true 1 [])
    as (o & Hrun & Hans & Hc & Hs & Hn & Ha & Hd).
  - vm_compute. split; [discriminate | reflexivity].
  - intros i Hi. assert (i = 0) as -> by lia. eexists. reflexivity.
  - reflexivity.
  - reflexivity.
  - exists o. repeat split; assumption.
Defined.

(** ** Confidence filter and fallback *)

Lemma fold_max_spec (xs : list Q) : forall best : Q,
  let m := fold_left (fun b y => if Qle_bool y b then b else y) xs best in
  (m = best \/ m ∈ xs) /\ (best <= m)%Q /\ Forall (fun y => (y <= m)%Q) xs.
Proof.
  induction xs as [|y xs IH]; intros best; cbn.
  - split; [left; reflexivity|]. split; [apply Qle_refl | constructor].
  - destruct (IH (if Qle_bool y best then best else y)) as (Hin & Hle & Hall).
    destruct (Qle_bool y best) eqn:Hy.
    + apply Qle_bool_iff in Hy. split; [|split].
      * destruct Hin as [->|Hin]; [left; reflexivity | right; by constructor].
      * exact Hle.
      * constructor; [eapply Qle_trans; eassumption | exact Hall].
    + assert (best <= y)%Q as Hby.
      { apply Qlt_le_weak, Qnot_le_lt. intros Hc.
        apply Qle_bool_iff in Hc. congruence. }
      split; [|split].
      * right. destruct Hin as [->|Hin]; [by constructor | by constructor].
      * eapply Qle_trans; eassumption.
      * constructor; [exact Hle | exact Hall].
Qed.

Lemma max_or_zero_is_maximum (x : Q) (xs : list Q) :
  is_maximum (max_or_zero (x :: xs)) (x :: xs).
Proof.
  destruct (fold_max_spec xs x) as (Hin & Hle & Hall).
  split.
  - destruct Hin as [Heq|Hin]; cbn; [rewrite Heq; by constructor | by constructor].
  - constructor; assumption.
Qed.

Lemma descending_head (xs : list Q) : forall x : Q,
  descending (x :: xs) = true -> Forall (fun y => (y <= x)%Q) (x :: xs).
Proof.
  induction xs as [|y xs IH]; intros x Hd.
  - constructor; [apply Qle_refl | constructor].
  - cbn in Hd. apply andb_true_iff in Hd as [Hyx Hd].
    apply Qle_bool_iff in Hyx.
    constructor; [apply Qle_refl|].
    eapply Forall_impl; [apply IH, Hd|].
    intros z Hz. cbn in Hz. eapply Qle_trans; eassumption.
Qed.

Lemma filter_none {A : Type} (f : A -> bool) (l : list A) :
  Forall (fun x => f x = false) l -> List.filter f l = [].
Proof.
  induction 1 as [|x l Hx _ IH]; [reflexivity|].
  cbn. rewrite Hx. exact IH.
Qed.

Lemma filter_some {A : Type} (f : A -> bool) (l : list A) :
  Exists (fun x => f x = true) l -> truthy (List.filter f l) = true.
Proof.
  induction 1 as [x l Hx|x l _ IH]; cbn.
  - rewrite Hx. reflexivity.
  - destruct (f x); [reflexivity | exact IH].
Qed.

Lemma slice_to_one {A : Type} (x : A) (l : list A) : slice_to (x :: l) 1 = [x].
Proof.
  unfold slice_to, slice_index, len. cbn [length].
  change (1 <? 0) with false. cbv iota.
  rewrite Z.min_l by lia. reflexivity.
Qed.

Lemma select_fallback (thr : Q) (r0 : Hit) (rest : list Hit) :
  Forall (fun r => meets thr r = false) (r0 :: rest) ->
  select thr r0 rest = ([r0], hit_score r0).
Proof.
  intros Hnone. unfold select. rewrite (filter_none _ _ Hnone).
  cbn [truthy negb]. rewrite slice_to_one. reflexivity.
Qed.

Lemma select_filtered (thr : Q) (r0 : Hit) (rest : list Hit) :
  Exists (fun r => meets thr r = true) (r0 :: rest) ->
  select thr r0 rest
  = (List.filter (meets thr) (r0 :: rest),
     max_or_zero (List.map hit_score (r0 :: rest))).
Proof.
  intros Hsome. unfold select. rewrite (filter_some _ _ Hsome). reflexivity.
Qed.

Lemma meets_dichotomy (thr : Q) (l : list Hit) :
  Exists (fun r => meets thr r = true) l
  \/ Forall (fun r => meets thr r = false) l.
Proof.
  induction l as [|r l [IH|IH]].
  - right. constructor.
  - left. by constructor 2.
  - destruct (meets thr r) eqn:Hr; [left; by constructor | right; by constructor].
Qed.

(** The confidence that [select] reports. *)
Lemma select_confidence (thr : Q) (r0 : Hit) (rest : list Hit) :
  let scores := List.map hit_score (r0 :: rest) in
  let reported := snd (select thr r0 rest) in
  (Exists (fun r => meets thr r = true) (r0 :: rest) -> is_maximum reported scores)
  /\ (Forall (fun r => meets thr r = false) (r0 :: rest) -> reported = hit_score r0)
  /\ (descending scores = true -> is_maximum reported scores).
Proof.
  intros scores reported. split; [|split].
  - intros Hsome. subst reported. rewrite select_filtered by assumption.
    apply max_or_zero_is_maximum.
  - intros Hnone. subst reported. rewrite select_fallback by assumption.
    reflexivity.
  - intros Hdesc. destruct (meets_dichotomy thr (r0 :: rest)) as [Hsome|Hnone].
    + subst reported. rewrite select_filtered by assumption.
      apply max_or_zero_is_maximum.
    + subst reported. rewrite select_fallback by assumption.
      split; [by constructor | apply descending_head, Hdesc].
Qed.

(** ** Citations *)

Lemma slice_to_take {A : Type} (s : list A) (j : Z) :
  0 <= j <= len s -> slice_to s j = take (Z.to_nat j) s.
Proof.
  intros Hj. unfold slice_to, slice_index.
  destruct (Z.ltb_spec j 0); [lia|]. rewrite Z.min_l by lia. reflexivity.
Qed.

Lemma build_citations_acc (chunks : list ContextChunk) :
  Forall (fun c => exists s, cc_text c = VStr s) chunks ->
  forall acc : list Citation,
  exists cits : list Citation,
    for_each
      (fun citations chunk =>
         t ← citation_text (cc_text chunk);
         Return (citations ++ [{|
           cit_document_id := cc_document_id chunk;
           cit_chunk_id := cc_chunk_id chunk;
           cit_text := t;
           cit_confidence_score := cc_score chunk;
           cit_metadata := cc_metadata chunk
         |}]))
      acc chunks = Return (acc ++ cits)
    /\ Forall2 (fun c cit => forall s, cc_text c = VStr s -> cited c s cit)
         chunks cits.
Proof.
  induction 1 as [|c chunks [s Hs] _ IH]; intros acc.
  - exists []. rewrite app_nil_r. split; [reflexivity | constructor].
  - cbn [for_each]. rewrite Hs. cbn.
    edestruct IH as (cits & Heq & Hall). rewrite Heq.
    eexists (_ :: cits). rewrite <- app_assoc. split; [reflexivity|].
    constructor; [|exact Hall].
    intros s' Hs'. assert (s' = s) as -> by congruence.
    repeat split; cbn.
    + intros Hlen. destruct (Z.gtb_spec (len s) 200); [lia | reflexivity].
    + intros Hlen. destruct (Z.gtb_spec (len s) 200); [|lia].
      rewrite slice_to_take by lia. reflexivity.
Qed.

(** C8.  The citation of a hit whose text is a string [s] carries [s]
    itself when [s] has at most 200 characters, and the first 200
    characters of [s] followed by three dots when it has 201 or more; the
    citations come one per hit and in the order of the hits. *)
Theorem citation_truncation (hits : list Hit) :
  Forall (fun r => exists s, hit_text r = VStr s) hits ->
  exists cits : list Citation,
    _build_citations (List.map context_chunk hits) = Return cits
    /\ Forall2
         (fun r cit => forall s, hit_text r = VStr s ->
            (len s <= 200 -> cit_text cit = VStr s)
            /\ (201 <= len s -> cit_text cit = VStr (take 200 s ++ lit "...")))
         hits cits.
Proof.
  intros Hstr.
  destruct (build_citations_acc (List.map context_chunk hits)) with (acc := @nil Citation)
    as (cits & Heq & Hall).
  { apply Forall_fmap. eapply Forall_impl; [exact Hstr|]. intros r Hr. exact Hr. }
  exists cits. split; [exact Heq|].
  apply Forall2_fmap_l in Hall.
  eapply Forall2_impl; [exact Hall|].
  intros r cit Hc s Hs. destruct (Hc s Hs) as (_ & _ & _ & _ & Hshort & Hlong).
  split; assumption.
Qed.

Lemma citation_truncation_boundary :
  exists c200 c201 : Citation,
    _build_citations
      (List.map context_chunk
         [hit_with_text (text_of_length 200); hit_with_text (text_of_length 201)])
    = Return [c200; c201]
    /\ cit_text c200 = VStr (text_of_length 200)
    /\ cit_text c201 = VStr (text_of_length 200 ++ lit "...").
Proof.
  destruct (citation_truncation
    [hit_with_text (text_of_length 200); hit_with_text (text_of_length 201)])
    as (cits & Heq & Hall).
  - repeat constructor; eexists; reflexivity.
  - apply Forall2_cons_inv_l in Hall as (c200 & cits' & H200 & Hall & ->).
    apply Forall2_cons_inv_l in Hall as (c201 & cits'' & H201 & Hall & ->).
    apply Forall2_nil_inv_l in Hall as ->.
    exists c200, c201. split; [exact Heq|]. split.
    + apply (H200 (text_of_length 200)); [reflexivity | vm_compute; discriminate].
    + destruct (H201 (text_of_length 201)) as [_ H]; [reflexivity|].
      rewrite H by (vm_compute; discriminate). reflexivity.
Defined.

(** ** One attempt *)

Lemma attempt_body_hits (w : Services) (query : str) (top_k : Z) (thr : Q)
    (inc : bool) (attempt : Z) (emb : list Q) (r0 : Hit) (rest : list Hit) :
  generate_embedding w attempt query = Return emb ->
  query_vectors w attempt emb top_k = Return (r0 :: rest) ->
  attempt_body w query top_k thr inc attempt
  = (llm_answer ←
       generate_response w attempt query
         (List.map context_chunk (fst (select thr r0 rest))) inc;
     cits ←
       (if inc
        then _build_citations (List.map context_chunk (fst (select thr r0 rest)))
        else Return []);
     Return {|
       answer := llm_answer;
       citations := cits;
       confidence_score := snd (select thr r0 rest);
       retrieval_metadata :=
         <["retrieval_count" := NInt (len (fst (select thr r0 rest)))]>
         (<["total_retrieved" := NInt (len (r0 :: rest))]>
         (<["avg_confidence" := NFloat (avg_or_zero (List.map hit_score (r0 :: rest)))]>
         (<["max_confidence" := NFloat (snd (select thr r0 rest))]>
         (<["threshold_used" := NFloat thr]>
         (<["attempt" := NInt (attempt + 1)]> ∅)))))
     |}).
Proof.
  intros Hemb Hquery. unfold attempt_body.
  rewrite Hemb. cbn. rewrite Hquery. cbn.
  destruct (select thr r0 rest) as [filtered reported]. reflexivity.
Qed.

Lemma attempt_body_inv (w : Services) (query : str) (top_k : Z) (thr : Q)
    (inc : bool) (attempt : Z) (o : Outcome) :
  attempt_body w query top_k thr inc attempt = Return o ->
  exists (emb : list Q) (results : list Hit),
    generate_embedding w attempt query = Return emb
    /\ query_vectors w attempt emb top_k = Return results
    /\ match results with
       | [] => o = no_results attempt
       | r0 :: rest =>
           confidence_score o = snd (select thr r0 rest)
           /\ retrieval_metadata o !! "max_confidence"
              = Some (NFloat (snd (select thr r0 rest)))
           /\ retrieval_metadata o !! "threshold_used" = Some (NFloat thr)
       end.
Proof.
  intros Hret.
  destruct (generate_embedding w attempt query) as [emb|e] eqn:Hemb;
    [|unfold attempt_body in Hret; rewrite Hemb in Hret; discriminate].
  destruct (query_vectors w attempt emb top_k) as [results|e] eqn:Hquery;
    [|unfold attempt_body in Hret; rewrite Hemb in Hret; cbn in Hret;
      rewrite Hquery in Hret; discriminate].
  exists emb, results. split; [reflexivity|]. split; [exact Hquery|].
  destruct results as [|r0 rest].
  - unfold attempt_body in Hret. rewrite Hemb in Hret. cbn in Hret.
    rewrite Hquery in Hret. cbn in Hret. congruence.
  - rewrite (attempt_body_hits _ _ _ _ _ _ _ _ _ Hemb Hquery) in Hret.
    destruct (generate_response _ _ _ _ _) as [a|e]; [|discriminate].
    cbn in Hret.
    destruct (if inc then _ else _) as [cits|e]; [|discriminate].
    cbn in Hret. injection Hret as <-. cbn. repeat split.
Qed.

Lemma retry_loop_returns (body : Z -> result Outcome) (n : Z)
    (attempts : list Z) : forall (log log' : list event) (o : Outcome),
  retry_loop body n attempts log = (log', Return o) ->
  exists k, k ∈ attempts /\ body k = Return o /\ last log' = Some (Attempt k).
Proof.
  induction attempts as [|a attempts IH]; intros log log' o Hrun; cbn in Hrun.
  - discriminate.
  - destruct (body a) as [o'|e] eqn:Hbody.
    + injection Hrun as <- <-. exists a. split; [by constructor|].
      split; [exact Hbody | apply last_snoc].
    + destruct (a =? n - 1); [discriminate|].
      destruct (IH _ _ _ Hrun) as (k & Hk & Hok & Hlast).
      exists k. split; [by constructor 2 | split; assumption].
Qed.

(** C1.  At attempt [k] of [retrieve_and_answer] (the earlier attempts
    having raised), when the store returns the hits [r0 :: rest] in
    descending order of score and none has a score that reaches the
    effective threshold, the surviving hits are [r0] alone, [r0] has the
    greatest score, the generator and the citations are given the context
    chunk of [r0] and nothing else, and when the generator answers (and the
    text of [r0] is a string) the call returns that answer with
    [retrieval_count = 1]. *)
Theorem fallback_keeps_top_hit
    (cfg : Config.Settings) (self : RetrievalService) (w : Services)
    (query : str) (top_k : option Z) (threshold : option Q) (inc : bool)
    (k : Z) (emb : list Q) (r0 : Hit) (rest : list Hit) :
  let thr := effective_threshold self threshold in
  let body := attempt_body w query (effective_top_k cfg top_k) thr inc in
  0 <= k < max_retries self ->
  (forall i, 0 <= i < k -> exists e, body i = Raise e) ->
  generate_embedding w k query = Return emb ->
  query_vectors w k emb (effective_top_k cfg top_k) = Return (r0 :: rest) ->
  Forall (fun r => meets thr r = false) (r0 :: rest) ->
  descending (List.map hit_score (r0 :: rest)) = true ->
  fst (select thr r0 rest) = [r0]
  /\ Forall (fun r => (hit_score r <= hit_score r0)%Q) (r0 :: rest)
  /\ body k
     = (llm_answer ← generate_response w k query [context_chunk r0] inc;
        cits ← (if inc then _build_citations [context_chunk r0] else Return []);
        Return {|
          answer := llm_answer;
          citations := cits;
          confidence_score := hit_score r0;
          retrieval_metadata :=
            <["retrieval_count" := NInt 1]>
            (<["total_retrieved" := NInt (len (r0 :: rest))]>
            (<["avg_confidence" := NFloat (avg_or_zero (List.map hit_score (r0 :: rest)))]>
            (<["max_confidence" := NFloat (hit_score r0)]>
            (<["threshold_used" := NFloat thr]>
            (<["attempt" := NInt (k + 1)]> ∅)))))
        |})
  /\ (forall a : str,
        generate_response w k query [context_chunk r0] inc = Return a ->
        (inc = true -> exists s : str, hit_text r0 = VStr s) ->
        exists o : Outcome,
          retrieve_and_answer cfg self w query top_k threshold inc
          = (backoff_log k ++ [Attempt k], Return o)
          /\ answer o = a
          /\ List.map cit_chunk_id (citations o) = (if inc then [hit_id r0] else [])
          /\ retrieval_metadata o !! "retrieval_count" = Some (NInt 1)).
Proof.
  intros thr body Hk Hfail Hemb Hquery Hnone Hdesc. subst thr body.
  pose proof (attempt_body_hits _ _ _ (effective_threshold self threshold)
                inc _ _ _ _ Hemb Hquery) as Hbody.
  rewrite (select_fallback _ _ _ Hnone) in Hbody. cbn [fst snd List.map] in Hbody.
  split; [rewrite select_fallback by assumption; reflexivity|].
  split.
  { apply descending_head in Hdesc.
    exact (proj1 (List.Forall_map hit_score _ (r0 :: rest)) Hdesc). }
  split; [exact Hbody|].
  intros a Ha Hs.
  destruct inc.
  - destruct Hs as [s Hs]; [reflexivity|].
    destruct (citation_text (VStr s)) as [t|e] eqn:Ht; [|discriminate].
    eexists. split.
    { apply retry_loop_success; [assumption | exact Hfail |].
      rewrite Hbody, Ha. cbn.
      unfold hit_text in Hs. rewrite Hs, Ht. cbn. reflexivity. }
    repeat split.
  - eexists. split.
    { apply retry_loop_success; [assumption | exact Hfail |].
      rewrite Hbody, Ha. reflexivity. }
    repeat split.
Qed.

Lemma fallback_example :
  exists o : Outcome,
    retrieve_and_answer Config.settings (init Config.settings)
      (always hits_sorted) (lit "q") None (Some (95 # 100)) true
    = ([Attempt 0], Return o)
    /\ List.map cit_chunk_id (citations o) = [lit "a"]
    /\ retrieval_metadata o !! "retrieval_count" = Some (NInt 1).
Proof.
  destruct (fallback_keeps_top_hit Config.settings (init Config.settings)
    (always hits_sorted) (lit "q") None (Some (95 # 100)) true 0 [1%Q]
    (scored "a" (9 # 10)) [scored "b" (4 # 10); scored "c" (2 # 10)])
    as (_ & _ & _ & H).
  - vm_compute. split; [discriminate | reflexivity].
  - intros i Hi. lia.
  - reflexivity.
  - reflexivity.
  - repeat constructor.
  - reflexivity.
  - destruct (H (lit "ok")) as (o & Hrun & _ & Hc & Hn);
      [reflexivity | intros _; eexists; reflexivity |].
    exists o. split; [exact Hrun | split; assumption].
Defined.

(** The confidence of a returned outcome, path by path.  When a call
    returns an outcome [o], the attempt that returned is the last event, and
    for the hits [results] that the store gave to that attempt, if there are
    any: [max_confidence] is the [confidence_score] of [o]; it is the
    greatest score of [results] when some hit reaches the threshold; it is
    the score of the first hit when none does. *)
Lemma confidence_by_path
    (cfg : Config.Settings) (self : RetrievalService) (w : Services)
    (query : str) (top_k : option Z) (threshold : option Q) (inc : bool)
    (log : list event) (o : Outcome) :
  let thr := effective_threshold self threshold in
  retrieve_and_answer cfg self w query top_k threshold inc = (log, Return o) ->
  exists (k : Z) (emb : list Q) (results : list Hit),
    last log = Some (Attempt k)
    /\ generate_embedding w k query = Return emb
    /\ query_vectors w k emb (effective_top_k cfg top_k) = Return results
    /\ (results <> [] ->
        let scores := List.map hit_score results in
        retrieval_metadata o !! "max_confidence" = Some (NFloat (confidence_score o))
        /\ (Exists (fun r => meets thr r = true) results ->
            is_maximum (confidence_score o) scores)
        /\ (Forall (fun r => meets thr r = false) results ->
            head scores = Some (confidence_score o))).
Proof.
  intros thr Hrun.
  apply retry_loop_returns in Hrun as (k & _ & Hbody & Hlast).
  apply attempt_body_inv in Hbody as (emb & results & Hemb & Hquery & Hres).
  exists k, emb, results. repeat (split; [assumption|]).
  intros Hne. destruct results as [|r0 rest]; [congruence|].
  destruct Hres as (Hconf & Hmeta & _).
  destruct (select_confidence thr r0 rest) as (Hsome & Hnone & _).
  cbv zeta. rewrite Hconf. split; [exact Hmeta|]. split; [exact Hsome|].
  intros Hn. cbn. f_equal. symmetry. apply Hnone, Hn.
Qed.

(** C2.  The store returns its hits in descending order of score.  When a
    call returns an outcome [o], the attempt that returned is the last event,
    and for the hits [results] that the store gave to that attempt, if there
    are any and they are in that order: the value stored under
    [max_confidence] is the [confidence_score] of [o], and it is the greatest
    score of [results], a score of one of the hits that no other exceeds.
    Nothing is assumed of the threshold, so this holds on both paths: when
    some hit reaches the threshold, and when none does and the fallback keeps
    the first hit. *)
Theorem max_confidence_is_maximum
    (cfg : Config.Settings) (self : RetrievalService) (w : Services)
    (query : str) (top_k : option Z) (threshold : option Q) (inc : bool)
    (log : list event) (o : Outcome) :
  retrieve_and_answer cfg self w query top_k threshold inc = (log, Return o) ->
  exists (k : Z) (emb : list Q) (results : list Hit),
    last log = Some (Attempt k)
    /\ generate_embedding w k query = Return emb
    /\ query_vectors w k emb (effective_top_k cfg top_k) = Return results
    /\ (results <> [] ->
        descending (List.map hit_score results) = true ->
        retrieval_metadata o !! "max_confidence"
        = Some (NFloat (confidence_score o))
        /\ is_maximum (confidence_score o) (List.map hit_score results)).
Proof.
  intros Hrun.
  apply retry_loop_returns in Hrun as (k & _ & Hbody & Hlast).
  apply attempt_body_inv in Hbody as (emb & results & Hemb & Hquery & Hres).
  exists k, emb, results. repeat (split; [assumption|]).
  intros Hne Hdesc. destruct results as [|r0 rest]; [congruence|].
  destruct Hres as (Hconf & Hmeta & _).
  destruct (select_confidence (effective_threshold self threshold) r0 rest)
    as (_ & _ & Hmax).
  rewrite Hconf. split; [exact Hmeta | exact (Hmax Hdesc)].
Qed.

(** The hits 0.9, 0.4 and 0.2: with the threshold 0.95 none passes and the
    fallback keeps the first, with the threshold 0.3 two pass; the confidence
    reported is 0.9, the greatest score, both times. *)
Lemma max_confidence_is_maximum_example :
  (exists o : Outcome,
     retrieve_and_answer Config.settings (init Config.settings)
       (always hits_sorted) (lit "q") None (Some (95 # 100)) true
     = ([Attempt 0], Return o)
     /\ retrieval_metadata o !! "retrieval_count" = Some (NInt 1)
     /\ retrieval_metadata o !! "max_confidence" = Some (NFloat (9 # 10))
     /\ confidence_score o = 9 # 10
     /\ is_maximum (confidence_score o) [9 # 10; 4 # 10; 2 # 10])
  /\ (exists o : Outcome,
        retrieve_and_answer Config.settings (init Config.settings)
          (always hits_sorted) (lit "q") None (Some (3 # 10)) true
        = ([Attempt 0], Return o)
        /\ retrieval_metadata o !! "retrieval_count" = Some (NInt 2)
        /\ retrieval_metadata o !! "max_confidence" = Some (NFloat (9 # 10))
        /\ confidence_score o = 9 # 10
        /\ is_maximum (confidence_score o) [9 # 10; 4 # 10; 2 # 10]).
Proof.
  split.
  - set (o := outcome_of (retrieve_and_answer Config.settings
      (init Config.settings) (always hits_sorted) (lit "q") None
      (Some (95 # 100)) true)).
    assert (Hrun : retrieve_and_answer Config.settings (init Config.settings)
              (always hits_sorted) (lit "q") None (Some (95 # 100)) true
            = ([Attempt 0], Return o)) by (vm_compute; reflexivity).
    destruct (max_confidence_is_maximum _ _ _ _ _ _ _ _ _ Hrun)
      as (k & emb & results & _ & _ & Hq & H).
    change (Return hits_sorted = Return results) in Hq.
    injection Hq as <-.
    destruct H as (Hmeta & Hmax); [discriminate | vm_compute; reflexivity|].
    exists o. split; [exact Hrun|]. split; [vm_compute; reflexivity|].
    split; [vm_compute; reflexivity|]. split; [vm_compute; reflexivity|].
    exact Hmax.
  - set (o := outcome_of (retrieve_and_answer Config.settings
      (init Config.settings) (always hits_sorted) (lit "q") None
      (Some (3 # 10)) true)).
    assert (Hrun : retrieve_and_answer Config.settings (init Config.settings)
              (always hits_sorted) (lit "q") None (Some (3 # 10)) true
            = ([Attempt 0], Return o)) by (vm_compute; reflexivity).
    destruct (max_confidence_is_maximum _ _ _ _ _ _ _ _ _ Hrun)
      as (k & emb & results & _ & _ & Hq & H).
    change (Return hits_sorted = Return results) in Hq.
    injection Hq as <-.
    destruct H as (Hmeta & Hmax); [discriminate | vm_compute; reflexivity|].
    exists o. split; [exact Hrun|]. split; [vm_compute; reflexivity|].
    split; [vm_compute; reflexivity|]. split; [vm_compute; reflexivity|].
    exact Hmax.
Defined.

(** Outside the contract of the store the fallback reports the score of the
    first hit, whatever the others are: with the scores 0.4 and 0.9 in that
    order and the threshold 0.95 no hit survives, the first hit is kept, and
    the reported confidence is 0.4. *)
Lemma first_hit_is_reported :
  exists o : Outcome,
    retrieve_and_answer Config.settings (init Config.settings)
      (always hits_unsorted) (lit "q") None (Some (95 # 100)) true
    = ([Attempt 0], Return o)
    /\ retrieval_metadata o !! "max_confidence" = Some (NFloat (4 # 10))
    /\ confidence_score o = 4 # 10
    /\ ~ is_maximum (confidence_score o) (List.map hit_score hits_unsorted).
Proof.
  eexists. split; [vm_compute; reflexivity|].
  split; [reflexivity|]. split; [reflexivity|].
  intros [_ Hall]. apply Forall_cons in Hall as [_ Hall].
  apply Forall_cons in Hall as [Hle _].
  apply Hle. reflexivity.
Qed.

(** An override that is not zero is the effective value. *)
Lemma effective_threshold_supplied (self : RetrievalService) (v : Q) :
  ~ (v == 0)%Q -> effective_threshold self (Some v) = v.
Proof.
  intros Hv. unfold effective_threshold, float_or.
  destruct (Qeq_bool v 0) eqn:Heq; [|reflexivity].
  apply Qeq_bool_iff in Heq. contradiction.
Qed.

Lemma effective_top_k_supplied (cfg : Config.Settings) (v : Z) :
  v <> 0 -> effective_top_k cfg (Some v) = v.
Proof.
  intros Hv. unfold effective_top_k, int_or.
  destruct (Z.eqb_spec v 0); [contradiction | reflexivity].
Qed.

(** C9 at the override [0.0] (and [top_k = 0]): the override is supplied and
    the configured default is used all the same; so with the default 0.7 a
    hit of score 0.5 does not pass a supplied threshold of 0.0, and the
    threshold reported is 0.7.  An omitted override gives the default, and
    the threshold that an attempt used is the one it reports. *)
Theorem zero_override_is_dropped :
  (forall self : RetrievalService,
     effective_threshold self (Some 0%Q) = confidence_threshold self
     /\ effective_threshold self None = confidence_threshold self)
  /\ (forall cfg : Config.Settings,
        effective_top_k cfg (Some 0) = Config.retrieval_top_k cfg
        /\ effective_top_k cfg None = Config.retrieval_top_k cfg)
  /\ (exists o : Outcome,
        retrieve_and_answer Config.settings (init Config.settings)
          (always [scored "a" (5 # 10)]) (lit "q") None (Some 0%Q) true
        = ([Attempt 0], Return o)
        /\ retrieval_metadata o !! "threshold_used" = Some (NFloat (7 # 10))
        /\ meets (7 # 10) (scored "a" (5 # 10)) = false
        /\ meets 0 (scored "a" (5 # 10)) = true).
Proof.
  split; [intros self; split; reflexivity|].
  split; [intros cfg; split; reflexivity|].
  eexists. split; [vm_compute; reflexivity|]. repeat split.
Qed.

(** ** Strings *)

Lemma bind_return {A B : Type} (a : A) (k : A -> result B) :
  (Return a ≫= k) = k a.
Proof. reflexivity. Qed.

Lemma bind_raise {A B : Type} (e : exn) (k : A -> result B) :
  (Raise e ≫= k) = Raise e.
Proof. reflexivity. Qed.

Lemma len_nonneg {A : Type} (l : list A) : 0 <= len l.
Proof. unfold len. lia. Qed.

Lemma len_app {A : Type} (l1 l2 : list A) : len (l1 ++ l2) = len l1 + len l2.
Proof. unfold len. rewrite length_app. lia. Qed.

Lemma truthy_true {A : Type} (l : list A) : truthy l = true <-> l <> [].
Proof. destruct l; cbn; split; congruence. Qed.

Lemma truthy_false {A : Type} (l : list A) : truthy l = false <-> l = [].
Proof. destruct l; cbn; split; congruence. Qed.

Lemma lstrip_blank (s : str) : is_blank s = true -> lstrip s = [].
Proof.
  induction s as [|c s IH]; [reflexivity|].
  cbn. intros H. apply andb_true_iff in H as [Hc Hs].
  rewrite Hc. apply IH, Hs.
Qed.

Lemma lstrip_nil (s : str) : lstrip s = [] -> is_blank s = true.
Proof.
  induction s as [|c s IH]; [reflexivity|].
  cbn. destruct (is_space c); [exact IH | discriminate].
Qed.

(** [lstrip] removes a blank prefix and stops at a character that is no
    whitespace. *)
Lemma lstrip_split (s : str) :
  exists pre : str, s = pre ++ lstrip s /\ is_blank pre = true.
Proof.
  induction s as [|c s (pre & Heq & Hpre)].
  - exists []. split; reflexivity.
  - cbn. destruct (is_space c) eqn:Hc.
    + exists (c :: pre). cbn. rewrite Hc, <- Heq. split; [reflexivity | exact Hpre].
    + exists []. split; reflexivity.
Qed.

Lemma is_blank_app (s1 s2 : str) :
  is_blank (s1 ++ s2) = is_blank s1 && is_blank s2.
Proof. apply forallb_app. Qed.

Lemma is_blank_rev (s : str) : is_blank (rev s) = is_blank s.
Proof.
  induction s as [|c s IH]; [reflexivity|].
  cbn [rev]. rewrite is_blank_app, IH. cbn.
  rewrite andb_true_r. apply andb_comm.
Qed.

Lemma strip_blank (s : str) : is_blank s = true -> strip s = [].
Proof.
  intros H. unfold strip, rstrip.
  rewrite (lstrip_blank (rev s)) by (rewrite is_blank_rev; exact H).
  reflexivity.
Qed.

Lemma strip_nil (s : str) : strip s = [] -> is_blank s = true.
Proof.
  unfold strip, rstrip. intros H. apply lstrip_nil in H.
  rewrite is_blank_rev in H.
  destruct (lstrip_split (rev s)) as (pre & Heq & Hpre).
  rewrite <- is_blank_rev, Heq, is_blank_app, Hpre, H. reflexivity.
Qed.

(** The test at the head of [chunk_text]. *)
Lemma blank_test (s : str) :
  negb (truthy s) || negb (truthy (strip s)) = is_blank s.
Proof.
  destruct (is_blank s) eqn:Hb.
  - rewrite (strip_blank s Hb). cbn. apply orb_true_r.
  - destruct s as [|c s]; [discriminate|]. cbn [truthy negb orb].
    destruct (strip (c :: s)) eqn:Hs; [|reflexivity].
    apply strip_nil in Hs. congruence.
Qed.

(** A character that is no whitespace stays in a piece of the split. *)
Lemma re_split_go_keeps (c : ascii) (s : str) :
  is_space c = false -> c ∈ s ->
  forall after_punct in_sep : bool,
  exists p : str, p ∈ re_split_go after_punct in_sep s /\ c ∈ p.
Proof.
  intros Hc. induction s as [|a s IH]; intros Hin ap sep.
  - inversion Hin.
  - cbn [re_split_go].
    destruct (is_space a && (sep || ap)) eqn:Hsep.
    + assert (c ∈ s) as Hs.
      { apply elem_of_cons in Hin as [->|Hin]; [|exact Hin].
        apply andb_true_iff in Hsep as [Ha _]. congruence. }
      destruct (IH Hs false true) as (p & Hp & Hcp).
      exists p. split; [|exact Hcp].
      destruct sep; [exact Hp | by constructor 2].
    + apply elem_of_cons in Hin as [->|Hin].
      * destruct (re_split_go (is_end_punct a) false s) as [|p ps].
        -- exists [a]. split; by constructor.
        -- exists (a :: p). split; by constructor.
      * destruct (IH Hin (is_end_punct a) false) as (p & Hp & Hcp).
        destruct (re_split_go (is_end_punct a) false s) as [|p0 ps].
        -- inversion Hp.
        -- apply elem_of_cons in Hp as [->|Hp].
           ++ exists (a :: p0). split; [by constructor | by constructor 2].
           ++ exists p. split; [by constructor 2 | exact Hcp].
Qed.

Lemma not_blank_witness (s : str) :
  is_blank s = false -> exists c, c ∈ s /\ is_space c = false.
Proof.
  induction s as [|a s IH]; [discriminate|].
  cbn. destruct (is_space a) eqn:Ha.
  - intros H. destruct (IH H) as (c & Hc & Hsp).
    exists c. split; [by constructor 2 | exact Hsp].
  - intros _. exists a. split; [by constructor | exact Ha].
Qed.

Lemma has_char_not_blank (c : ascii) (s : str) :
  c ∈ s -> is_space c = false -> is_blank s = false.
Proof.
  intros Hin Hc. induction s as [|a s IH]; [inversion Hin|].
  change (is_space a && is_blank s = false).
  apply elem_of_cons in Hin as [<-|Hin].
  - rewrite Hc. reflexivity.
  - rewrite (IH Hin). apply andb_false_r.
Qed.

Lemma split_sentences_nonempty (text : str) :
  Forall (fun s => s <> []) (_split_sentences text).
Proof.
  unfold _split_sentences.
  induction (re_split_sentences text) as [|p ps IH]; [constructor|].
  cbn. destruct (truthy (strip p)) eqn:Hp; [|exact IH].
  constructor; [apply truthy_true, Hp | exact IH].
Qed.

Lemma split_sentences_some (text : str) :
  is_blank text = false -> _split_sentences text <> [].
Proof.
  intros Hnb. destruct (not_blank_witness text Hnb) as (c & Hin & Hc).
  destruct (re_split_go_keeps c text Hc Hin false false) as (p & Hp & Hcp).
  unfold _split_sentences, re_split_sentences.
  induction (re_split_go false false text) as [|q l IH]; [inversion Hp|].
  cbn. apply elem_of_cons in Hp as [<-|Hp].
  - assert (truthy (strip p) = true) as ->; [|discriminate].
    apply truthy_true. intros Hnil. apply strip_nil in Hnil.
    rewrite (has_char_not_blank c p Hcp Hc) in Hnil. discriminate.
  - destruct (truthy (strip q)); [discriminate | exact (IH Hp)].
Qed.

(** ** The loop of [chunk_text] *)

Lemma join_nonempty (sep : str) (l : list str) :
  l <> [] -> Forall (fun s => s <> []) l -> join sep l <> [].
Proof.
  destruct l as [|x l]; [congruence|]. intros _ Hall.
  apply Forall_cons in Hall as [Hx _].
  cbn. destruct l; [exact Hx|].
  destruct x; [congruence | discriminate].
Qed.

Lemma seed_nonempty (o : str) : Forall (fun s => s <> []) (seed o).
Proof.
  unfold seed. destruct (truthy o) eqn:Ho; [|constructor].
  constructor; [apply truthy_true, Ho | constructor].
Qed.

Section chunker.

Variable self : DocumentChunker.
Variable m : gmap string value.

Lemma loop_inv_init : loop_inv self m locals0.
Proof.
  split; cbn.
  - reflexivity.
  - intros i c H. inversion H.
  - intros i c c' H. inversion H.
  - constructor.
  - intros c H. discriminate.
Qed.

(** Appending the chunk made of the buffer keeps the emitted chunks well
    formed and linked. *)
Lemma emit_snoc (st : locals) :
  loop_inv self m st -> current_chunk st <> [] ->
  exists c : Chunk,
    emit (Some m) (next_id st) (join (lit " ") (current_chunk st)) (start st)
    = Return c
    /\ text c = join (lit " ") (current_chunk st)
    /\ start_index c = start st
    /\ (forall i c0, (chunks st ++ [c]) !! i = Some c0 -> chunk_wf m i c0)
    /\ (forall i c0 c1,
          (chunks st ++ [c]) !! i = Some c0 ->
          (chunks st ++ [c]) !! S i = Some c1 -> linked self c0 c1).
Proof.
  intros [Hid Hwf Hlink Hbuf Hlast] Hne.
  eexists. split; [reflexivity|]. cbn [text start_index].
  split; [reflexivity|]. split; [reflexivity|]. split.
  - intros i c0 Hi. apply lookup_snoc_Some in Hi as [[_ Hi]|[Hi <-]].
    + apply Hwf, Hi.
    + unfold chunk_wf. cbn. rewrite Hid. unfold len. rewrite <- Hi.
      repeat split. apply join_nonempty; assumption.
  - intros i c0 c1 H0 H1.
    apply lookup_snoc_Some in H1 as [[_ H1]|[H1 <-]].
    + apply lookup_snoc_Some in H0 as [[_ H0]|[H0 _]].
      * eapply Hlink; eassumption.
      * apply lookup_lt_Some in H1. lia.
    + apply lookup_snoc_Some in H0 as [[_ H0]|[H0 _]]; [|lia].
      assert (last (chunks st) = Some c0) as Hl.
      { rewrite last_lookup, <- H1. exact H0. }
      destruct (Hlast c0 Hl) as (Hstart & rest & Hrest & Hcur).
      unfold linked. cbn. split; [exact Hstart|].
      exists rest. split; [exact Hrest | rewrite Hcur; reflexivity].
Qed.

Lemma step_inv (st : locals) (sentence : str) :
  loop_inv self m st -> sentence <> [] ->
  exists st' : locals,
    step self (Some m) st sentence = Return st'
    /\ loop_inv self m st' /\ current_chunk st' <> [].
Proof.
  intros Hinv Hs. unfold step.
  destruct ((current_length st + len sentence >? chunk_size self)
            && truthy (current_chunk st)) eqn:Hclose.
  - apply andb_true_iff in Hclose as [_ Hne]. apply truthy_true in Hne.
    destruct (emit_snoc st Hinv Hne) as (c & Hemit & Htext & Hstart & Hwf & Hlink).
    rewrite Hemit. cbn.
    eexists. split; [reflexivity|]. split.
    + split; cbn.
      * rewrite (inv_id _ _ _ Hinv), len_app. reflexivity.
      * exact Hwf.
      * exact Hlink.
      * apply Forall_app. split; [apply seed_nonempty | by constructor].
      * intros c0 Hl. rewrite last_snoc in Hl. injection Hl as <-.
        rewrite Htext, Hstart. split; [reflexivity|].
        exists [sentence]. split; [discriminate | reflexivity].
    + cbn. destruct (truthy _); discriminate.
  - cbn. eexists. split; [reflexivity|]. split.
    + destruct Hinv as [Hid Hwf Hlink Hbuf Hlast]. split; cbn; try assumption.
      * apply Forall_app. split; [exact Hbuf | by constructor].
      * intros c Hl. destruct (Hlast c Hl) as (Hstart & rest & Hrest & Hcur).
        split; [exact Hstart|].
        exists (rest ++ [sentence]). split.
        -- destruct rest; discriminate.
        -- rewrite Hcur, app_assoc. reflexivity.
    + cbn. destruct (current_chunk st); discriminate.
Qed.

Lemma for_each_step_inv (sentences : list str) : forall st : locals,
  loop_inv self m st -> Forall (fun s => s <> []) sentences ->
  exists st' : locals,
    for_each (step self (Some m)) st sentences = Return st'
    /\ loop_inv self m st'
    /\ (sentences <> [] -> current_chunk st' <> []).
Proof.
  induction sentences as [|s sentences IH]; intros st Hinv Hall.
  - exists st. split; [reflexivity|]. split; [exact Hinv | congruence].
  - apply Forall_cons in Hall as [Hs Hall].
    destruct (step_inv st s Hinv Hs) as (st1 & Hstep & Hinv1 & Hcur1).
    destruct (IH st1 Hinv1 Hall) as (st' & Hloop & Hinv' & Hcur').
    exists st'. cbn [for_each]. rewrite Hstep. cbn.
    split; [exact Hloop|]. split; [exact Hinv'|].
    intros _. destruct sentences as [|s' sentences'].
    + cbn in Hloop. injection Hloop as <-. exact Hcur1.
    + apply Hcur'. discriminate.
Qed.

(** What [chunk_text] returns for a text that is not blank. *)
Lemma chunk_text_chunks (text : str) :
  is_blank text = false ->
  exists chunks : list Chunk,
    chunk_text self text (Some m) = Return chunks
    /\ chunks <> []
    /\ (forall i c, chunks !! i = Some c -> chunk_wf m i c)
    /\ (forall i c c',
          chunks !! i = Some c -> chunks !! S i = Some c' -> linked self c c').
Proof.
  intros Hnb. unfold chunk_text. rewrite blank_test, Hnb.
  destruct (for_each_step_inv (_split_sentences text) locals0 loop_inv_init
              (split_sentences_nonempty text)) as (st & Hloop & Hinv & Hcur).
  specialize (Hcur (split_sentences_some text Hnb)).
  rewrite Hloop, bind_return. cbv beta.
  destruct (emit_snoc st Hinv Hcur) as (c & Hemit & _ & _ & Hwf & Hlink).
  apply truthy_true in Hcur. rewrite Hcur, Hemit, bind_return.
  exists (chunks st ++ [c]). split; [reflexivity|].
  split; [destruct (chunks st); discriminate|].
  split; assumption.
Qed.

End chunker.

Lemma chunk_text_blank (self : DocumentChunker) (text : str)
    (md : option (gmap string value)) :
  is_blank text = true -> chunk_text self text md = Return [].
Proof. intros Hb. unfold chunk_text. rewrite blank_test, Hb. reflexivity. Qed.

(** Without metadata the first chunk that is emitted raises. *)
Lemma step_none (self : DocumentChunker) (st : locals) (sentence : str) :
  step self None st sentence = Raise AttributeError
  \/ exists st' : locals,
       step self None st sentence = Return st' /\ current_chunk st' <> [].
Proof.
  unfold step.
  destruct ((current_length st + len sentence >? chunk_size self)
            && truthy (current_chunk st)).
  - left. reflexivity.
  - right. eexists. split; [reflexivity|].
    cbn. destruct (current_chunk st); discriminate.
Qed.

Lemma for_each_step_none (self : DocumentChunker) (sentences : list str) :
  forall st : locals,
  sentences <> [] \/ current_chunk st <> [] ->
  for_each (step self None) st sentences = Raise AttributeError
  \/ exists st' : locals,
       for_each (step self None) st sentences = Return st'
       /\ current_chunk st' <> [].
Proof.
  induction sentences as [|s sentences IH]; intros st Hne.
  - right. exists st. split; [reflexivity|]. destruct Hne; congruence.
  - cbn [for_each].
    destruct (step_none self st s) as [Hraise|(st1 & Hstep & Hcur)].
    + left. rewrite Hraise. reflexivity.
    + rewrite Hstep, bind_return. apply IH. right. exact Hcur.
Qed.

Lemma chunk_text_none (self : DocumentChunker) (text : str) :
  is_blank text = false -> chunk_text self text None = Raise AttributeError.
Proof.
  intros Hnb. unfold chunk_text. rewrite blank_test, Hnb. cbv iota.
  destruct (for_each_step_none self (_split_sentences text) locals0)
    as [Hraise|(st & Hloop & Hcur)].
  - left. apply split_sentences_some, Hnb.
  - rewrite Hraise. reflexivity.
  - rewrite Hloop, bind_return. apply truthy_true in Hcur.
    rewrite Hcur. reflexivity.
Qed.

(** ** The overlap text *)

Lemma find_bounds (c : ascii) (s : str) : -1 <= find c s < len s.
Proof.
  induction s as [|a s IH]; cbn [find]; [unfold len; cbn; lia|].
  unfold len in *. cbn [length].
  destruct (Ascii.eqb a c); [lia|].
  destruct (Z.ltb_spec (find c s) 0); lia.
Qed.

Lemma find_lookup (c : ascii) (s : str) :
  0 <= find c s -> s !! Z.to_nat (find c s) = Some c.
Proof.
  induction s as [|a s IH]; cbn [find]; [lia|].
  destruct (Ascii.eqb_spec a c) as [->|_]; [reflexivity|].
  destruct (Z.ltb_spec (find c s) 0) as [|Hge]; [lia|]. intros _.
  replace (Z.to_nat (find c s + 1)) with (S (Z.to_nat (find c s))) by lia.
  cbn. apply IH, Hge.
Qed.

Lemma find_present (c : ascii) (s : str) : c ∈ s -> 0 <= find c s.
Proof.
  induction s as [|a s IH]; intros Hin; [inversion Hin|].
  cbn [find]. destruct (Ascii.eqb_spec a c) as [|Hne]; [lia|].
  apply elem_of_cons in Hin as [->|Hin]; [congruence|].
  specialize (IH Hin). destruct (Z.ltb_spec (find c s) 0); lia.
Qed.

Lemma slice_from_drop {A : Type} (s : list A) (i : Z) :
  exists j : nat, slice_from s i = drop j s.
Proof. eexists. reflexivity. Qed.

(** The overlap text is always a suffix of the chunk. *)
Lemma overlap_suffix (self : DocumentChunker) (t : str) :
  exists j : nat, _get_overlap_text self t = drop j t.
Proof.
  unfold _get_overlap_text.
  destruct (len t <=? chunk_overlap self); [exists 0%nat; reflexivity|].
  destruct (find " " (slice_from t (- chunk_overlap self)) >? 0).
  - unfold slice_from. rewrite drop_drop. eexists. reflexivity.
  - apply slice_from_drop.
Qed.

Lemma overlap_len_le (self : DocumentChunker) (t : str) :
  len (_get_overlap_text self t) <= len t.
Proof.
  destruct (overlap_suffix self t) as [j ->].
  unfold len. rewrite length_drop. lia.
Qed.

(** The overlap text of a chunk longer than a positive [chunk_overlap]. *)
Lemma overlap_long (self : DocumentChunker) (t : str) :
  let co := chunk_overlap self in
  let window := slice_from t (- co) in
  1 <= co -> co < len t ->
  window = drop (length t - Z.to_nat co) t
  /\ len window = co
  /\ _get_overlap_text self t
     = (if find " " window >? 0
        then drop (S (Z.to_nat (find " " window))) window
        else window).
Proof.
  intros co window Hco Hlen.
  assert (Hw : window = drop (length t - Z.to_nat co) t).
  { subst window. unfold slice_from, slice_index.
    destruct (Z.ltb_spec (- co) 0); [|lia].
    f_equal. unfold len in *. lia. }
  assert (Hwl : len window = co).
  { rewrite Hw. unfold len in *. rewrite length_drop. lia. }
  split; [exact Hw|]. split; [exact Hwl|].
  unfold _get_overlap_text. fold co. fold window.
  destruct (Z.leb_spec (len t) co); [lia|].
  destruct (Z.gtb_spec (find " " window) 0) as [Hpos|]; [|reflexivity].
  pose proof (find_bounds " " window) as Hb.
  unfold slice_from, slice_index.
  destruct (Z.ltb_spec (find " " window + 1) 0); [lia|].
  f_equal. lia.
Qed.

(** Where the overlap text starts, for a positive [chunk_overlap]. *)
Lemma overlap_boundary (self : DocumentChunker) (t : str) :
  let co := chunk_overlap self in
  let window := slice_from t (- co) in
  let tail := _get_overlap_text self t in
  1 <= co ->
  len tail <= co
  /\ (exists pre : str,
        t = pre ++ tail
        /\ (len t <= co \/ " "%char ∈ window -> mid_word pre tail = false))
  /\ (co < len t -> " "%char ∉ window -> tail = window).
Proof.
  intros co window tail Hco.
  destruct (Z.leb_spec (len t) co) as [Hshort|Hlong].
  - assert (tail = t) as Ht.
    { subst tail. unfold _get_overlap_text. fold co.
      destruct (Z.leb_spec (len t) co); [reflexivity | lia]. }
    rewrite Ht. split; [exact Hshort|]. split; [|lia].
    exists []. split; [reflexivity|]. intros _. reflexivity.
  - destruct (overlap_long self t Hco Hlong) as (Hw & Hwl & Ho).
    fold co in Hw, Hwl, Ho. fold window in Hw, Hwl, Ho. fold tail in Ho.
    clearbody tail window.
    pose proof (find_bounds " " window) as Hb.
    assert (Ht : t = take (length t - Z.to_nat co) t ++ window).
    { rewrite Hw. symmetry. apply take_drop. }
    destruct (Z.gtb_spec (find " " window) 0) as [Hpos|Hnpos].
    + pose proof (find_lookup " " window ltac:(lia)) as Hsp.
      set (i := Z.to_nat (find " " window)) in *.
      split; [|split].
      * rewrite Ho. unfold len in *. rewrite length_drop. lia.
      * exists (take (length t - Z.to_nat co) t ++ take (S i) window).
        split.
        -- rewrite Ho, <- app_assoc, take_drop. exact Ht.
        -- intros _. unfold mid_word.
           rewrite (take_S_r _ _ _ Hsp), app_assoc, last_snoc.
           destruct (head tail); reflexivity.
      * intros _ Hno. exfalso. apply Hno.
        eapply list_elem_of_lookup_2, Hsp.
    + split; [|split].
      * rewrite Ho, Hwl. lia.
      * exists (take (length t - Z.to_nat co) t). rewrite Ho.
        split; [exact Ht|]. intros [Hs|Hin]; [lia|].
        apply find_present in Hin.
        assert (find " " window = 0) as H0 by lia.
        pose proof (find_lookup " " window ltac:(lia)) as Hsp.
        rewrite H0 in Hsp. destruct window as [|b window']; [discriminate|].
        injection Hsp as ->. unfold mid_word.
        destruct (last _); [|reflexivity].
        cbn. apply andb_false_r.
      * intros _ _. exact Ho.
Qed.

(** ** The chunks that [chunk_text] returns *)

Lemma chunk_text_inv (self : DocumentChunker) (text : str)
    (md : option (gmap string value)) (chunks : list Chunk) :
  chunk_text self text md = Return chunks ->
  (is_blank text = true /\ chunks = [])
  \/ exists m : gmap string value,
       md = Some m /\ is_blank text = false /\ chunks <> []
       /\ (forall i c, chunks !! i = Some c -> chunk_wf m i c)
       /\ (forall i c c',
             chunks !! i = Some c -> chunks !! S i = Some c' -> linked self c c').
Proof.
  intros Hret. destruct (is_blank text) eqn:Hb.
  - left. rewrite chunk_text_blank in Hret by exact Hb.
    split; [reflexivity | congruence].
  - right. destruct md as [m|].
    + destruct (chunk_text_chunks self m text Hb) as (chunks' & Heq & H).
      exists m. assert (chunks' = chunks) as <- by congruence.
      split; [reflexivity|]. split; [reflexivity | exact H].
    + rewrite chunk_text_none in Hret by exact Hb. discriminate.
Qed.

Lemma chunk_text_linked (self : DocumentChunker) (text : str)
    (md : option (gmap string value)) (chunks : list Chunk) (i : nat)
    (c c' : Chunk) :
  chunk_text self text md = Return chunks ->
  chunks !! i = Some c -> chunks !! S i = Some c' ->
  linked self c c' /\ end_index c = start_index c + len (Chunking.text c).
Proof.
  intros Hret Hc Hc'.
  destruct (chunk_text_inv _ _ _ _ Hret) as [[_ ->]|(m & _ & _ & _ & Hwf & Hlink)].
  - inversion Hc.
  - split; [eapply Hlink; eassumption|].
    destruct (Hwf i c Hc) as (_ & Hend & _). exact Hend.
Qed.

(** C5, as the code has it.  For two consecutive chunks [c], [c'] of
    [chunk_text] and [chunk_overlap >= 1]: the text of [c'] is the overlap
    text of [c] followed by sentences; the overlap text is a suffix of the
    text of [c] of at most [chunk_overlap] characters; it does not start
    inside a word when [c] has at most [chunk_overlap] characters or when
    there is a space among the last [chunk_overlap] characters of [c]; and
    when there is no space among them, it is those characters as they are. *)
Theorem overlap_tail_bound (self : DocumentChunker) (text : str)
    (md : option (gmap string value)) (chunks : list Chunk) (i : nat)
    (c c' : Chunk) :
  let co := chunk_overlap self in
  let tail := _get_overlap_text self (Chunking.text c) in
  let window := slice_from (Chunking.text c) (- co) in
  1 <= co ->
  chunk_text self text md = Return chunks ->
  chunks !! i = Some c -> chunks !! S i = Some c' ->
  (exists rest : list str,
     rest <> [] /\ Chunking.text c' = join (lit " ") (seed tail ++ rest))
  /\ len tail <= co
  /\ (exists pre : str,
        Chunking.text c = pre ++ tail
        /\ (len (Chunking.text c) <= co \/ " "%char ∈ window ->
            mid_word pre tail = false))
  /\ (co < len (Chunking.text c) -> " "%char ∉ window -> tail = window).
Proof.
  intros co tail window Hco Hret Hc Hc'.
  destruct (chunk_text_linked _ _ _ _ _ _ _ Hret Hc Hc') as [[_ Hrest] _].
  split; [exact Hrest|].
  apply overlap_boundary, Hco.
Qed.

Lemma overlap_tail_bound_example :
  let chunks := returned (chunk_text medium_chunker three_sentences (Some ∅)) in
  let c := nth_chunk chunks 0 in
  len (_get_overlap_text medium_chunker (text c)) <= 8
  /\ exists pre : str,
       text c = pre ++ _get_overlap_text medium_chunker (text c)
       /\ mid_word pre (_get_overlap_text medium_chunker (text c)) = false.
Proof.
  intros chunks c.
  destruct (overlap_tail_bound medium_chunker three_sentences (Some ∅) chunks
              0 c (nth_chunk chunks 1))
    as (_ & Hlen & (pre & Hpre & Hmid) & _).
  - vm_compute. discriminate.
  - vm_compute. reflexivity.
  - vm_compute. reflexivity.
  - vm_compute. reflexivity.
  - split; [exact Hlen|]. exists pre. split; [exact Hpre|].
    apply Hmid. right. vm_compute.
    apply list_elem_of_lookup. exists 5%nat. reflexivity.
Defined.

(** C5 as stated fails when the last [chunk_overlap] characters of a chunk
    hold no space: with [chunk_overlap = 3] the chunk ["Hello world."]
    hands ["ld."] over to the next chunk, which starts inside ["world."].
    (And with [chunk_overlap = 0] the slice [text[-0:]] is the whole chunk,
    whose overlap text ["world."] is longer than [chunk_overlap].) *)
Lemma overlap_starts_mid_word :
  let chunks := returned (chunk_text small_chunker two_sentences (Some ∅)) in
  let c := nth_chunk chunks 0 in
  let c' := nth_chunk chunks 1 in
  chunk_text small_chunker two_sentences (Some ∅) = Return [c; c']
  /\ text c = lit "Hello wor" ++ lit "ld."
  /\ _get_overlap_text small_chunker (text c) = lit "ld."
  /\ text c' = lit "ld. Bye."
  /\ mid_word (lit "Hello wor") (lit "ld.") = true
  /\ _get_overlap_text {| chunk_size := 10; chunk_overlap := 0 |} (text c)
     = lit "world.".
Proof. vm_compute. repeat split. Qed.

(** C6, as the code has it.  In the chunks that [chunk_text] returns, each
    chunk has [start_index <= end_index]; from a chunk to the next,
    [start_index] does not decrease; it increases when the earlier chunk
    has more than [chunk_overlap >= 1] characters, and it stays the same
    when the earlier chunk has at most [chunk_overlap] characters. *)
Theorem offsets_monotone (self : DocumentChunker) (text : str)
    (md : option (gmap string value)) (chunks : list Chunk) :
  chunk_text self text md = Return chunks ->
  (forall i c, chunks !! i = Some c -> start_index c <= end_index c)
  /\ (forall i c c',
        chunks !! i = Some c -> chunks !! S i = Some c' ->
        start_index c <= start_index c'
        /\ (1 <= chunk_overlap self < len (Chunking.text c) ->
            start_index c < start_index c')
        /\ (len (Chunking.text c) <= chunk_overlap self ->
            start_index c' = start_index c)).
Proof.
  intros Hret. split.
  - intros i c Hc.
    destruct (chunk_text_inv _ _ _ _ Hret) as [[_ ->]|(m & _ & _ & _ & Hwf & _)].
    + inversion Hc.
    + destruct (Hwf i c Hc) as (_ & -> & _).
      pose proof (len_nonneg (Chunking.text c)). lia.
  - intros i c c' Hc Hc'.
    destruct (chunk_text_linked _ _ _ _ _ _ _ Hret Hc Hc') as [[Hstart _] _].
    pose proof (overlap_len_le self (Chunking.text c)) as Hle.
    split; [lia|]. split.
    + intros Hco.
      destruct (overlap_boundary self (Chunking.text c)) as (Hbound & _); lia.
    + intros Hshort. rewrite Hstart. unfold _get_overlap_text.
      destruct (Z.leb_spec (len (Chunking.text c)) (chunk_overlap self)); lia.
Qed.

Lemma offsets_monotone_example :
  let chunks := returned (chunk_text medium_chunker three_sentences (Some ∅)) in
  start_index (nth_chunk chunks 0) < start_index (nth_chunk chunks 1)
  /\ start_index (nth_chunk chunks 1) <= start_index (nth_chunk chunks 2).
Proof.
  intros chunks.
  destruct (offsets_monotone medium_chunker three_sentences (Some ∅) chunks)
    as [_ H]; [vm_compute; reflexivity|].
  split.
  - apply (H 0%nat (nth_chunk chunks 0) (nth_chunk chunks 1));
      [vm_compute; reflexivity | vm_compute; reflexivity |].
    vm_compute. split; [discriminate | reflexivity].
  - apply (H 1%nat (nth_chunk chunks 1) (nth_chunk chunks 2));
      vm_compute; reflexivity.
Defined.

(** C6 as stated fails when a chunk is no longer than [chunk_overlap]: with
    [chunk_size = 20] and [chunk_overlap = 8] the second chunk ["b. Cc."]
    is carried over whole, and the third chunk starts at the same offset,
    16, as the second. *)
Lemma start_index_repeats :
  let chunks := returned (chunk_text medium_chunker three_sentences (Some ∅)) in
  let c0 := nth_chunk chunks 0 in
  let c1 := nth_chunk chunks 1 in
  let c2 := nth_chunk chunks 2 in
  chunk_text medium_chunker three_sentences (Some ∅) = Return [c0; c1; c2]
  /\ text c1 = lit "b. Cc."
  /\ text c2 = lit "b. Cc. Ddddddddddddddd."
  /\ start_index c0 = 0 /\ start_index c1 = 16 /\ start_index c2 = 16
  /\ ~ (start_index c1 < start_index c2).
Proof. vm_compute. repeat split. discriminate. Qed.

(** C7.  [chunk_text] returns the empty list exactly for a blank text (empty
    or whitespace only), whatever the metadata argument; and for a text
    that is not blank and a metadata dictionary [m], it returns a list of
    at least one chunk, where the chunk at position [i] has a text that is
    not empty and the metadata [m] with [chunk_index] set to [i]. *)
Theorem chunk_text_emptiness (self : DocumentChunker) (text : str) :
  (forall md, chunk_text self text md = Return [] <-> is_blank text = true)
  /\ (forall m : gmap string value,
        is_blank text = false ->
        exists chunks : list Chunk,
          chunk_text self text (Some m) = Return chunks
          /\ chunks <> []
          /\ forall i c, chunks !! i = Some c ->
               Chunking.text c <> []
               /\ metadata c = <["chunk_index" := VInt (Z.of_nat i)]> m).
Proof.
  split.
  - intros md. split.
    + intros Hret.
      destruct (chunk_text_inv _ _ _ _ Hret) as [[Hb _]|(m & _ & _ & Hne & _)];
        [exact Hb | congruence].
    + apply chunk_text_blank.
  - intros m Hnb.
    destruct (chunk_text_chunks self m text Hnb) as (chunks & Hret & Hne & Hwf & _).
    exists chunks. split; [exact Hret|]. split; [exact Hne|].
    intros i c Hc. destruct (Hwf i c Hc) as (Ht & _ & Hm & _).
    split; assumption.
Qed.

Lemma chunk_text_emptiness_example :
  chunk_text small_chunker (lit "   ") (Some ∅) = Return []
  /\ exists chunks : list Chunk,
       chunk_text small_chunker two_sentences (Some ∅) = Return chunks
       /\ chunks <> [].
Proof.
  destruct (chunk_text_emptiness small_chunker (lit "   ")) as [Hblank _].
  destruct (chunk_text_emptiness small_chunker two_sentences) as [_ Hsome].
  split.
  - apply Hblank. reflexivity.
  - destruct (Hsome ∅) as (chunks & Hret & Hne & _); [reflexivity|].
    exists chunks. split; assumption.
Defined.

(** C10.  For a text that is not blank, [chunk_text] called without
    metadata returns no chunk list: it raises when it emits its first chunk,
    which reads [metadata.get]. *)
Theorem chunk_text_without_metadata (self : DocumentChunker) (text : str) :
  is_blank text = false ->
  chunk_text self text None = Raise AttributeError.
Proof. apply chunk_text_none. Qed.

Lemma chunk_text_without_metadata_example :
  chunk_text small_chunker two_sentences None = Raise AttributeError.
Proof. apply chunk_text_without_metadata. reflexivity. Defined.

(** ** More on the retry loop *)

Lemma retry_loop_log (body : Z -> result Outcome) (n : Z) (m : nat) :
  forall (a : Z) (log log' : list event) (o : Outcome),
  retry_loop body n (seqZ a (Z.of_nat m)) log = (log', Return o) ->
  exists k : Z,
    a <= k < a + Z.of_nat m
    /\ body k = Return o
    /\ log' = log ++ (i ← seqZ a (k - a); [Attempt i; Sleep (2 ^ i)])
                   ++ [Attempt k].
Proof.
  induction m as [|m IH]; intros a log log' o Hrun.
  - discriminate.
  - rewrite seqZ_cons in Hrun by lia. cbn [retry_loop] in Hrun.
    destruct (body a) as [o'|e] eqn:Hbody.
    + injection Hrun as <- <-. exists a. split; [lia|]. split; [exact Hbody|].
      rewrite Z.sub_diag. reflexivity.
    + destruct (a =? n - 1); [discriminate|].
      replace (Z.pred (Z.of_nat (S m))) with (Z.of_nat m) in Hrun by lia.
      destruct (IH _ _ _ _ Hrun) as (k & Hk & Hok & ->).
      exists k. split; [lia|]. split; [exact Hok|].
      rewrite (seqZ_cons a (k - a)) by lia. cbn.
      replace (Z.pred (k - a)) with (k - Z.succ a) by lia.
      rewrite <- !app_assoc. reflexivity.
Qed.

Lemma retrieve_and_answer_returned
    (cfg : Config.Settings) (self : RetrievalService) (w : Services)
    (query : str) (top_k : option Z) (threshold : option Q) (inc : bool)
    (log : list event) (o : Outcome) :
  retrieve_and_answer cfg self w query top_k threshold inc = (log, Return o) ->
  exists k : Z,
    0 <= k < max_retries self
    /\ attempt_body w query (effective_top_k cfg top_k)
         (effective_threshold self threshold) inc k = Return o
    /\ log = backoff_log k ++ [Attempt k].
Proof.
  unfold retrieve_and_answer. intros Hrun.
  assert (Hseq : seqZ 0 (max_retries self)
                 = seqZ 0 (Z.of_nat (Z.to_nat (max_retries self)))).
  { unfold seqZ. rewrite Nat2Z.id. reflexivity. }
  rewrite Hseq in Hrun.
  apply retry_loop_log in Hrun as (k & Hk & Hok & ->).
  exists k. split; [lia|]. split; [exact Hok|].
  rewrite Z.sub_0_r. reflexivity.
Qed.

Lemma attempt_body_attempt (w : Services) (query : str) (top_k : Z) (thr : Q)
    (inc : bool) (attempt : Z) (o : Outcome) :
  attempt_body w query top_k thr inc attempt = Return o ->
  retrieval_metadata o !! "attempt" = Some (NInt (attempt + 1)).
Proof.
  intros Hret.
  destruct (attempt_body_inv _ _ _ _ _ _ _ Hret) as (emb & results & Hemb & Hq & _).
  destruct results as [|r0 rest].
  - unfold attempt_body in Hret. rewrite Hemb, bind_return, Hq, bind_return in Hret.
    injection Hret as <-. reflexivity.
  - rewrite (attempt_body_hits _ _ _ _ _ _ _ _ _ Hemb Hq) in Hret.
    destruct (generate_response _ _ _ _ _) as [a|e]; [|discriminate].
    rewrite bind_return in Hret.
    destruct (if inc then _ else _) as [cits|e]; [|discriminate].
    rewrite bind_return in Hret. injection Hret as <-. reflexivity.
Qed.

Lemma len_seqZ (a k : Z) : 0 <= k -> len (seqZ a k) = k.
Proof. intros Hk. unfold len. rewrite length_seqZ. lia. Qed.

(** X1.  The [attempt] of a returned outcome is the number of attempts that
    the call has made, and the call has slept once before each attempt but
    the first: [2^0], ..., [2^(attempt-2)] seconds. *)
Theorem attempt_counts_attempts
    (cfg : Config.Settings) (self : RetrievalService) (w : Services)
    (query : str) (top_k : option Z) (threshold : option Q) (inc : bool)
    (log : list event) (o : Outcome) :
  retrieve_and_answer cfg self w query top_k threshold inc = (log, Return o) ->
  let made := len (attempts_made log) in
  retrieval_metadata o !! "attempt" = Some (NInt made)
  /\ 1 <= made <= max_retries self
  /\ delays log = (fun i => 2 ^ i) <$> seqZ 0 (made - 1)
  /\ last log = Some (Attempt (made - 1)).
Proof.
  intros Hrun.
  apply retrieve_and_answer_returned in Hrun as (k & Hk & Hbody & ->).
  cbv zeta.
  rewrite attempts_made_app, attempts_made_backoff, len_app, len_seqZ by lia.
  change (len (attempts_made [Attempt k])) with 1.
  rewrite (attempt_body_attempt _ _ _ _ _ _ _ Hbody).
  split; [reflexivity|]. split; [lia|].
  rewrite delays_app, delays_backoff, last_snoc by lia.
  replace (k + 1 - 1) with k by lia.
  split; [apply app_nil_r | reflexivity].
Qed.

Lemma attempt_counts_attempts_example :
  exists o : Outcome,
    snd (retrieve_and_answer Config.settings (init Config.settings)
           (up_from 2 hits_sorted) (lit "q") None None true) = Return o
    /\ retrieval_metadata o !! "attempt" = Some (NInt 3).
Proof.
  set (run := retrieve_and_answer Config.settings (init Config.settings)
                (up_from 2 hits_sorted) (lit "q") None None true).
  assert (Hrun : run = (fst run, Return (outcome_of run)))
    by (vm_compute; reflexivity).
  destruct (attempt_counts_attempts _ _ _ _ _ _ _ _ _ Hrun) as (Ha & _).
  exists (outcome_of run). split; [rewrite Hrun at 1; reflexivity|].
  rewrite Ha. vm_compute. reflexivity.
Defined.

Lemma sum_shift (l : list Z) (b : Z) : foldr Z.add b l = foldr Z.add 0 l + b.
Proof. induction l as [|x l IH]; cbn; lia. Qed.

Lemma sum_pow2 (k : Z) :
  0 <= k -> foldr Z.add 0 ((fun i => 2 ^ i) <$> seqZ 0 k) = 2 ^ k - 1.
Proof.
  revert k. apply natlike_ind; [reflexivity|].
  intros k Hk IH. replace (Z.succ k) with (k + 1) by lia.
  rewrite seqZ_app, fmap_app, foldr_app by lia.
  change (seqZ (0 + k) 1) with [k]. cbn [fmap list_fmap foldr].
  rewrite sum_shift, IH, Z.pow_add_r by lia. lia.
Qed.

(** X2.  A call that returns at its [a]-th attempt has slept [2^(a-1) - 1]
    seconds in all; a call whose [n >= 1] attempts all raise has slept
    [2^(n-1) - 1] seconds before it raises. *)
Theorem total_backoff
    (cfg : Config.Settings) (self : RetrievalService) (w : Services)
    (query : str) (top_k : option Z) (threshold : option Q) (inc : bool) :
  let n := max_retries self in
  let body :=
    attempt_body w query (effective_top_k cfg top_k)
      (effective_threshold self threshold) inc in
  let run := retrieve_and_answer cfg self w query top_k threshold inc in
  (forall o : Outcome,
     snd run = Return o ->
     total_delay (fst run) = 2 ^ (len (attempts_made (fst run)) - 1) - 1)
  /\ (1 <= n ->
      (forall i, 0 <= i < n -> exists e, body i = Raise e) ->
      total_delay (fst run) = 2 ^ (n - 1) - 1).
Proof.
  intros n body run. split.
  - intros o Hret.
    assert (Hrun : run = (fst run, Return o)).
    { destruct run as [log r]. cbn in Hret. rewrite Hret. reflexivity. }
    apply retrieve_and_answer_returned in Hrun as (k & Hk & _ & Hlog).
    rewrite Hlog. unfold total_delay.
    rewrite delays_app, delays_backoff, attempts_made_app,
      attempts_made_backoff, len_app, len_seqZ by lia.
    change (len (attempts_made [Attempt k])) with 1.
    change (delays [Attempt k]) with (@nil Z).
    rewrite app_nil_r. replace (k + 1 - 1) with k by lia.
    apply sum_pow2. lia.
  - intros Hn Hfail.
    destruct (Hfail (n - 1)) as [e He]; [lia|].
    assert (Hrun : run = (backoff_log (n - 1) ++ [Attempt (n - 1)], Raise e)).
    { subst run. unfold retrieve_and_answer. fold n.
      rewrite (retry_loop_failures _ n (Z.to_nat (n - 1)) 0 n []); try lia.
      - rewrite Z2Nat.id by lia. rewrite Z.add_0_l.
        rewrite (seqZ_cons (n - 1) (n - (n - 1))) by lia.
        cbn [retry_loop app]. fold body. rewrite He, Z.eqb_refl. reflexivity.
      - intros i Hi. apply Hfail. lia. }
    rewrite Hrun. cbn [fst]. unfold total_delay.
    rewrite delays_app, delays_backoff by lia. cbn [delays mbind].
    change (delays [Attempt (n - 1)]) with (@nil Z).
    rewrite app_nil_r. apply sum_pow2. lia.
Qed.

Lemma total_backoff_example :
  total_delay
    (fst (retrieve_and_answer Config.settings (init Config.settings)
            embedding_down (lit "q") None None true)) = 3.
Proof.
  destruct (total_backoff Config.settings (init Config.settings)
              embedding_down (lit "q") None None true) as [_ H].
  apply H.
  - vm_compute. discriminate.
  - intros i _. eexists. reflexivity.
Defined.

(** ** More on citations *)

Lemma build_citations_inv (chunks : list ContextChunk) :
  forall acc out : list Citation,
  for_each
    (fun citations chunk =>
       t ← citation_text (cc_text chunk);
       Return (citations ++ [{|
         cit_document_id := cc_document_id chunk;
         cit_chunk_id := cc_chunk_id chunk;
         cit_text := t;
         cit_confidence_score := cc_score chunk;
         cit_metadata := cc_metadata chunk
       |}]))
    acc chunks = Return out ->
  exists cits : list Citation,
    out = acc ++ cits
    /\ Forall2 (fun c cit => exists s, cc_text c = VStr s /\ cited c s cit)
         chunks cits.
Proof.
  induction chunks as [|c chunks IH]; intros acc out Hret.
  - cbn in Hret. injection Hret as <-. exists [].
    rewrite app_nil_r. split; [reflexivity | constructor].
  - cbn [for_each] in Hret.
    destruct (cc_text c) as [s|n] eqn:Hs; [|discriminate].
    cbn [citation_text] in Hret. rewrite !bind_return in Hret.
    destruct (IH _ _ Hret) as (cits & -> & Hall).
    eexists (_ :: cits). rewrite <- app_assoc. split; [reflexivity|].
    constructor; [|exact Hall].
    exists s. split; [exact Hs|]. repeat split; cbn.
    + intros Hlen. destruct (Z.gtb_spec (len s) 200); [lia | reflexivity].
    + intros Hlen. destruct (Z.gtb_spec (len s) 200); [|lia].
      rewrite slice_to_take by lia. reflexivity.
Qed.

Lemma build_citations_raises (chunks : list ContextChunk) :
  Exists (fun c => exists n, cc_text c = VInt n) chunks ->
  forall acc : list Citation,
  for_each
    (fun citations chunk =>
       t ← citation_text (cc_text chunk);
       Return (citations ++ [{|
         cit_document_id := cc_document_id chunk;
         cit_chunk_id := cc_chunk_id chunk;
         cit_text := t;
         cit_confidence_score := cc_score chunk;
         cit_metadata := cc_metadata chunk
       |}]))
    acc chunks = Raise TypeError.
Proof.
  induction chunks as [|c chunks IH]; intros Hex acc; [inversion Hex|].
  cbn [for_each]. destruct (cc_text c) as [s|n] eqn:Hs.
  - cbn [citation_text]. rewrite !bind_return. apply IH.
    apply Exists_cons in Hex as [[n Hn]|Hex]; [congruence | exact Hex].
  - reflexivity.
Qed.

(** X3.  The texts of the chunks being strings or integers: when the text
    of some chunk is an integer, [_build_citations] raises a [TypeError],
    which is what [len] makes of an integer on line 140; when every text is
    a string it raises nothing and returns one citation per chunk. *)
Theorem build_citations_type_error (chunks : list ContextChunk) :
  (Exists (fun c => exists n, cc_text c = VInt n) chunks ->
   _build_citations chunks = Raise TypeError)
  /\ (Forall (fun c => exists s, cc_text c = VStr s) chunks ->
      exists cits : list Citation,
        _build_citations chunks = Return cits
        /\ length cits = length chunks).
Proof.
  split.
  - intros Hex. apply build_citations_raises, Hex.
  - intros Hall.
    destruct (build_citations_acc chunks Hall []) as (cits & Heq & Hcits).
    exists cits. split; [exact Heq|].
    symmetry. apply (Forall2_length _ _ _ Hcits).
Qed.

Lemma build_citations_type_error_example :
  _build_citations
    (List.map context_chunk [scored "a" (9 # 10); numbered "b" (8 # 10)])
  = Raise TypeError
  /\ exists cits : list Citation,
       _build_citations
         (List.map context_chunk [scored "a" (9 # 10); scored "b" (8 # 10)])
       = Return cits
       /\ length cits = 2%nat.
Proof.
  split.
  - apply build_citations_type_error.
    apply Exists_cons. right. apply Exists_cons. left. exists 42. reflexivity.
  - apply (build_citations_type_error
             (List.map context_chunk [scored "a" (9 # 10); scored "b" (8 # 10)])).
    repeat constructor; eexists; reflexivity.
Defined.

(** X4.  The citations name their hits: the citation at each position has
    the id, the score and the metadata of the hit at that position, the
    [document_id] given by the metadata of the hit (the empty string when it
    has none), and a text cut from the text of the hit. *)
Theorem citations_follow_hits (hits : list Hit) (cits : list Citation) :
  _build_citations (List.map context_chunk hits) = Return cits ->
  Forall2
    (fun r cit =>
       cit_chunk_id cit = hit_id r
       /\ cit_confidence_score cit = hit_score r
       /\ cit_metadata cit = hit_metadata r
       /\ cit_document_id cit = dict_get (hit_metadata r) "document_id" (VStr [])
       /\ exists s t : str,
            hit_text r = VStr s /\ cit_text cit = VStr t
            /\ take 200 t = take 200 s)
    hits cits.
Proof.
  intros Hret.
  apply build_citations_inv in Hret as (cits' & Heq & Hall).
  cbn in Heq. subst cits'.
  apply Forall2_fmap_l in Hall.
  eapply Forall2_impl; [exact Hall|].
  intros r cit (s & Hs & Hd & Hi & Hc & Hm & Hshort & Hlong).
  repeat (split; [assumption|]).
  exists s. destruct (Z.le_gt_cases (len s) 200) as [Hle|Hgt].
  - exists s. repeat split; [exact Hs | exact (Hshort Hle)].
  - exists (take 200 s ++ lit "..."). split; [exact Hs|].
    split; [apply Hlong; lia|].
    rewrite take_app_le, take_take; [f_equal; lia|].
    unfold len in Hgt. rewrite length_take. lia.
Qed.

Lemma citations_follow_hits_example :
  exists cits : list Citation,
    _build_citations (List.map context_chunk hits_sorted) = Return cits
    /\ List.map cit_chunk_id cits = [lit "a"; lit "b"; lit "c"].
Proof.
  destruct (build_citations_acc (List.map context_chunk hits_sorted))
    with (acc := @nil Citation) as (cits & Hret & _).
  { repeat constructor; eexists; reflexivity. }
  exists cits. split; [exact Hret|].
  pose proof (citations_follow_hits hits_sorted cits Hret) as Hall.
  unfold hits_sorted in Hall.
  apply Forall2_cons_inv_l in Hall as (c1 & l1 & (H1 & _) & Hall & ->).
  apply Forall2_cons_inv_l in Hall as (c2 & l2 & (H2 & _) & Hall & ->).
  apply Forall2_cons_inv_l in Hall as (c3 & l3 & (H3 & _) & Hall & ->).
  apply Forall2_nil_inv_l in Hall as ->.
  cbn [List.map]. rewrite H1, H2, H3. reflexivity.
Defined.

(** ** More on the outcome of a call *)

Lemma filter_sublist {A : Type} (f : A -> bool) (l : list A) :
  List.filter f l `sublist_of` l.
Proof.
  induction l as [|x l IH]; cbn; [constructor|].
  destruct (f x); by constructor.
Qed.

Lemma filter_all {A : Type} (f : A -> bool) (l : list A) :
  Forall (fun x => f x = true) (List.filter f l).
Proof.
  induction l as [|x l IH]; cbn; [constructor|].
  destruct (f x) eqn:Hx; [by constructor | exact IH].
Qed.

Lemma filter_keeps_Forall {A : Type} (P : A -> Prop) (f : A -> bool)
    (l : list A) :
  Forall P l -> Forall P (List.filter f l).
Proof.
  induction 1 as [|x l Hx _ IH]; cbn; [constructor|].
  destruct (f x); [by constructor | exact IH].
Qed.

(** The hits that an attempt keeps. *)
Lemma select_kept (thr : Q) (r0 : Hit) (rest : list Hit) :
  let kept := fst (select thr r0 rest) in
  let reported := snd (select thr r0 rest) in
  kept `sublist_of` (r0 :: rest)
  /\ 1 <= len kept <= len (r0 :: rest)
  /\ (Forall (fun r => meets thr r = true) kept \/ kept = [r0])
  /\ Forall (fun r => (hit_score r <= reported)%Q) kept.
Proof.
  intros kept reported.
  destruct (meets_dichotomy thr (r0 :: rest)) as [Hsome|Hnone].
  - subst kept reported. rewrite select_filtered by assumption. cbn [fst snd].
    pose proof (filter_sublist (meets thr) (r0 :: rest)) as Hsub.
    split; [exact Hsub|]. split; [|split].
    + apply sublist_length in Hsub. apply filter_some in Hsome.
      unfold len. destruct (List.filter _ _); [discriminate|]. cbn in *. lia.
    + left. apply filter_all.
    + destruct (max_or_zero_is_maximum (hit_score r0) (List.map hit_score rest))
        as [_ Hmax].
      apply (proj1 (List.Forall_map hit_score _ (r0 :: rest))) in Hmax.
      apply filter_keeps_Forall, Hmax.
  - subst kept reported. rewrite select_fallback by assumption. cbn [fst snd].
    split; [|split; [|split]].
    + constructor. apply sublist_nil_l.
    + unfold len. cbn. lia.
    + right. reflexivity.
    + constructor; [apply Qle_refl | constructor].
Qed.

(** What an attempt returns for the hits [r0 :: rest]. *)
Lemma attempt_body_kept (w : Services) (query : str) (top_k : Z) (thr : Q)
    (inc : bool) (attempt : Z) (emb : list Q) (r0 : Hit) (rest : list Hit)
    (o : Outcome) :
  generate_embedding w attempt query = Return emb ->
  query_vectors w attempt emb top_k = Return (r0 :: rest) ->
  attempt_body w query top_k thr inc attempt = Return o ->
  let kept := fst (select thr r0 rest) in
  confidence_score o = snd (select thr r0 rest)
  /\ retrieval_metadata o !! "retrieval_count" = Some (NInt (len kept))
  /\ retrieval_metadata o !! "total_retrieved" = Some (NInt (len (r0 :: rest)))
  /\ (if inc
      then _build_citations (List.map context_chunk kept) = Return (citations o)
      else citations o = []).
Proof.
  intros Hemb Hq Hret kept.
  rewrite (attempt_body_hits _ _ _ _ _ _ _ _ _ Hemb Hq) in Hret.
  destruct (generate_response _ _ _ _ _) as [a|e]; [|discriminate].
  rewrite bind_return in Hret. fold kept in Hret.
  destruct inc.
  - destruct (_build_citations (List.map context_chunk kept)) as [cits|e];
      [|discriminate].
    rewrite bind_return in Hret. injection Hret as <-. repeat split.
  - rewrite bind_return in Hret. injection Hret as <-. repeat split.
Qed.

(** X5.  In a returned outcome [retrieval_count] is the number of citations
    when citations are asked for, and there is no citation when they are
    not; when hits were retrieved, [retrieval_count] lies between 1 and
    [total_retrieved]; when none was, it is 0 and [total_retrieved] is
    absent. *)
Theorem retrieval_counts
    (cfg : Config.Settings) (self : RetrievalService) (w : Services)
    (query : str) (top_k : option Z) (threshold : option Q) (inc : bool)
    (log : list event) (o : Outcome) :
  retrieve_and_answer cfg self w query top_k threshold inc = (log, Return o) ->
  exists count : Z,
    retrieval_metadata o !! "retrieval_count" = Some (NInt count)
    /\ (inc = true -> len (citations o) = count)
    /\ (inc = false -> citations o = [])
    /\ ((count = 0 /\ retrieval_metadata o !! "total_retrieved" = None)
        \/ exists total : Z,
             retrieval_metadata o !! "total_retrieved" = Some (NInt total)
             /\ 1 <= count <= total).
Proof.
  intros Hrun.
  apply retrieve_and_answer_returned in Hrun as (k & _ & Hbody & _).
  destruct (attempt_body_inv _ _ _ _ _ _ _ Hbody)
    as (emb & results & Hemb & Hq & Hres).
  destruct results as [|r0 rest].
  - subst o. exists 0. repeat split. left. split; reflexivity.
  - destruct (attempt_body_kept _ _ _ _ _ _ _ _ _ _ Hemb Hq Hbody)
      as (_ & Hcount & Htotal & Hcits).
    destruct (select_kept (effective_threshold self threshold) r0 rest)
      as (_ & Hlen & _).
    eexists. split; [exact Hcount|]. split; [|split].
    + intros ->. apply build_citations_inv in Hcits as (cits & Heq & Hall).
      cbn in Heq. subst cits. apply Forall2_fmap_l in Hall.
      unfold len. rewrite (Forall2_length _ _ _ Hall). reflexivity.
    + intros ->. exact Hcits.
    + right. eexists. split; [exact Htotal | exact Hlen].
Qed.

Lemma retrieval_counts_example :
  exists o : Outcome,
    snd (retrieve_and_answer Config.settings (init Config.settings)
           (always hits_sorted) (lit "q") None (Some (3 # 10)) true) = Return o
    /\ retrieval_metadata o !! "retrieval_count" = Some (NInt 2)
    /\ len (citations o) = 2.
Proof.
  set (run := retrieve_and_answer Config.settings (init Config.settings)
                (always hits_sorted) (lit "q") None (Some (3 # 10)) true).
  assert (Hrun : run = (fst run, Return (outcome_of run)))
    by (vm_compute; reflexivity).
  destruct (retrieval_counts _ _ _ _ _ _ _ _ _ Hrun) as (count & Hc & Hn & _).
  exists (outcome_of run). split; [rewrite Hrun at 1; reflexivity|].
  assert (count = 2) as ->.
  { assert (retrieval_metadata (outcome_of run) !! "retrieval_count"
            = Some (NInt 2)) as H2 by (vm_compute; reflexivity).
    congruence. }
  split; [exact Hc | apply Hn; reflexivity].
Defined.

(** X6.  In a returned outcome no citation has a confidence above the
    [confidence_score] of the outcome, and either every citation has a
    confidence that reaches the effective threshold or there is one citation
    at most (the fallback). *)
Theorem citations_within_confidence
    (cfg : Config.Settings) (self : RetrievalService) (w : Services)
    (query : str) (top_k : option Z) (threshold : option Q) (inc : bool)
    (log : list event) (o : Outcome) :
  retrieve_and_answer cfg self w query top_k threshold inc = (log, Return o) ->
  Forall (fun cit => (cit_confidence_score cit <= confidence_score o)%Q)
    (citations o)
  /\ (Forall
        (fun cit =>
           citation_meets (effective_threshold self threshold) cit = true)
        (citations o)
      \/ (length (citations o) <= 1)%nat).
Proof.
  intros Hrun.
  apply retrieve_and_answer_returned in Hrun as (k & _ & Hbody & _).
  destruct (attempt_body_inv _ _ _ _ _ _ _ Hbody)
    as (emb & results & Hemb & Hq & Hres).
  destruct results as [|r0 rest].
  - subst o. split; [constructor | left; constructor].
  - destruct (attempt_body_kept _ _ _ _ _ _ _ _ _ _ Hemb Hq Hbody)
      as (Hconf & _ & _ & Hcits).
    destruct (select_kept (effective_threshold self threshold) r0 rest)
      as (_ & _ & Hmeet & Hle).
    destruct inc; [|rewrite Hcits; split; [constructor | left; constructor]].
    apply build_citations_inv in Hcits as (cits & Heq & Hall).
    cbn in Heq. subst cits. apply Forall2_fmap_l in Hall.
    rewrite Hconf. split.
    + eapply Forall2_Forall_r; [exact Hall|].
      eapply Forall_impl; [exact Hle|].
      intros r Hr cit (s & _ & _ & _ & -> & _). exact Hr.
    + destruct Hmeet as [Hmeet|Hone].
      * left. eapply Forall2_Forall_r; [exact Hall|].
        eapply Forall_impl; [exact Hmeet|].
        intros r Hr cit (s & _ & _ & _ & Hsc & _).
        unfold citation_meets. rewrite Hsc. exact Hr.
      * right. rewrite <- (Forall2_length _ _ _ Hall), Hone. cbn. lia.
Qed.

Lemma citations_within_confidence_example :
  exists o : Outcome,
    snd (retrieve_and_answer Config.settings (init Config.settings)
           (always hits_unsorted) (lit "q") None (Some (3 # 10)) true) = Return o
    /\ Forall (fun cit => (cit_confidence_score cit <= confidence_score o)%Q)
         (citations o).
Proof.
  set (run := retrieve_and_answer Config.settings (init Config.settings)
                (always hits_unsorted) (lit "q") None (Some (3 # 10)) true).
  assert (Hrun : run = (fst run, Return (outcome_of run)))
    by (vm_compute; reflexivity).
  destruct (citations_within_confidence _ _ _ _ _ _ _ _ _ Hrun) as (H & _).
  exists (outcome_of run). split; [rewrite Hrun at 1; reflexivity | exact H].
Defined.

(** X7.  With [max_retries <= 0] the call makes no attempt, calls no
    collaborator, and raises [Exception("Max retries exceeded")]. *)
Theorem no_attempt_without_budget
    (cfg : Config.Settings) (self : RetrievalService) (w : Services)
    (query : str) (top_k : option Z) (threshold : option Q) (inc : bool) :
  max_retries self <= 0 ->
  retrieve_and_answer cfg self w query top_k threshold inc
  = ([], Raise (Exception "Max retries exceeded")).
Proof.
  intros Hn. unfold retrieve_and_answer, seqZ.
  replace (Z.to_nat (max_retries self)) with 0%nat by lia. reflexivity.
Qed.

Lemma no_attempt_without_budget_example :
  retrieve_and_answer Config.settings
    {| confidence_threshold := 7 # 10; max_retries := 0 |}
    (always hits_sorted) (lit "q") None None true
  = ([], Raise (Exception "Max retries exceeded")).
Proof. apply no_attempt_without_budget. reflexivity. Defined.

(** ** More on joined sentences *)

Lemma join_cons (sep x : str) (l : list str) :
  l <> [] -> join sep (x :: l) = x ++ sep ++ join sep l.
Proof. destruct l; [congruence | reflexivity]. Qed.

Lemma join_snoc (sep s : str) (l : list str) :
  l <> [] -> join sep (l ++ [s]) = join sep l ++ sep ++ s.
Proof.
  induction l as [|x l IH]; [congruence|]. intros _.
  destruct l as [|y l].
  - reflexivity.
  - change ((x :: y :: l) ++ [s]) with (x :: ((y :: l) ++ [s])).
    rewrite join_cons by (destruct l; discriminate).
    rewrite IH by discriminate.
    rewrite (join_cons sep x (y :: l)) by discriminate.
    rewrite <- !app_assoc. reflexivity.
Qed.

Lemma len_join_snoc (sep s : str) (l : list str) :
  l <> [] -> len (join sep (l ++ [s])) = len (join sep l) + len sep + len s.
Proof. intros Hl. rewrite join_snoc, !len_app by exact Hl. lia. Qed.

Lemma len_join_prefix (sep : str) (l2 : list str) : forall l1 : list str,
  len (join sep l1) <= len (join sep (l1 ++ l2)).
Proof.
  induction l2 as [|s l2 IH]; intros l1.
  - rewrite app_nil_r. lia.
  - specialize (IH (l1 ++ [s])). rewrite <- app_assoc in IH. cbn [app] in IH.
    destruct l1 as [|x l1].
    + pose proof (len_nonneg (join sep (s :: l2))). cbn in *. unfold len at 1. cbn. lia.
    + rewrite len_join_snoc in IH by discriminate.
      pose proof (len_nonneg sep). pose proof (len_nonneg s). lia.
Qed.

Lemma len_lit_space : len (lit " ") = 1.
Proof. reflexivity. Qed.

(** ** The groups of sentences of the chunks *)

Lemma next_seed_cons (self : DocumentChunker) (pre : list str) (t : str)
    (texts : list str) :
  next_seed self pre (t :: texts)
  = next_seed self (seed (_get_overlap_text self t)) texts.
Proof.
  unfold next_seed. destruct texts as [|t' texts]; [reflexivity|].
  rewrite last_cons_cons.
  destruct (last (t' :: texts)) eqn:Hl; [reflexivity|].
  apply last_None in Hl. discriminate.
Qed.

Lemma texts_from_snoc (self : DocumentChunker) (parts : list (list str)) :
  forall (pre : list str) (p : list str),
  texts_from self pre (parts ++ [p])
  = texts_from self pre parts
      ++ [join (lit " ") (next_seed self pre (texts_from self pre parts) ++ p)].
Proof.
  induction parts as [|q parts IH]; intros pre p; [reflexivity|].
  cbn [app texts_from]. rewrite IH, next_seed_cons. reflexivity.
Qed.

Lemma next_seed_snoc (self : DocumentChunker) (pre : list str)
    (texts : list str) (t : str) :
  next_seed self pre (texts ++ [t]) = seed (_get_overlap_text self t).
Proof. unfold next_seed. rewrite last_snoc. reflexivity. Qed.

Lemma len_join_seed (o s : str) :
  len (join (lit " ") (seed o ++ [s]))
  <= (if truthy o then len o else 0) + len s + 1.
Proof.
  unfold seed. destruct o as [|a o]; cbn [truthy app join].
  - lia.
  - change (a :: o ++ lit " " ++ s) with ((a :: o) ++ lit " " ++ s).
    rewrite !len_app, len_lit_space. lia.
Qed.

Section cover.

Variable self : DocumentChunker.
Variable m : gmap string value.

Lemma cover_inv_init : cover_inv self locals0 [] [] [].
Proof.
  split; cbn; try reflexivity; try constructor; try congruence; try lia.
Qed.

(** Closing the buffer into a chunk. *)
Lemma cover_close (st : locals) (done : list str) (parts : list (list str))
    (cur : list str) (c : Chunk) :
  cover_inv self st done parts cur -> cur <> [] ->
  text c = join (lit " ") (current_chunk st) ->
  start_index c = start st ->
  done = concat (parts ++ [cur])
  /\ Forall (fun p => p <> []) (parts ++ [cur])
  /\ List.map text (chunks st ++ [c]) = texts_from self [] (parts ++ [cur])
  /\ (forall c0, head (chunks st ++ [c]) = Some c0 -> start_index c0 = 0)
  /\ Forall2
       (fun c0 part =>
          len (text c0) <= chunk_size self + 1 \/ length part = 1%nat)
       (chunks st ++ [c]) (parts ++ [cur]).
Proof.
  intros [Hdone Hparts Htexts Hbuf Hcur Hstart Hfirst Hlen Hjoin Hsize Hcsize]
    Hne Htext Hidx.
  split; [|split; [|split; [|split]]].
  - rewrite Hdone, concat_app. cbn. rewrite app_nil_r. reflexivity.
  - apply Forall_app. split; [exact Hparts | by constructor].
  - rewrite map_app, texts_from_snoc, <- Htexts, <- Hbuf.
    cbn [List.map]. rewrite Htext. reflexivity.
  - intros c0 Hc0. destruct (chunks st) as [|c1 l] eqn:Hch.
    + cbn in Hc0. injection Hc0 as <-. rewrite Hidx. apply Hstart. reflexivity.
    + apply Hfirst. exact Hc0.
  - apply Forall2_app; [exact Hsize|].
    constructor; [|constructor]. rewrite Htext. apply Hcsize, Hne.
Qed.

Lemma step_cover (st : locals) (done : list str) (parts : list (list str))
    (cur : list str) (sentence : str) :
  cover_inv self st done parts cur ->
  exists (st' : locals) (parts' : list (list str)) (cur' : list str),
    step self (Some m) st sentence = Return st'
    /\ cover_inv self st' (done ++ [sentence]) parts' cur'
    /\ cur' <> [].
Proof.
  intros Hinv. unfold step.
  destruct ((current_length st + len sentence >? chunk_size self)
            && truthy (current_chunk st)) eqn:Hclose.
  - apply andb_true_iff in Hclose as [_ Hne]. apply truthy_true in Hne.
    assert (Hcne : cur <> []).
    { intros Hc. apply Hne, (cov_cur _ _ _ _ _ Hinv), Hc. }
    cbn [emit]. rewrite !bind_return.
    set (t := join (lit " ") (current_chunk st)).
    set (c := {| chunk_id := _; text := t |}).
    destruct (cover_close st done parts cur c Hinv Hcne eq_refl eq_refl)
      as (Hdone & Hparts & Htexts & Hfirst & Hsize).
    eexists _, (parts ++ [cur]), [sentence].
    split; [reflexivity|]. split; [|discriminate].
    split; cbn [chunks start next_id current_chunk current_length].
    + rewrite Hdone. reflexivity.
    + exact Hparts.
    + exact Htexts.
    + rewrite map_app. cbn [List.map]. rewrite next_seed_snoc. reflexivity.
    + discriminate.
    + intros Hnil. destruct (chunks st); discriminate.
    + exact Hfirst.
    + pose proof (len_nonneg (_get_overlap_text self t)).
      pose proof (len_nonneg sentence).
      destruct (truthy _); lia.
    + intros _. apply len_join_seed.
    + exact Hsize.
    + intros _. right. reflexivity.
  - rewrite !bind_return.
    destruct Hinv as [Hdone Hparts Htexts Hbuf Hcur Hstart Hfirst Hlen Hjoin
                        Hsize Hcsize].
    eexists _, parts, (cur ++ [sentence]).
    split; [reflexivity|]. split; [|destruct cur; discriminate].
    pose proof (len_nonneg sentence) as Hs.
    split; cbn [chunks start next_id current_chunk current_length];
      try assumption.
    + rewrite Hdone, app_assoc. reflexivity.
    + rewrite Hbuf, app_assoc. reflexivity.
    + intros Hnil. destruct cur; discriminate.
    + lia.
    + intros _. destruct (current_chunk st) as [|b buf] eqn:Hb.
      * cbn [app join]. lia.
      * rewrite len_join_snoc, len_lit_space by discriminate.
        specialize (Hjoin ltac:(discriminate)). lia.
    + intros _. destruct (current_chunk st) as [|b buf] eqn:Hb.
      * right. destruct cur as [|x cur]; [reflexivity|].
        destruct (next_seed self [] (List.map text (chunks st))); discriminate.
      * left. rewrite len_join_snoc, len_lit_space by discriminate.
        specialize (Hjoin ltac:(discriminate)).
        cbn [truthy] in Hclose. rewrite andb_true_r in Hclose.
        destruct (Z.gtb_spec (current_length st + len sentence) (chunk_size self));
          [discriminate | lia].
Qed.

Lemma for_each_cover (sentences : list str) :
  forall (st : locals) (done : list str) (parts : list (list str))
    (cur : list str),
  cover_inv self st done parts cur ->
  exists (st' : locals) (parts' : list (list str)) (cur' : list str),
    for_each (step self (Some m)) st sentences = Return st'
    /\ cover_inv self st' (done ++ sentences) parts' cur'
    /\ (cur <> [] \/ sentences <> [] -> cur' <> []).
Proof.
  induction sentences as [|s sentences IH]; intros st done parts cur Hinv.
  - exists st, parts, cur. rewrite app_nil_r.
    split; [reflexivity|]. split; [exact Hinv|]. intros [H|H]; congruence.
  - destruct (step_cover st done parts cur s Hinv)
      as (st1 & parts1 & cur1 & Hstep & Hinv1 & Hcur1).
    destruct (IH st1 _ _ _ Hinv1) as (st' & parts' & cur' & Hloop & Hinv' & Hcur').
    exists st', parts', cur'. cbn [for_each]. rewrite Hstep, bind_return.
    split; [exact Hloop|]. rewrite <- app_assoc in Hinv'.
    split; [exact Hinv'|]. intros _. apply Hcur'. left. exact Hcur1.
Qed.

End cover.

(** ** More on the sentences *)

(** The pieces of the split hold characters of the text only. *)
Lemma re_split_go_chars (s : str) :
  forall (after_punct in_sep : bool) (p : str) (c : ascii),
  p ∈ re_split_go after_punct in_sep s -> c ∈ p -> c ∈ s.
Proof.
  induction s as [|a s IH]; intros ap sep p c Hp Hc.
  - cbn in Hp. apply list_elem_of_singleton in Hp as ->. inversion Hc.
  - cbn [re_split_go] in Hp.
    destruct (is_space a && (sep || ap)).
    + constructor 2.
      destruct sep.
      * eapply IH; eassumption.
      * apply elem_of_cons in Hp as [->|Hp]; [inversion Hc|].
        eapply IH; eassumption.
    + destruct (re_split_go (is_end_punct a) false s) as [|p0 ps] eqn:Hgo.
      * apply list_elem_of_singleton in Hp as ->.
        apply list_elem_of_singleton in Hc as ->. by constructor.
      * apply elem_of_cons in Hp as [->|Hp].
        -- apply elem_of_cons in Hc as [->|Hc]; [by constructor|].
           constructor 2. eapply (IH (is_end_punct a) false p0).
           ++ rewrite Hgo. by constructor.
           ++ exact Hc.
        -- constructor 2. eapply (IH (is_end_punct a) false p).
           ++ rewrite Hgo. by constructor 2.
           ++ exact Hc.
Qed.

Lemma is_blank_forall (s : str) :
  is_blank s = true <-> forall c, c ∈ s -> is_space c = true.
Proof.
  unfold is_blank. rewrite forallb_forall. split.
  - intros H c Hc. apply H, list_elem_of_In, Hc.
  - intros H c Hc. apply H, list_elem_of_In, Hc.
Qed.

Lemma split_sentences_blank (text : str) :
  is_blank text = true -> _split_sentences text = [].
Proof.
  intros Hb. unfold _split_sentences, re_split_sentences.
  assert (Hall : Forall (fun p => is_blank p = true)
                   (re_split_go false false text)).
  { apply Forall_forall. intros p Hp. apply is_blank_forall. intros c Hc.
    apply (proj1 (is_blank_forall text) Hb).
    eapply re_split_go_chars; eassumption. }
  induction Hall as [|p ps Hp _ IH]; [reflexivity|].
  cbn. rewrite (strip_blank p Hp). exact IH.
Qed.

Lemma lstrip_head (s : str) (c : ascii) :
  head (lstrip s) = Some c -> is_space c = false.
Proof.
  induction s as [|a s IH]; [discriminate|].
  cbn [lstrip]. destruct (is_space a) eqn:Ha; [exact IH|].
  cbn. intros [= <-]. exact Ha.
Qed.

Lemma last_rev {A : Type} (l : list A) : last (rev l) = head l.
Proof. destruct l as [|x l]; [reflexivity|]. cbn [rev]. apply last_snoc. Qed.

Lemma strip_stripped (s : str) : strip s <> [] -> stripped (strip s).
Proof.
  intros Hne. split; [exact Hne|]. split.
  - intros c. apply lstrip_head.
  - intros c Hc. unfold strip in *.
    destruct (lstrip_split (rstrip s)) as (pre & Heq & _).
    assert (last (rstrip s) = Some c) as Hl.
    { rewrite Heq, last_app, Hc. reflexivity. }
    unfold rstrip in Hl. rewrite last_rev in Hl.
    eapply lstrip_head, Hl.
Qed.

(** X9.  Every sentence that [_split_sentences] returns is not empty and has
    no whitespace at either end, and there is no sentence at all exactly
    when the text is blank. *)
Theorem sentences_are_stripped (text : str) :
  Forall stripped (_split_sentences text)
  /\ (_split_sentences text = [] <-> is_blank text = true).
Proof.
  split.
  - unfold _split_sentences.
    induction (re_split_sentences text) as [|p ps IH]; [constructor|].
    cbn. destruct (truthy (strip p)) eqn:Hp; [|exact IH].
    constructor; [apply strip_stripped, truthy_true, Hp | exact IH].
  - split.
    + intros Hnil. destruct (is_blank text) eqn:Hb; [reflexivity|].
      apply split_sentences_some in Hb. contradiction.
    + apply split_sentences_blank.
Qed.

(** ** More on the chunks *)

Lemma chunk_text_cover (self : DocumentChunker) (m : gmap string value)
    (text : str) (chunks : list Chunk) :
  chunk_text self text (Some m) = Return chunks ->
  exists parts : list (list str),
    concat parts = _split_sentences text
    /\ Forall (fun p => p <> []) parts
    /\ List.map Chunking.text chunks = texts_from self [] parts
    /\ (forall c, head chunks = Some c -> start_index c = 0)
    /\ Forall2
         (fun c part =>
            len (Chunking.text c) <= chunk_size self + 1
            \/ length part = 1%nat)
         chunks parts.
Proof.
  intros Hret. destruct (is_blank text) eqn:Hb.
  - rewrite chunk_text_blank in Hret by exact Hb. injection Hret as <-.
    exists []. rewrite split_sentences_blank by exact Hb.
    repeat split; try constructor. discriminate.
  - unfold chunk_text in Hret. rewrite blank_test, Hb in Hret. cbv iota in Hret.
    destruct (for_each_cover self m (_split_sentences text) locals0 [] [] []
                (cover_inv_init self)) as (st & parts & cur & Hloop & Hinv & Hcur).
    specialize (Hcur (or_intror (split_sentences_some text Hb))).
    rewrite Hloop, bind_return in Hret.
    assert (Hbuf : current_chunk st <> []).
    { rewrite (cov_buffer _ _ _ _ _ Hinv). destruct cur; [congruence|].
      destruct (next_seed _ _ _); discriminate. }
    apply truthy_true in Hbuf. rewrite Hbuf in Hret.
    cbn [emit] in Hret. rewrite bind_return in Hret. injection Hret as <-.
    match goal with |- context [chunks st ++ [?c0]] => set (c := c0) end.
    destruct (cover_close self st _ parts cur c Hinv Hcur eq_refl eq_refl)
      as (Hdone & Hparts & Htexts & Hfirst & Hsize).
    exists (parts ++ [cur]). cbn [app] in Hdone.
    split; [symmetry; exact Hdone|]. repeat (split; [assumption|]). exact Hsize.
Qed.

(** X10.  The chunks of a text share out its sentences: the sentences fall
    into consecutive groups that are not empty, one group per chunk and in
    order; the text of the first chunk is its group joined by single spaces,
    and the text of every later chunk is the overlap text of the chunk
    before it (when that is not empty) and its group, joined by single
    spaces. *)
Theorem chunks_cover_sentences (self : DocumentChunker)
    (m : gmap string value) (text : str) (chunks : list Chunk) :
  chunk_text self text (Some m) = Return chunks ->
  exists parts : list (list str),
    concat parts = _split_sentences text
    /\ Forall (fun p => p <> []) parts
    /\ List.map Chunking.text chunks = texts_from self [] parts.
Proof.
  intros Hret.
  destruct (chunk_text_cover self m text chunks Hret)
    as (parts & Hcat & Hne & Htexts & _).
  exists parts. repeat split; assumption.
Qed.

Lemma chunks_cover_sentences_example :
  exists parts : list (list str),
    concat parts = _split_sentences three_sentences
    /\ List.map Chunking.text
         (returned (chunk_text medium_chunker three_sentences (Some ∅)))
       = texts_from medium_chunker [] parts.
Proof.
  destruct (chunks_cover_sentences medium_chunker ∅ three_sentences
              (returned (chunk_text medium_chunker three_sentences (Some ∅))))
    as (parts & Hcat & _ & Htexts); [vm_compute; reflexivity|].
  exists parts. split; assumption.
Defined.

(** X11.  A chunk has more than [chunk_size + 1] characters only when its
    group holds a single sentence: the buffer is closed before a sentence
    that would take it beyond [chunk_size], and a sentence is never cut. *)
Theorem chunk_length_bound (self : DocumentChunker)
    (m : gmap string value) (text : str) (chunks : list Chunk) :
  chunk_text self text (Some m) = Return chunks ->
  exists parts : list (list str),
    concat parts = _split_sentences text
    /\ List.map Chunking.text chunks = texts_from self [] parts
    /\ Forall2
         (fun c part =>
            len (Chunking.text c) <= chunk_size self + 1
            \/ length part = 1%nat)
         chunks parts.
Proof.
  intros Hret.
  destruct (chunk_text_cover self m text chunks Hret)
    as (parts & Hcat & _ & Htexts & _ & Hsize).
  exists parts. repeat split; assumption.
Qed.

Lemma chunk_length_bound_example :
  exists parts : list (list str),
    concat parts = _split_sentences three_sentences
    /\ Forall2
         (fun c part => len (text c) <= 21 \/ length part = 1%nat)
         (returned (chunk_text medium_chunker three_sentences (Some ∅))) parts.
Proof.
  destruct (chunk_length_bound medium_chunker ∅ three_sentences
              (returned (chunk_text medium_chunker three_sentences (Some ∅))))
    as (parts & Hcat & _ & Hsize); [vm_compute; reflexivity|].
  exists parts. split; assumption.
Defined.

(** X12.  The first chunk starts at offset 0, and every chunk ends
    [len(text)] characters after its start. *)
Theorem first_chunk_at_zero (self : DocumentChunker) (text : str)
    (md : option (gmap string value)) (chunks : list Chunk) :
  chunk_text self text md = Return chunks ->
  (forall c, head chunks = Some c -> start_index c = 0)
  /\ (forall i c, chunks !! i = Some c ->
        end_index c - start_index c = len (Chunking.text c)).
Proof.
  intros Hret.
  destruct (chunk_text_inv _ _ _ _ Hret) as [[_ ->]|(m & -> & _ & _ & Hwf & _)].
  - split; [discriminate | intros i c H; inversion H].
  - destruct (chunk_text_cover self m text chunks Hret)
      as (_ & _ & _ & _ & Hfirst & _).
    split; [exact Hfirst|].
    intros i c Hc. destruct (Hwf i c Hc) as (_ & -> & _). lia.
Qed.

Lemma first_chunk_at_zero_example :
  start_index
    (nth_chunk (returned (chunk_text small_chunker two_sentences (Some ∅))) 0)
  = 0.
Proof.
  destruct (first_chunk_at_zero small_chunker two_sentences (Some ∅)
              (returned (chunk_text small_chunker two_sentences (Some ∅))))
    as [H _]; [vm_compute; reflexivity|].
  apply H. vm_compute. reflexivity.
Defined.

Lemma lit_inj (s1 s2 : string) : lit s1 = lit s2 -> s1 = s2.
Proof.
  unfold lit. intros H.
  rewrite <- (string_of_list_ascii_of_string s1),
          <- (string_of_list_ascii_of_string s2), H.
  reflexivity.
Qed.

Lemma str_of_int_inj (i j : Z) : str_of_int i = str_of_int j -> i = j.
Proof. unfold str_of_int. intros H. apply lit_inj in H. by apply (inj pretty). Qed.

(** X13.  The chunk at position [i] has the id ["<document_id>_<i>"], where
    [<document_id>] is the [document_id] of the caller's metadata (["doc"]
    when it has none), and the [chunk_index] [i]; so no two chunks of a call
    have the same id. *)
Theorem chunk_ids_distinct (self : DocumentChunker) (m : gmap string value)
    (text : str) (chunks : list Chunk) :
  chunk_text self text (Some m) = Return chunks ->
  NoDup (List.map chunk_id chunks)
  /\ forall (i : nat) (c : Chunk), chunks !! i = Some c ->
       chunk_id c
       = format (dict_get m "document_id" (VStr (lit "doc")))
           ++ lit "_" ++ str_of_int (Z.of_nat i)
       /\ metadata c !! "chunk_index" = Some (VInt (Z.of_nat i)).
Proof.
  intros Hret.
  assert (Hwf : forall i c, chunks !! i = Some c -> chunk_wf m i c).
  { destruct (chunk_text_inv _ _ _ _ Hret) as [[_ ->]|(m' & Hm & _ & _ & H & _)].
    - intros i c H. inversion H.
    - injection Hm as <-. exact H. }
  split.
  - change (List.map chunk_id chunks) with (chunk_id <$> chunks).
    apply NoDup_alt. intros i j x Hi Hj.
    rewrite list_lookup_fmap in Hi, Hj.
    destruct (chunks !! i) as [ci|] eqn:Hci; [|discriminate].
    destruct (chunks !! j) as [cj|] eqn:Hcj; [|discriminate].
    cbn in Hi, Hj.
    destruct (Hwf i ci Hci) as (_ & _ & _ & Hidi).
    destruct (Hwf j cj Hcj) as (_ & _ & _ & Hidj).
    assert (Heq : chunk_id ci = chunk_id cj) by congruence.
    rewrite Hidi, Hidj in Heq.
    apply app_inv_head, app_inv_head, str_of_int_inj in Heq. lia.
  - intros i c Hc. destruct (Hwf i c Hc) as (_ & _ & Hmd & Hid).
    split; [exact Hid|]. rewrite Hmd. apply lookup_insert_eq.
Qed.

Lemma chunk_ids_distinct_example :
  NoDup
    (List.map chunk_id
       (returned (chunk_text medium_chunker three_sentences (Some ∅)))).
Proof.
  apply (chunk_ids_distinct medium_chunker ∅ three_sentences).
  vm_compute. reflexivity.
Defined.

(** ** A text that fits in one chunk *)

Section one_chunk.

Variable self : DocumentChunker.
Variable md : option (gmap string value).

Lemma step_open (st : locals) (done : list str) (sentence : str) :
  open_inv st done ->
  len (join (lit " ") (done ++ [sentence])) <= chunk_size self ->
  exists st' : locals,
    step self md st sentence = Return st'
    /\ open_inv st' (done ++ [sentence]).
Proof.
  intros [Hch Hbuf Hstart Hid Hlen] Hfit. unfold step.
  assert (Hcond : (current_length st + len sentence >? chunk_size self)
                  && truthy (current_chunk st) = false).
  { rewrite Hbuf, Hlen. destruct done as [|x done]; [apply andb_false_r|].
    rewrite len_join_snoc, len_lit_space in Hfit by discriminate.
    apply andb_false_iff. left.
    destruct (Z.gtb_spec (len (join (lit " ") (x :: done)) + 1 + len sentence)
                (chunk_size self)); [lia | reflexivity]. }
  rewrite Hcond, !bind_return.
  eexists. split; [reflexivity|].
  split; cbn [chunks start next_id current_chunk current_length];
    try assumption.
  - rewrite Hbuf. reflexivity.
  - rewrite Hlen. destruct done as [|x done].
    + cbn [app join]. lia.
    + change ((x :: done) ++ [sentence]) with (x :: (done ++ [sentence])).
      destruct (done ++ [sentence]) as [|y l] eqn:Hd;
        [destruct done; discriminate|].
      rewrite <- Hd.
      change (x :: (done ++ [sentence])) with ((x :: done) ++ [sentence]).
      rewrite len_join_snoc, len_lit_space by discriminate. lia.
Qed.

Lemma for_each_open (sentences : list str) : forall (st : locals) (done : list str),
  open_inv st done ->
  len (join (lit " ") (done ++ sentences)) <= chunk_size self ->
  exists st' : locals,
    for_each (step self md) st sentences = Return st'
    /\ open_inv st' (done ++ sentences).
Proof.
  induction sentences as [|s sentences IH]; intros st done Hinv Hfit.
  - exists st. rewrite app_nil_r. split; [reflexivity | exact Hinv].
  - replace (done ++ s :: sentences) with ((done ++ [s]) ++ sentences) in *
      by (rewrite <- app_assoc; reflexivity).
    pose proof (len_join_prefix (lit " ") sentences (done ++ [s])) as Hpre.
    destruct (step_open st done s Hinv ltac:(lia)) as (st1 & Hstep & Hinv1).
    destruct (IH st1 _ Hinv1 Hfit) as (st' & Hloop & Hinv').
    exists st'. cbn [for_each]. rewrite Hstep, bind_return.
    split; [exact Hloop | exact Hinv'].
Qed.

End one_chunk.

(** X14.  When the sentences of a text that is not blank, joined by single
    spaces, have at most [chunk_size] characters, [chunk_text] returns one
    chunk: its text is the joined sentences, it spans the offsets [0] to
    [len(text)], and its [chunk_index] is 0. *)
Theorem short_text_one_chunk (self : DocumentChunker) (m : gmap string value)
    (text : str) :
  is_blank text = false ->
  len (join (lit " ") (_split_sentences text)) <= chunk_size self ->
  exists c : Chunk,
    chunk_text self text (Some m) = Return [c]
    /\ Chunking.text c = join (lit " ") (_split_sentences text)
    /\ start_index c = 0
    /\ end_index c = len (Chunking.text c)
    /\ metadata c = <["chunk_index" := VInt 0]> m.
Proof.
  intros Hnb Hfit. unfold chunk_text. rewrite blank_test, Hnb. cbv iota.
  destruct (for_each_open self (Some m) (_split_sentences text) locals0 [])
    as (st & Hloop & [Hch Hbuf Hstart Hid _]).
  { split; reflexivity. }
  { exact Hfit. }
  rewrite Hloop, bind_return. cbn [app] in Hbuf.
  pose proof (split_sentences_some text Hnb) as Hne.
  rewrite <- Hbuf in Hne. apply truthy_true in Hne. rewrite Hne.
  cbn [emit]. rewrite bind_return, Hch, Hbuf, Hstart, Hid.
  eexists. split; [reflexivity|]. repeat split.
Qed.

Lemma short_text_one_chunk_example :
  exists c : Chunk,
    chunk_text medium_chunker two_sentences (Some ∅) = Return [c]
    /\ text c = lit "Hello world. Bye.".
Proof.
  destruct (short_text_one_chunk medium_chunker ∅ two_sentences)
    as (c & Hret & Ht & _).
  - reflexivity.
  - vm_compute. discriminate.
  - exists c. split; [exact Hret|]. rewrite Ht. reflexivity.
Defined.

(** ** No overlap configured *)

Lemma overlap_zero (self : DocumentChunker) (t : str) :
  chunk_overlap self = 0 -> t <> [] ->
  _get_overlap_text self t
  = (if find " " t >? 0 then drop (S (Z.to_nat (find " " t))) t else t).
Proof.
  intros Hco Hne. unfold _get_overlap_text. rewrite Hco.
  assert (0 < len t) as Hlen by (unfold len; destruct t; [congruence | cbn; lia]).
  destruct (Z.leb_spec (len t) 0); [lia|].
  assert (Hw : slice_from t (- 0) = t).
  { unfold slice_from, slice_index. cbn [Z.opp Z.ltb Z.compare].
    rewrite Z.min_l by lia. reflexivity. }
  rewrite Hw. pose proof (find_bounds " " t) as Hb.
  destruct (Z.gtb_spec (find " " t) 0); [|reflexivity].
  unfold slice_from, slice_index.
  destruct (Z.ltb_spec (find " " t + 1) 0); [lia|].
  f_equal. lia.
Qed.

(** X15.  [chunk_overlap = 0] does not switch the overlap off, the slice
    [text[-0:]] being the whole chunk.  With [find] the index of the first
    space of a chunk ([-1] when it has none), the overlap text of the chunk
    is what follows that space when [find > 0], and the whole chunk when
    [find <= 0], that is when the chunk has no space or begins with one.  In
    that second case the chunk is repeated whole at the head of the next
    chunk, which starts at the same offset. *)
Theorem zero_overlap_repeats (self : DocumentChunker) (text : str)
    (md : option (gmap string value)) (chunks : list Chunk) (i : nat)
    (c c' : Chunk) :
  chunk_overlap self = 0 ->
  chunk_text self text md = Return chunks ->
  chunks !! i = Some c -> chunks !! S i = Some c' ->
  let t := Chunking.text c in
  _get_overlap_text self t
  = (if find " " t >? 0 then drop (S (Z.to_nat (find " " t))) t else t)
  /\ (find " " t <= 0 ->
      _get_overlap_text self t = t
      /\ start_index c' = start_index c
      /\ exists rest : list str,
           rest <> [] /\ Chunking.text c' = join (lit " ") (t :: rest)).
Proof.
  intros Hco Hret Hc Hc' t.
  assert (Hne : t <> []).
  { destruct (chunk_text_inv _ _ _ _ Hret) as [[_ ->]|(m & _ & _ & _ & Hwf & _)].
    - inversion Hc.
    - destruct (Hwf i c Hc) as (H & _). exact H. }
  pose proof (overlap_zero self t Hco Hne) as Ho.
  split; [exact Ho|]. intros Hno.
  destruct (chunk_text_linked _ _ _ _ _ _ _ Hret Hc Hc')
    as [[Hstart (rest & Hrest & Htext)] _].
  fold t in Hstart, Htext.
  assert (Hwhole : _get_overlap_text self t = t).
  { rewrite Ho. destruct (Z.gtb_spec (find " " t) 0) as [Hpos|]; [|reflexivity].
    lia. }
  split; [exact Hwhole|].
  rewrite Hwhole in Hstart, Htext.
  split; [lia|]. exists rest. split; [exact Hrest|].
  rewrite Htext. unfold seed.
  assert (truthy t = true) as -> by (apply truthy_true, Hne). reflexivity.
Qed.

(** A chunk without a space, and a chunk that begins with a space: each is
    the whole of its overlap text, and the chunk after it starts where it
    starts. *)
Lemma zero_overlap_repeats_example :
  (let chunks :=
     returned (chunk_text no_overlap_chunker (lit "Aaaaaaaa. Bbbbbbbb.") (Some ∅)) in
   Chunking.text (nth_chunk chunks 0) = lit "Aaaaaaaa."
   /\ start_index (nth_chunk chunks 1) = start_index (nth_chunk chunks 0))
  /\ (let chunks :=
        returned (chunk_text no_overlap_chunker (lit "a  b. Cc. Dd. Ee.") (Some ∅)) in
      Chunking.text (nth_chunk chunks 1) = lit " b. Cc. Dd."
      /\ _get_overlap_text no_overlap_chunker (lit " b. Cc. Dd.")
         = lit " b. Cc. Dd."
      /\ start_index (nth_chunk chunks 2) = start_index (nth_chunk chunks 1)).
Proof.
  split; intros chunks.
  - destruct (zero_overlap_repeats no_overlap_chunker (lit "Aaaaaaaa. Bbbbbbbb.")
                (Some ∅) chunks 0 (nth_chunk chunks 0) (nth_chunk chunks 1))
      as [_ H];
      [reflexivity | vm_compute; reflexivity | vm_compute; reflexivity
      | vm_compute; reflexivity |].
    destruct H as (_ & H & _); [vm_compute; discriminate|].
    split; [vm_compute; reflexivity | exact H].
  - destruct (zero_overlap_repeats no_overlap_chunker (lit "a  b. Cc. Dd. Ee.")
                (Some ∅) chunks 1 (nth_chunk chunks 1) (nth_chunk chunks 2))
      as [_ H];
      [reflexivity | vm_compute; reflexivity | vm_compute; reflexivity
      | vm_compute; reflexivity |].
    destruct H as (Ho & H & _); [vm_compute; discriminate|].
    split; [vm_compute; reflexivity|]. split; [exact Ho | exact H].
Defined.

(** ** The hits of a ChromaDB answer *)

Lemma attempt_bind_done {A B : Type} (a : A) (k : A -> attempt B) :
  (Done a ≫= k) = k a.
Proof. reflexivity. Qed.

Lemma item_middle {A : Type} (l1 l2 : list A) (x : A) :
  item (l1 ++ x :: l2) (length l1) = Done x.
Proof. unfold item. rewrite list_lookup_middle by reflexivity. reflexivity. Qed.

Lemma item_beyond {A : Type} (l : list A) (i : nat) :
  (length l <= i)%nat -> item l i = Failed IndexError.
Proof. intros H. unfold item. rewrite lookup_ge_None_2 by exact H. reflexivity. Qed.

(** The loop of [chroma_hits] from the index [length pre_ids] on, when the
    three rows go on with [ids], [ds] and [mds]. *)
Lemma chroma_hits_from (ids : list str) :
  forall (ds : list Q) (mds : list (gmap string value))
    (pre_ids : list str) (pre_ds : list Q)
    (pre_mds : list (gmap string value)) (acc : list Hit),
  length pre_ds = length pre_ids -> length pre_mds = length pre_ids ->
  for_all
    (fun hits i =>
       id ← item (pre_ids ++ ids) i;
       distance ← item (pre_ds ++ ds) i;
       md ← item (pre_mds ++ mds) i;
       Done (hits ++ [{|
         hit_id := id;
         hit_score := (1 - distance)%Q;
         hit_metadata := md
       |}]))
    acc (seq (length pre_ids) (length ids))
  = if decide (length ids <= length ds /\ length ids <= length mds)%nat
    then Done (acc ++ List.map chroma_hit (zip3 ids ds mds))
    else Failed IndexError.
Proof.
  induction ids as [|id ids IH]; intros ds mds pre_ids pre_ds pre_mds acc Hd Hm.
  - cbn. rewrite app_nil_r. destruct (decide _) as [_|H]; [reflexivity|].
    exfalso. apply H. split; lia.
  - cbn [length seq for_all]. rewrite item_middle, attempt_bind_done.
    destruct ds as [|d ds].
    { rewrite (item_beyond (pre_ds ++ []) (length pre_ids))
        by (rewrite length_app; cbn; lia).
      destruct (decide _) as [[H _]|_]; [cbn in H; lia | reflexivity]. }
    rewrite <- Hd, item_middle, attempt_bind_done, Hd.
    destruct mds as [|md mds].
    { rewrite (item_beyond (pre_mds ++ []) (length pre_ids))
        by (rewrite length_app; cbn; lia).
      destruct (decide _) as [[_ H]|_]; [cbn in H; lia | reflexivity]. }
    rewrite <- Hm, item_middle, !attempt_bind_done, Hm.
    replace (S (length pre_ids)) with (length (pre_ids ++ [id]))
      by (rewrite length_app; cbn; lia).
    replace (pre_ids ++ id :: ids) with ((pre_ids ++ [id]) ++ ids)
      by (rewrite <- app_assoc; reflexivity).
    replace (pre_ds ++ d :: ds) with ((pre_ds ++ [d]) ++ ds)
      by (rewrite <- app_assoc; reflexivity).
    replace (pre_mds ++ md :: mds) with ((pre_mds ++ [md]) ++ mds)
      by (rewrite <- app_assoc; reflexivity).
    rewrite IH by (rewrite !length_app; cbn; lia).
    cbn [length zip3 List.map chroma_hit].
    destruct (decide (length ids <= length ds /\ length ids <= length mds)%nat)
      as [H|H];
    destruct (decide (S (length ids) <= S (length ds)
                      /\ S (length ids) <= S (length mds))%nat) as [H'|H'];
      try lia.
    + rewrite <- app_assoc. reflexivity.
    + reflexivity.
Qed.

Lemma chroma_hits_spec (results : VectorDB.ChromaResult) :
  VectorDB.chroma_hits results
  = if decide (length (VectorDB.ids0 results)
                 <= length (VectorDB.distances0 results)
               /\ length (VectorDB.ids0 results)
                 <= length (VectorDB.metadatas0 results))%nat
    then Done (List.map chroma_hit
                 (zip3 (VectorDB.ids0 results) (VectorDB.distances0 results)
                    (VectorDB.metadatas0 results)))
    else Failed IndexError.
Proof.
  unfold VectorDB.chroma_hits.
  exact (chroma_hits_from (VectorDB.ids0 results) (VectorDB.distances0 results)
           (VectorDB.metadatas0 results) [] [] [] [] eq_refl eq_refl).
Qed.

Lemma zip3_scores_descending (ids : list str) :
  forall (ds : list Q) (mds : list (gmap string value)),
  length ds = length ids -> length mds = length ids ->
  ascending ds = true ->
  descending (List.map hit_score (List.map chroma_hit (zip3 ids ds mds))) = true
  /\ List.map hit_id (List.map chroma_hit (zip3 ids ds mds)) = ids.
Proof.
  induction ids as [|id ids IH]; intros ds mds Hd Hm Hasc.
  - split; reflexivity.
  - destruct ds as [|d ds]; [discriminate|].
    destruct mds as [|md mds]; [discriminate|].
    cbn in Hd, Hm.
    assert (Htail : ascending ds = true).
    { destruct ds as [|d' ds]; [reflexivity|].
      cbn in Hasc. apply andb_true_iff in Hasc as [_ H]. exact H. }
    destruct (IH ds mds ltac:(lia) ltac:(lia) Htail) as [Hdesc Hids].
    cbn [zip3 List.map chroma_hit hit_id hit_score].
    split; [|rewrite Hids; reflexivity].
    destruct ids as [|id' ids]; [destruct ds; [|discriminate]; reflexivity|].
    destruct ds as [|d' ds]; [discriminate|].
    destruct mds as [|md' mds]; [discriminate|].
    cbn [zip3 List.map chroma_hit hit_score descending] in *.
    rewrite Hdesc, andb_true_r.
    cbn [ascending] in Hasc. apply andb_true_iff in Hasc as [Hle _].
    apply Qle_bool_iff in Hle. apply Qle_bool_iff.
    unfold Qminus. apply Qplus_le_compat; [apply Qle_refl|].
    apply Qopp_le_compat, Hle.
Qed.

(** X16.  With ChromaDB, [query_vectors] turns the rows of the answer into
    hits in the order of the answer, with the similarity [1 - distance]: when
    the three rows have the same length and the distances ascend, the hits
    carry the ids of the answer and their scores descend, which is the
    order that the fallback of the retriever relies on.  When the row of
    distances or of metadata is shorter than the row of ids, the call raises
    an [IndexError]. *)
Theorem chroma_hits_descend (results : VectorDB.ChromaResult) :
  let ids := VectorDB.ids0 results in
  let ds := VectorDB.distances0 results in
  let mds := VectorDB.metadatas0 results in
  (length ds = length ids -> length mds = length ids ->
   exists hits : list Hit,
     VectorDB.chroma_hits results = Done hits
     /\ List.map hit_id hits = ids
     /\ List.map hit_score hits = List.map (fun d => (1 - d)%Q) ds
     /\ (ascending ds = true -> descending (List.map hit_score hits) = true))
  /\ ((length ds < length ids)%nat \/ (length mds < length ids)%nat ->
      VectorDB.chroma_hits results = Failed IndexError).
Proof.
  intros ids ds mds. split.
  - intros Hd Hm. rewrite chroma_hits_spec. fold ids ds mds.
    destruct (decide _) as [_|H]; [|lia].
    eexists. split; [reflexivity|].
    assert (Hscores : List.map hit_score (List.map chroma_hit (zip3 ids ds mds))
                      = List.map (fun d => (1 - d)%Q) ds
                      /\ List.map hit_id (List.map chroma_hit (zip3 ids ds mds))
                         = ids).
    { clearbody ids ds mds. revert ds mds Hd Hm.
      induction ids as [|id ids IH]; intros ds mds Hd Hm.
      - destruct ds; [split; reflexivity | discriminate].
      - destruct ds as [|d ds]; [discriminate|].
        destruct mds as [|md mds]; [discriminate|].
        cbn in Hd, Hm.
        destruct (IH ds mds ltac:(lia) ltac:(lia)) as [H1 H2].
        cbn [zip3 List.map chroma_hit hit_id hit_score].
        rewrite H1, H2. split; reflexivity. }
    destruct Hscores as [Hs Hi].
    split; [exact Hi|]. split; [exact Hs|].
    intros Hasc. apply zip3_scores_descending; assumption.
  - intros Hshort. rewrite chroma_hits_spec. fold ids ds mds.
    destruct (decide _) as [H|_]; [lia | reflexivity].
Qed.

Lemma chroma_hits_descend_example :
  (exists hits : list Hit,
     VectorDB.chroma_hits two_neighbours = Done hits
     /\ descending (List.map hit_score hits) = true)
  /\ VectorDB.chroma_hits short_distances = Failed IndexError.
Proof.
  split.
  - destruct (chroma_hits_descend two_neighbours) as [H _].
    destruct H as (hits & Hret & _ & _ & Hdesc); [reflexivity | reflexivity |].
    exists hits. split; [exact Hret | apply Hdesc; reflexivity].
  - apply chroma_hits_descend. left. cbn. lia.
Defined.

(** ** The batches of [generate_embeddings] *)

Lemma range_step_positive (stop step : Z) :
  1 <= step ->
  range_step stop step
  = Done (List.map (fun k => Z.of_nat k * step)
            (seq 0 (Z.to_nat ((stop + step - 1) / step)))).
Proof.
  intros Hs. unfold range_step.
  destruct (Z.eqb_spec step 0); [lia|].
  destruct (Z.ltb_spec 0 step); [reflexivity | lia].
Qed.

Lemma slice_batch {A : Type} (l : list A) (i b : Z) :
  0 <= i -> 1 <= b ->
  slice l i (i + b) = take (Z.to_nat b) (drop (Z.to_nat i) l).
Proof.
  intros Hi Hb. unfold slice, slice_index.
  destruct (Z.ltb_spec i 0); [lia|].
  destruct (Z.ltb_spec (i + b) 0); [lia|].
  pose proof (len_nonneg l) as Hn. unfold len in *.
  destruct (Z.le_gt_cases (Z.of_nat (length l)) i) as [Hout|Hin].
  - rewrite !Z.min_r by lia. rewrite Z.sub_diag.
    rewrite (drop_ge l (Z.to_nat i)) by lia.
    rewrite take_nil. reflexivity.
  - rewrite (Z.min_l i) by lia.
    destruct (Z.le_gt_cases (i + b) (Z.of_nat (length l))).
    + rewrite Z.min_l by lia. f_equal. lia.
    + rewrite Z.min_r by lia.
      rewrite !take_ge; [reflexivity | |]; rewrite length_drop; lia.
Qed.

Lemma concat_takes {A : Type} (l : list A) (b : nat) (k : nat) :
  concat (List.map (fun j => take b (drop (j * b) l)) (seq 0 k))
  = take (k * b) l.
Proof.
  induction k as [|k IH]; [reflexivity|].
  rewrite seq_S, map_app, concat_app, IH. cbn [List.map concat Nat.add].
  rewrite app_nil_r, take_take_drop. f_equal. lia.
Qed.

Lemma batches_as_takes (texts : list str) (b : Z) (k : nat) :
  1 <= b ->
  Embedding.batches texts b (List.map (fun j => Z.of_nat j * b) (seq 0 k))
  = List.map (fun j => take (Z.to_nat b) (drop (j * Z.to_nat b) texts))
      (seq 0 k).
Proof.
  intros Hb. unfold Embedding.batches. rewrite List.map_map.
  apply List.map_ext. intros j.
  rewrite slice_batch by lia. do 2 f_equal. lia.
Qed.

Lemma batch_count (n b : Z) :
  0 <= n -> 1 <= b ->
  let count := (n + b - 1) / b in
  0 <= count /\ count * b < n + b /\ n <= count * b.
Proof.
  intros Hn Hb count.
  pose proof (Z.mul_div_le (n + b - 1) b ltac:(lia)) as Hle.
  pose proof (Z.mul_succ_div_gt (n + b - 1) b ltac:(lia)) as Hgt.
  fold count in Hle, Hgt.
  assert (0 <= count) by (apply Z.div_pos; lia).
  clearbody count. split; [assumption|]. split; lia.
Qed.

(** The slices [texts[i:i+batch_size]] at the offsets of
    [range(0, len(texts), batch_size)], for [batch_size >= 1]: put end to end
    they are the texts, none is empty, and none has more than [batch_size]
    texts. *)
Lemma batches_cut (texts : list str) (batch_size : Z) :
  1 <= batch_size ->
  exists offsets : list Z,
    range_step (len texts) batch_size = Done offsets
    /\ concat (Embedding.batches texts batch_size offsets) = texts
    /\ Forall (fun batch => 1 <= len batch <= batch_size)
         (Embedding.batches texts batch_size offsets).
Proof.
  intros Hb. rewrite range_step_positive by exact Hb.
  eexists. split; [reflexivity|].
  destruct (batch_count (len texts) batch_size (len_nonneg texts) Hb)
    as (Hc0 & Hlast & Hall).
  set (count := (len texts + batch_size - 1) / batch_size) in *.
  clearbody count.
  rewrite batches_as_takes by exact Hb. unfold len in *. split.
  - rewrite concat_takes. apply take_ge.
    assert (Z.of_nat (Z.to_nat count * Z.to_nat batch_size)
            = count * batch_size)
      by (rewrite Nat2Z.inj_mul, !Z2Nat.id; lia).
    lia.
  - apply Forall_forall. intros batch Hin.
    apply list_elem_of_In, in_map_iff in Hin as (j & <- & Hj).
    apply in_seq in Hj.
    rewrite length_take, length_drop.
    assert (Hp : Z.of_nat (j * Z.to_nat batch_size) = Z.of_nat j * batch_size)
      by (rewrite Nat2Z.inj_mul, Z2Nat.id; lia).
    assert (Hlt : Z.of_nat j * batch_size < Z.of_nat (length texts)) by nia.
    lia.
Qed.

Lemma batches_concat (texts : list str) (batch_size : Z) :
  1 <= batch_size ->
  exists offsets : list Z,
    range_step (len texts) batch_size = Done offsets
    /\ concat (Embedding.batches texts batch_size offsets) = texts.
Proof.
  intros Hb. rewrite range_step_positive by exact Hb.
  eexists. split; [reflexivity|].
  destruct (batch_count (len texts) batch_size (len_nonneg texts) Hb)
    as (Hc0 & _ & Hall).
  set (count := (len texts + batch_size - 1) / batch_size) in *.
  clearbody count.
  rewrite batches_as_takes, concat_takes by exact Hb.
  apply take_ge. unfold len in *.
  assert (Z.of_nat (Z.to_nat count * Z.to_nat batch_size) = count * batch_size)
    by (rewrite Nat2Z.inj_mul, !Z2Nat.id; lia).
  lia.
Qed.

Lemma for_all_batches (create : Z -> list str -> attempt (list Embedding.vector))
    (f : str -> Embedding.vector) (texts : list str) (b : Z)
    (offsets : list Z) :
  (forall i batch, create i batch = Done (List.map f batch)) ->
  forall acc : list Embedding.vector,
  for_all
    (fun embeddings i =>
       batch_embeddings ← create i (slice texts i (i + b));
       Done (embeddings ++ batch_embeddings))
    acc offsets
  = Done (acc ++ List.map f (concat (Embedding.batches texts b offsets))).
Proof.
  intros Hcreate. induction offsets as [|i offsets IH]; intros acc.
  - cbn. rewrite app_nil_r. reflexivity.
  - cbn [for_all]. rewrite Hcreate, !attempt_bind_done, IH.
    cbn [Embedding.batches List.map concat].
    rewrite map_app, app_assoc. reflexivity.
Qed.

Lemma for_all_map {A B S : Type} (g : A -> B) (body : S -> B -> attempt S)
    (l : list A) : forall st : S,
  for_all body st (List.map g l) = for_all (fun s a => body s (g a)) st l.
Proof.
  induction l as [|a l IH]; intros st; [reflexivity|].
  cbn [List.map for_all]. destruct (body st (g a)) as [st'|e]; [|reflexivity].
  rewrite !attempt_bind_done. apply IH.
Qed.

(** X17.  With the provider ["openai"] and [batch_size >= 1],
    [generate_embeddings] is one call of the client after the other, its
    results put end to end, over a list of calls that the texts and the batch
    size determine, whatever the client answers: the calls are at the offsets
    [0], [batch_size], [2 * batch_size], ..., each with the batch
    [texts[i:i+batch_size]] of its offset [i]; there are
    [ceil(len(texts) / batch_size)] of them; no batch is empty, none has more
    than [batch_size] texts, and the batches put end to end are the
    texts. *)
Theorem batches_partition (texts : list str) (batch_size : Z) :
  1 <= batch_size ->
  exists calls : list (Z * list str),
    (forall create : Z -> list str -> attempt (list Embedding.vector),
       Embedding.generate_embeddings
         {| Embedding._client := Embedding.OpenAI create |} texts batch_size
       = for_all
           (fun embeddings call =>
              batch_embeddings ← create (fst call) (snd call);
              Done (embeddings ++ batch_embeddings))
           [] calls)
    /\ length calls = Z.to_nat ((len texts + batch_size - 1) / batch_size)
    /\ List.map fst calls
       = List.map (fun j => Z.of_nat j * batch_size) (seq 0 (length calls))
    /\ Forall
         (fun call =>
            snd call = slice texts (fst call) (fst call + batch_size)
            /\ 1 <= len (snd call) <= batch_size)
         calls
    /\ concat (List.map snd calls) = texts.
Proof.
  intros Hb.
  destruct (batches_cut texts batch_size Hb) as (offsets & Hr & Hc & Hall).
  pose proof Hr as Hoff.
  rewrite (range_step_positive _ _ Hb) in Hoff. injection Hoff as Hoff.
  exists (List.map (fun i => (i, slice texts i (i + batch_size))) offsets).
  split; [|split; [|split; [|split]]].
  - intros create. unfold Embedding.generate_embeddings.
    destruct texts as [|t texts].
    + destruct offsets as [|i offsets]; [reflexivity|].
      apply Forall_cons in Hall as [Hlen _].
      cbn [Embedding.batches List.map concat] in Hc.
      apply app_eq_nil in Hc as [Hc _]. rewrite Hc in Hlen.
      unfold len in Hlen. cbn in Hlen. lia.
    + cbn [truthy negb Embedding._client].
      rewrite Hr, attempt_bind_done. cbv zeta.
      rewrite for_all_map. reflexivity.
  - rewrite length_map, <- Hoff, length_map, length_seq. reflexivity.
  - rewrite List.map_map, length_map. cbn [fst].
    rewrite List.map_id. rewrite <- Hoff at 1.
    rewrite <- Hoff, length_map, length_seq. reflexivity.
  - apply List.Forall_map. unfold Embedding.batches in Hall.
    apply List.Forall_map in Hall.
    eapply List.Forall_impl; [|exact Hall].
    intros i Hi. cbn [fst snd]. split; [reflexivity | exact Hi].
  - rewrite List.map_map. exact Hc.
Qed.

(** Five texts in batches of two: three calls, at the offsets 0, 2 and 4,
    with two, two and one text. *)
Lemma batches_partition_example :
  exists calls : list (Z * list str),
    (forall create : Z -> list str -> attempt (list Embedding.vector),
       Embedding.generate_embeddings
         {| Embedding._client := Embedding.OpenAI create |} five_texts 2
       = for_all
           (fun embeddings call =>
              batch_embeddings ← create (fst call) (snd call);
              Done (embeddings ++ batch_embeddings))
           [] calls)
    /\ calls
       = [(0, [lit "a"; lit "bb"]); (2, [lit "ccc"; lit "dddd"]);
          (4, [lit "eeeee"])].
Proof.
  destruct (batches_partition five_texts 2)
    as (calls & Hrun & Hlen & Hfst & Hall & Hc); [lia|].
  exists calls. split; [exact Hrun|].
  change (length calls = 3%nat) in Hlen.
  destruct calls as [|[i0 b0] [|[i1 b1] [|[i2 b2] [|c3 calls]]]];
    try discriminate.
  cbn in Hfst. injection Hfst as -> -> ->.
  apply Forall_cons in Hall as [[H0 _] Hall].
  apply Forall_cons in Hall as [[H1 _] Hall].
  apply Forall_cons in Hall as [[H2 _] _].
  cbn [fst snd] in H0, H1, H2. subst b0 b1 b2.
  vm_compute. reflexivity.
Defined.

(** X18.  With the provider ["openai"] and [batch_size >= 1], when the client
    answers each batch with one vector per text and in order (the vector [f
    text] for the text [text]), [generate_embeddings] returns one vector
    per text and in order, whatever the number of batches. *)
Theorem embeddings_align
    (create : Z -> list str -> attempt (list Embedding.vector))
    (f : str -> Embedding.vector) (texts : list str) (batch_size : Z) :
  1 <= batch_size ->
  (forall i batch, create i batch = Done (List.map f batch)) ->
  Embedding.generate_embeddings
    {| Embedding._client := Embedding.OpenAI create |} texts batch_size
  = Done (List.map f texts).
Proof.
  intros Hb Hcreate. unfold Embedding.generate_embeddings.
  destruct texts as [|t texts]; [reflexivity|].
  cbn [truthy negb Embedding._client].
  destruct (batches_concat (t :: texts) batch_size Hb) as (offsets & Hr & Hc).
  rewrite Hr, attempt_bind_done. cbv zeta.
  rewrite (for_all_batches create f _ _ _ Hcreate), Hc. reflexivity.
Qed.

Lemma embeddings_align_example :
  Embedding.generate_embeddings openai_lengths five_texts 2
  = Done (List.map length_vector five_texts).
Proof.
  apply embeddings_align; [lia|]. intros i batch. reflexivity.
Defined.

(** X19.  With the provider ["openai"], when the client fails on a batch
    after it has answered the batches before it, [generate_embeddings]
    raises what the client raised: the vectors of the batches before are not
    returned. *)
Theorem embeddings_all_or_nothing
    (create : Z -> list str -> attempt (list Embedding.vector))
    (texts : list str) (batch_size : Z) (before after : list Z) (i : Z)
    (e : failure) :
  texts <> [] ->
  range_step (len texts) batch_size = Done (before ++ i :: after) ->
  Forall
    (fun j => exists vs, create j (slice texts j (j + batch_size)) = Done vs)
    before ->
  create i (slice texts i (i + batch_size)) = Failed e ->
  Embedding.generate_embeddings
    {| Embedding._client := Embedding.OpenAI create |} texts batch_size
  = Failed e.
Proof.
  intros Hne Hr Hbefore Hfail. unfold Embedding.generate_embeddings.
  apply truthy_true in Hne. rewrite Hne. cbn [negb Embedding._client].
  rewrite Hr, attempt_bind_done. cbv zeta. clear Hr.
  generalize (@nil Embedding.vector).
  induction Hbefore as [|j before (vs & Hj) _ IH]; intros acc.
  - cbn [app for_all]. rewrite Hfail. reflexivity.
  - cbn [app for_all]. rewrite Hj, !attempt_bind_done. apply IH.
Qed.

Lemma embeddings_all_or_nothing_example :
  Embedding.generate_embeddings openai_fails_late five_texts 2
  = Failed (Raised (ProviderError 2)).
Proof.
  apply (embeddings_all_or_nothing _ five_texts 2 [0] [4] 2).
  - discriminate.
  - reflexivity.
  - repeat constructor. eexists. reflexivity.
  - reflexivity.
Defined.

(** X20.  With the provider ["openai"] and texts to embed,
    [generate_embeddings] raises a [ValueError] for [batch_size = 0], and
    for a negative [batch_size] it asks the client nothing and returns no
    vector at all. *)
Theorem embeddings_without_batches
    (create : Z -> list str -> attempt (list Embedding.vector))
    (texts : list str) (batch_size : Z) :
  texts <> [] ->
  let run :=
    Embedding.generate_embeddings
      {| Embedding._client := Embedding.OpenAI create |} texts batch_size in
  (batch_size = 0 ->
   run = Failed (ValueError (lit "range() arg 3 must not be zero")))
  /\ (batch_size < 0 -> run = Done []).
Proof.
  intros Hne run. subst run. unfold Embedding.generate_embeddings.
  apply truthy_true in Hne. rewrite Hne. cbn [negb Embedding._client].
  split.
  - intros ->. reflexivity.
  - intros Hneg. unfold range_step.
    destruct (Z.eqb_spec batch_size 0); [lia|].
    destruct (Z.ltb_spec 0 batch_size); [lia|].
    pose proof (len_nonneg texts) as Hn.
    assert ((- len texts - batch_size - 1) / - batch_size <= 0) as Hc.
    { destruct (Z.eq_dec (len texts) 0) as [H0|H0].
      - unfold len in H0. destruct texts; [discriminate Hne | cbn in H0; lia].
      - apply Z.lt_succ_r, Z.div_lt_upper_bound; lia. }
    replace (Z.to_nat _) with 0%nat by lia. reflexivity.
Qed.

Lemma embeddings_without_batches_example :
  Embedding.generate_embeddings openai_lengths five_texts (-1) = Done [].
Proof.
  destruct (embeddings_without_batches
              (fun _ batch => Done (List.map length_vector batch))
              five_texts (-1)) as [_ H]; [discriminate|].
  apply H. lia.
Defined.

(** X21.  [generate_embedding] asks the client once, for the list of the one
    text (with the offset 0 for the provider ["openai"], with the default
    batch size otherwise), and returns the first vector of the answer; an
    empty answer raises an [IndexError]. *)
Theorem generate_embedding_single (self : Embedding.EmbeddingService)
    (text : str) :
  Embedding.generate_embedding self text
  = (embeddings ←
       match Embedding._client self with
       | Embedding.OpenAI create => create 0 [text]
       | Embedding.SentenceTransformer encode => encode [text] 100
       end;
     match embeddings with
     | [] => Failed IndexError
     | v :: _ => Done v
     end).
Proof.
  unfold Embedding.generate_embedding, Embedding.generate_embeddings.
  destruct self as [[create|encode]]; cbn [truthy negb Embedding._client].
  - change (range_step (len [text]) 100) with (@Done (list Z) [0]).
    rewrite attempt_bind_done. cbn [for_all].
    change (slice [text] 0 (0 + 100)) with [text].
    destruct (create 0 [text]) as [vs|e]; [|reflexivity].
    rewrite !attempt_bind_done. destruct vs; reflexivity.
  - destruct (encode [text] 100) as [vs|e]; [|reflexivity].
    rewrite !attempt_bind_done. destruct vs; reflexivity.
Qed.

(** ** The document service *)

Lemma attempt_bind_failed {A B : Type} (f : failure) (k : A -> attempt B) :
  (Failed f ≫= k) = Failed f.
Proof. reflexivity. Qed.

(** X22.  A document whose text is blank is rejected: [ingest_document]
    raises [ValueError("No chunks created from document")] before it asks
    for any embedding, and [_documents] is left as it was. *)
Theorem blank_document_rejected (self : Documents.DocumentService)
    (docs : gmap str Documents.DocumentRecord) (file_path filename : str)
    (md : option (gmap string value)) (doc : Documents.DocData) :
  Documents.ingest_file self file_path filename md = Done doc ->
  is_blank (Documents.text doc) = true ->
  Documents.ingest_document self docs file_path filename md
  = (docs, Failed (ValueError (lit "No chunks created from document"))).
Proof.
  intros Hfile Hblank. unfold Documents.ingest_document.
  rewrite Hfile, attempt_bind_done.
  rewrite chunk_text_blank by exact Hblank. reflexivity.
Qed.

Lemma blank_document_rejected_example :
  Documents.ingest_document (service_reading (lit "  ") openai_lengths) ∅
    (lit "/tmp/x") (lit "notes.txt") None
  = (∅, Failed (ValueError (lit "No chunks created from document"))).
Proof.
  apply (blank_document_rejected _ _ _ _ _ (read_file (lit "  ") None));
    reflexivity.
Defined.

(** X23.  [ingest_document] either raises and leaves [_documents] as it
    was, or returns and has added one entry: the document's text was not
    blank, [chunks_created] is the number of chunks of its text (at least
    one), the status of the new identifier is found with that count and the
    status ["processed"], and the entries of the other identifiers are as
    before. *)
Theorem ingest_document_outcome (self : Documents.DocumentService)
    (docs : gmap str Documents.DocumentRecord) (file_path filename : str)
    (md : option (gmap string value)) :
  let run := Documents.ingest_document self docs file_path filename md in
  match snd run with
  | Failed _ => fst run = docs
  | Done r =>
      exists (doc : Documents.DocData) (chunks : list Chunk)
        (record : Documents.DocumentRecord),
        Documents.ingest_file self file_path filename md = Done doc
        /\ is_blank (Documents.text doc) = false
        /\ chunk_text (Documents.chunker self) (Documents.text doc)
             (Some (Documents.chunk_metadata doc filename)) = Return chunks
        /\ 1 <= len chunks
        /\ Documents.res_document_id r = Documents.document_id doc
        /\ Documents.res_chunks_created r = len chunks
        /\ Documents.get_document_status (fst run) (Documents.document_id doc)
           = Done record
        /\ Documents.rec_chunks_count record = len chunks
        /\ Documents.rec_status record = lit "processed"
        /\ Documents.rec_filename record = filename
        /\ forall id', id' <> Documents.document_id doc ->
             fst run !! id' = docs !! id'
  end.
Proof.
  intros run. subst run. unfold Documents.ingest_document.
  destruct (Documents.ingest_file self file_path filename md) as [doc|f]
    eqn:Hfile; [|reflexivity].
  rewrite attempt_bind_done.
  destruct (chunk_text (Documents.chunker self) (Documents.text doc)
              (Some (Documents.chunk_metadata doc filename)))
    as [chunks|e] eqn:Hchunks; [|reflexivity].
  cbn [lift]. rewrite attempt_bind_done.
  destruct chunks as [|c chunks]; [reflexivity|].
  cbn [truthy negb].
  destruct (Embedding.generate_embeddings _ _ _) as [embeddings|f];
    [|reflexivity].
  rewrite attempt_bind_done.
  destruct (VectorDB.upsert_vectors _ _ _ _) as [ok|f]; [|reflexivity].
  rewrite attempt_bind_done. cbn [fst snd].
  eexists doc, (c :: chunks), _.
  split; [reflexivity|]. split.
  { destruct (is_blank (Documents.text doc)) eqn:Hb; [|reflexivity].
    rewrite chunk_text_blank in Hchunks by exact Hb. discriminate. }
  split; [exact Hchunks|]. split; [unfold len; cbn; lia|].
  split; [reflexivity|]. split; [reflexivity|]. split.
  { unfold Documents.get_document_status. rewrite lookup_insert_eq. reflexivity. }
  repeat (split; [reflexivity|]).
  intros id' Hne. apply lookup_insert_ne. congruence.
Qed.

Lemma ingest_document_outcome_example :
  exists record : Documents.DocumentRecord,
    Documents.get_document_status
      (fst (Documents.ingest_document
              (service_reading three_sentences openai_lengths) ∅
              (lit "/tmp/x") (lit "notes.txt") None))
      (lit "id-1") = Done record
    /\ Documents.rec_chunks_count record = 3.
Proof.
  pose proof (ingest_document_outcome
                (service_reading three_sentences openai_lengths) ∅
                (lit "/tmp/x") (lit "notes.txt") None) as H.
  cbv zeta in H.
  destruct (snd (Documents.ingest_document _ _ _ _ _)) as [r|f] eqn:Hrun.
  - destruct H as (doc & chunks & record & Hfile & _ & Hchunks & _ & _ & _
                   & Hget & Hcount & _).
    injection Hfile as <-. exists record. split; [exact Hget|].
    rewrite Hcount.
    assert (chunks
            = returned (chunk_text medium_chunker three_sentences
                          (Some (Documents.chunk_metadata
                                   (read_file three_sentences None)
                                   (lit "notes.txt"))))) as ->
      by (change (chunk_text medium_chunker three_sentences
                    (Some (Documents.chunk_metadata
                             (read_file three_sentences None)
                             (lit "notes.txt"))) = Return chunks) in Hchunks;
          rewrite Hchunks; reflexivity).
    vm_compute. reflexivity.
  - vm_compute in Hrun. discriminate.
Defined.

(** X24.  The metadata stored with the vector of the chunk at position [i]
    holds [chunk_index = i], and under ["text"] the text of the chunk,
    unless the metadata of the document has a ["text"] entry of its own,
    which then takes its place.  So when the document's metadata has no
    ["text"] entry, a hit that comes back with the stored metadata has the
    chunk's text as its text, and the text of its citation can be built. *)
Theorem stored_text_round_trip (chunker : DocumentChunker)
    (doc : Documents.DocData) (filename : str) (chunks : list Chunk)
    (i : nat) (c : Chunk) (sc : Q) :
  chunk_text chunker (Documents.text doc)
    (Some (Documents.chunk_metadata doc filename)) = Return chunks ->
  chunks !! i = Some c ->
  let stored :=
    Documents.vector_metadata (Documents.document_id doc) filename c in
  stored !! "chunk_index" = Some (VInt (Z.of_nat i))
  /\ stored !! "text"
     = Some (match Documents.metadata doc !! "text" with
             | Some v => v
             | None => VStr (Chunking.text c)
             end)
  /\ (Documents.metadata doc !! "text" = None ->
      hit_text (stored_hit (chunk_id c) sc stored) = VStr (Chunking.text c)
      /\ exists t : str,
           citation_text (hit_text (stored_hit (chunk_id c) sc stored))
           = Return (VStr t)).
Proof.
  intros Hret Hc stored.
  assert (Hmd : Chunking.metadata c
                = <["chunk_index" := VInt (Z.of_nat i)]>
                    (Documents.chunk_metadata doc filename)).
  { destruct (chunk_text_inv _ _ _ _ Hret) as [[_ ->]|(m & Hm & _ & _ & Hwf & _)].
    - inversion Hc.
    - injection Hm as <-. destruct (Hwf i c Hc) as (_ & _ & H & _). exact H. }
  assert (Hindex : stored !! "chunk_index" = Some (VInt (Z.of_nat i))).
  { subst stored. unfold Documents.vector_metadata.
    apply lookup_union_Some_l. rewrite Hmd. apply lookup_insert_eq. }
  assert (Htext : stored !! "text"
                  = Some (match Documents.metadata doc !! "text" with
                          | Some v => v
                          | None => VStr (Chunking.text c)
                          end)).
  { subst stored. unfold Documents.vector_metadata.
    destruct (Documents.metadata doc !! "text") as [v|] eqn:Hdoc.
    - apply lookup_union_Some_l. rewrite Hmd.
      rewrite lookup_insert_ne by discriminate.
      unfold Documents.chunk_metadata. apply lookup_union_Some_l, Hdoc.
    - rewrite lookup_union_r.
      + apply lookup_insert_eq.
      + rewrite Hmd. rewrite lookup_insert_ne by discriminate.
        unfold Documents.chunk_metadata. rewrite lookup_union_r by exact Hdoc.
        reflexivity. }
  split; [exact Hindex|]. split; [exact Htext|].
  intros Hnone. rewrite Hnone in Htext.
  assert (Hhit : hit_text (stored_hit (chunk_id c) sc stored)
                 = VStr (Chunking.text c)).
  { unfold hit_text, dict_get, stored_hit. cbn [hit_metadata].
    rewrite Htext. reflexivity. }
  split; [exact Hhit|]. rewrite Hhit. eexists. reflexivity.
Qed.

Lemma stored_text_round_trip_example :
  let doc := read_file three_sentences None in
  let chunks :=
    returned (chunk_text medium_chunker three_sentences
                (Some (Documents.chunk_metadata doc (lit "notes.txt")))) in
  hit_text
    (stored_hit (lit "id-1_1") (8 # 10)
       (Documents.vector_metadata (lit "id-1") (lit "notes.txt")
          (nth_chunk chunks 1)))
  = VStr (lit "b. Cc.").
Proof.
  intros doc chunks.
  destruct (stored_text_round_trip medium_chunker doc (lit "notes.txt") chunks
              1 (nth_chunk chunks 1) (8 # 10)) as (_ & _ & H).
  - vm_compute. reflexivity.
  - vm_compute. reflexivity.
  - destruct H as [H _]; [vm_compute; reflexivity|].
    change (chunk_id (nth_chunk chunks 1)) with (lit "id-1_1") in H.
    change (Documents.document_id doc) with (lit "id-1") in H.
    rewrite H. vm_compute. reflexivity.
Defined.

Lemma zip3_length {A B C : Type} (a : list A) :
  forall (b : list B) (c : list C),
  length (zip3 a b c) = Nat.min (length a) (Nat.min (length b) (length c)).
Proof.
  induction a as [|x a IH]; intros b c; [reflexivity|].
  destruct b as [|y b]; [reflexivity|].
  destruct c as [|z c]; [cbn; lia|].
  cbn [zip3 length]. rewrite IH. lia.
Qed.

(** X25.  With Pinecone, [ingest_document] does not check that it got one
    vector per chunk: the vectors, ids and metadata are zipped, so as many
    vectors are stored as the shorter of the chunks and the vectors has, and
    when the store accepts them the call returns with [chunks_created] the
    number of chunks all the same. *)
Theorem ingest_ignores_vector_count (self : Documents.DocumentService)
    (docs : gmap str Documents.DocumentRecord) (file_path filename : str)
    (md : option (gmap string value)) (doc : Documents.DocData)
    (chunks : list Chunk) (vectors : list Embedding.vector)
    (upsert : list (str * Embedding.vector * gmap string value) -> attempt unit)
    (query : Embedding.vector -> Z -> option (gmap string value)
             -> attempt (list VectorDB.Match)) :
  VectorDB._client (Documents.vector_db_service self)
  = VectorDB.Pinecone upsert query ->
  Documents.ingest_file self file_path filename md = Done doc ->
  chunk_text (Documents.chunker self) (Documents.text doc)
    (Some (Documents.chunk_metadata doc filename)) = Return chunks ->
  chunks <> [] ->
  Embedding.generate_embeddings (Documents.embedding_service self)
    (List.map Chunking.text chunks) 100 = Done vectors ->
  let stored :=
    zip3 (List.map chunk_id chunks) vectors
      (List.map
         (Documents.vector_metadata (Documents.document_id doc) filename)
         chunks) in
  upsert stored = Done tt ->
  length stored = Nat.min (length chunks) (length vectors)
  /\ exists r : Documents.IngestResult,
       snd (Documents.ingest_document self docs file_path filename md) = Done r
       /\ Documents.res_chunks_created r = len chunks.
Proof.
  intros Hdb Hfile Hchunks Hne Hvectors stored Hupsert. split.
  - subst stored. rewrite zip3_length, !length_map. lia.
  - unfold Documents.ingest_document.
    rewrite Hfile, attempt_bind_done, Hchunks. cbn [lift].
    rewrite attempt_bind_done.
    apply truthy_true in Hne. rewrite Hne. cbn [negb].
    rewrite Hvectors, attempt_bind_done.
    unfold VectorDB.upsert_vectors. rewrite Hdb.
    fold stored. rewrite Hupsert, !attempt_bind_done. cbn [snd].
    eexists. split; reflexivity.
Qed.

Lemma ingest_ignores_vector_count_example :
  exists r : Documents.IngestResult,
    snd (Documents.ingest_document (service_reading three_sentences one_vector)
           ∅ (lit "/tmp/x") (lit "notes.txt") None) = Done r
    /\ Documents.res_chunks_created r = 3.
Proof.
  set (doc := read_file three_sentences None).
  set (chunks :=
         returned (chunk_text medium_chunker three_sentences
                     (Some (Documents.chunk_metadata doc (lit "notes.txt"))))).
  destruct (ingest_ignores_vector_count
              (service_reading three_sentences one_vector) ∅
              (lit "/tmp/x") (lit "notes.txt") None doc chunks [[1%Q]]
              (fun _ => Done tt) (fun _ _ _ => Done []))
    as (_ & r & Hrun & Hcount).
  - reflexivity.
  - reflexivity.
  - vm_compute. reflexivity.
  - vm_compute. discriminate.
  - reflexivity.
  - reflexivity.
  - exists r. split; [exact Hrun|]. rewrite Hcount. vm_compute. reflexivity.
Defined.

(** ** A text that is an integer *)

(** An attempt that keeps a hit whose text is an integer, and asks for
    citations, raises: the exception of the generator when the generator
    raises, and the [TypeError] of [_build_citations] when it answers. *)
Lemma attempt_body_integer_text (w : Services) (query : str) (top_k : Z)
    (thr : Q) (attempt : Z) (emb : list Q) (r0 : Hit) (rest : list Hit) :
  generate_embedding w attempt query = Return emb ->
  query_vectors w attempt emb top_k = Return (r0 :: rest) ->
  Exists (fun r => exists k, hit_text r = VInt k) (fst (select thr r0 rest)) ->
  attempt_body w query top_k thr true attempt
  = match
      generate_response w attempt query
        (List.map context_chunk (fst (select thr r0 rest))) true
    with
    | Return _ => Raise TypeError
    | Raise e => Raise e
    end.
Proof.
  intros Hemb Hq Hbad.
  rewrite (attempt_body_hits _ _ _ _ _ _ _ _ _ Hemb Hq).
  destruct (generate_response w attempt query _ true) as [a|e];
    [|reflexivity].
  rewrite bind_return.
  assert (Hraise : _build_citations
                     (List.map context_chunk (fst (select thr r0 rest)))
                   = Raise TypeError).
  { apply build_citations_raises.
    apply List.Exists_map. eapply List.Exists_impl; [|exact Hbad].
    intros r Hr. exact Hr. }
  rewrite Hraise. reflexivity.
Qed.

(** X8.  When citations are asked for and, at each attempt, one of the
    hits that are kept has an integer as its text, no attempt returns,
    whatever the generator does: the call makes its [max_retries] attempts
    with their back-off and raises the exception of the last one.  That
    exception is the [TypeError] of [_build_citations] when the generator
    answers at the last attempt, and the exception of the generator when it
    raises; so the [TypeError] is retried like a failure of a
    collaborator. *)
Theorem type_error_is_retried
    (cfg : Config.Settings) (self : RetrievalService) (w : Services)
    (query : str) (top_k : option Z) (threshold : option Q) :
  let n := max_retries self in
  let thr := effective_threshold self threshold in
  1 <= n ->
  (forall i, 0 <= i < n ->
     exists (emb : list Q) (r0 : Hit) (rest : list Hit),
       generate_embedding w i query = Return emb
       /\ query_vectors w i emb (effective_top_k cfg top_k) = Return (r0 :: rest)
       /\ Exists (fun r => exists k, hit_text r = VInt k)
            (fst (select thr r0 rest))) ->
  exists e : exn,
    retrieve_and_answer cfg self w query top_k threshold true
    = (backoff_log (n - 1) ++ [Attempt (n - 1)], Raise e)
    /\ forall (emb : list Q) (r0 : Hit) (rest : list Hit),
         generate_embedding w (n - 1) query = Return emb ->
         query_vectors w (n - 1) emb (effective_top_k cfg top_k)
         = Return (r0 :: rest) ->
         match
           generate_response w (n - 1) query
             (List.map context_chunk (fst (select thr r0 rest))) true
         with
         | Return _ => e = TypeError
         | Raise e' => e = e'
         end.
Proof.
  intros n thr Hn Hall.
  set (body := attempt_body w query (effective_top_k cfg top_k) thr true).
  set (cause := fun i => match body i with Raise e => e | Return _ => TypeError end).
  assert (Hfail : forall i, 0 <= i < n -> body i = Raise (cause i)).
  { intros i Hi. destruct (Hall i Hi) as (emb & r0 & rest & Hemb & Hq & Hbad).
    unfold cause, body.
    rewrite (attempt_body_integer_text _ _ _ _ _ _ _ _ Hemb Hq Hbad).
    destruct (generate_response w i query _ true); reflexivity. }
  exists (cause (n - 1)). split.
  - apply (retry_loop_exhausted _ n cause Hn). exact Hfail.
  - intros emb r0 rest Hemb Hq.
    destruct (Hall (n - 1)) as (emb' & r0' & rest' & Hemb' & Hq' & Hbad);
      [lia|].
    rewrite Hemb in Hemb'. injection Hemb' as <-.
    rewrite Hq in Hq'. injection Hq' as <- <-.
    unfold cause, body.
    rewrite (attempt_body_integer_text _ _ _ _ _ _ _ _ Hemb Hq Hbad).
    destruct (generate_response w (n - 1) query _ true); reflexivity.
Qed.

Lemma type_error_is_retried_example :
  retrieve_and_answer Config.settings (init Config.settings)
    (always [numbered "b" (8 # 10)]) (lit "q") None None true
  = ([Attempt 0; Sleep 1; Attempt 1; Sleep 2; Attempt 2], Raise TypeError).
Proof.
  destruct (type_error_is_retried Config.settings (init Config.settings)
              (always [numbered "b" (8 # 10)]) (lit "q") None None)
    as (e & Hrun & He).
  - vm_compute. discriminate.
  - intros i _. exists [1%Q], (numbered "b" (8 # 10)), [].
    repeat split. constructor. exists 42. reflexivity.
  - specialize (He [1%Q] (numbered "b" (8 # 10)) [] eq_refl eq_refl).
    cbn in He. subst e. exact Hrun.
Defined.
